(** * audit_rule_translations.py: a shallow embedding and its properties

    The script compares an English rules file with a translated one,
    reports drift, and (in [new_version] mode) rewrites the translated file
    with [# [AUDIT]] comments.  This development embeds the script's
    functions and proves properties of them.

    Conventions of the embedding.
    - A Python [str] is a list of Unicode code points ([N]); [lit] turns an
      ASCII literal into such a list.
    - A text file is the list of lines a Python file iterator yields.
    - A parsed YAML value is a [value]; mappings are association lists in
      insertion order, with [str] keys.  Floats are left out.
    - A Python exception is a [Raise] in the [result] type.
    - [yaml.safe_load] is not part of the script: it is a section variable. *)

From Stdlib Require Import List NArith ZArith Bool Lia Arith.
From Stdlib Require DecimalN DecimalFacts Finite.
From Stdlib Require Permutation Sorted.
From Stdlib Require HexadecimalN.
From Stdlib Require String Ascii.
Import ListNotations.
Import String.StringSyntax Ascii.AsciiSyntax.

Set Implicit Arguments.
Set Warnings "-register-all".

(* ================================================================== *)
(** * Python strings *)
(* ================================================================== *)

Module PyStr.

Definition char := N.
Definition str := list char.

(** An ASCII literal as a [str]. *)
Fixpoint lit (s : String.string) : str :=
  match s with
  | String.EmptyString => []
  | String.String a r => Ascii.N_of_ascii a :: lit r
  end.

(** An ASCII literal in which a backquote stands for a double quote. *)
Definition litq (s : String.string) : str :=
  map (fun c => if N.eqb c 96 then 34%N else c) (lit s).

(** A line of a text file: the literal and its newline. *)
Definition ln (s : String.string) : str := litq s ++ [10%N].

Fixpoint str_eqb (a b : str) : bool :=
  match a, b with
  | [], [] => true
  | x :: a', y :: b' => N.eqb x y && str_eqb a' b'
  | _, _ => false
  end.

Lemma str_eqb_spec (a b : str) : reflect (a = b) (str_eqb a b).
Proof.
  revert b; induction a as [|x a IH]; intros [|y b]; simpl;
    try (constructor; congruence).
  destruct (N.eqb_spec x y) as [->|Hne]; simpl.
  - destruct (IH b) as [->|Hne]; constructor; congruence.
  - constructor; congruence.
Qed.

Lemma str_eqb_refl (a : str) : str_eqb a a = true.
Proof. destruct (str_eqb_spec a a); congruence. Qed.

Lemma str_eqb_eq (a b : str) : str_eqb a b = true <-> a = b.
Proof. destruct (str_eqb_spec a b); split; congruence. Qed.

Lemma str_eqb_neq (a b : str) : str_eqb a b = false <-> a <> b.
Proof. destruct (str_eqb_spec a b); split; congruence. Qed.

Definition str_eq_dec (a b : str) : {a = b} + {a <> b} :=
  list_eq_dec N.eq_dec a b.

(** [str.isspace] on one code point; it is also what [\s] matches in a
    [re] pattern over [str], and what [strip]/[lstrip] remove. *)
Definition is_space (c : char) : bool :=
  ((9 <=? c) && (c <=? 13) || (28 <=? c) && (c <=? 32)
   || (c =? 133) || (c =? 160) || (c =? 5760)
   || (8192 <=? c) && (c <=? 8202) || (c =? 8232) || (c =? 8233)
   || (c =? 8239) || (c =? 8287) || (c =? 12288))%N.

Fixpoint lstrip (s : str) : str :=
  match s with
  | c :: r => if is_space c then lstrip r else s
  | [] => []
  end.

Definition rstrip (s : str) : str := rev (lstrip (rev s)).

Definition strip (s : str) : str := rstrip (lstrip s).

(** [s.rstrip(chars)] *)
Fixpoint lstrip_chars (chars : str) (s : str) : str :=
  match s with
  | c :: r => if existsb (N.eqb c) chars then lstrip_chars chars r else s
  | [] => []
  end.

Definition rstrip_chars (chars : str) (s : str) : str :=
  rev (lstrip_chars chars (rev s)).

(** [s.replace(a, b)] for one-character [a] and [b]. *)
Definition replace_char (a b : char) (s : str) : str :=
  map (fun c => if N.eqb c a then b else c) s.

(** [s.startswith(p)]; on success the rest of [s] is returned. *)
Fixpoint strip_prefix (p s : str) : option str :=
  match p, s with
  | [], _ => Some s
  | x :: p', y :: s' => if N.eqb x y then strip_prefix p' s' else None
  | _ :: _, [] => None
  end.

Definition startswith (p s : str) : bool :=
  match strip_prefix p s with Some _ => true | None => false end.

(** [p in s] for strings. *)
Fixpoint contains (p s : str) : bool :=
  startswith p s ||
  match s with
  | [] => false
  | _ :: r => contains p r
  end.

(** [sep.join(parts)] *)
Fixpoint join (sep : str) (parts : list str) : str :=
  match parts with
  | [] => []
  | [p] => p
  | p :: rest => p ++ sep ++ join sep rest
  end.

(** [c * n] for a one-character string [c]. *)
Definition repeat_char (c : char) (n : nat) : str := repeat c n.

(** Decimal digits of a number, as [str(n)] prints a non-negative int. *)
Fixpoint uint_codes (u : Decimal.uint) : str :=
  match u with
  | Decimal.Nil => []
  | Decimal.D0 r => 48 :: uint_codes r
  | Decimal.D1 r => 49 :: uint_codes r
  | Decimal.D2 r => 50 :: uint_codes r
  | Decimal.D3 r => 51 :: uint_codes r
  | Decimal.D4 r => 52 :: uint_codes r
  | Decimal.D5 r => 53 :: uint_codes r
  | Decimal.D6 r => 54 :: uint_codes r
  | Decimal.D7 r => 55 :: uint_codes r
  | Decimal.D8 r => 56 :: uint_codes r
  | Decimal.D9 r => 57 :: uint_codes r
  end%N.

Definition dec (n : N) : str := uint_codes (N.to_uint n).

Definition dec_nat (n : nat) : str := dec (N.of_nat n).

(** Lower-case hexadecimal digits, as [format(n, 'x')]. *)
Fixpoint hex_codes (u : Hexadecimal.uint) : str :=
  match u with
  | Hexadecimal.Nil => []
  | Hexadecimal.D0 r => 48 :: hex_codes r
  | Hexadecimal.D1 r => 49 :: hex_codes r
  | Hexadecimal.D2 r => 50 :: hex_codes r
  | Hexadecimal.D3 r => 51 :: hex_codes r
  | Hexadecimal.D4 r => 52 :: hex_codes r
  | Hexadecimal.D5 r => 53 :: hex_codes r
  | Hexadecimal.D6 r => 54 :: hex_codes r
  | Hexadecimal.D7 r => 55 :: hex_codes r
  | Hexadecimal.D8 r => 56 :: hex_codes r
  | Hexadecimal.D9 r => 57 :: hex_codes r
  | Hexadecimal.Da r => 97 :: hex_codes r
  | Hexadecimal.Db r => 98 :: hex_codes r
  | Hexadecimal.Dc r => 99 :: hex_codes r
  | Hexadecimal.Dd r => 100 :: hex_codes r
  | Hexadecimal.De r => 101 :: hex_codes r
  | Hexadecimal.Df r => 102 :: hex_codes r
  end%N.

(** [format(n, '04x')]: hexadecimal, zero-padded to at least four digits. *)
Definition hex04 (n : N) : str :=
  let digits := hex_codes (N.to_hex_uint n) in
  repeat 48%N (4 - length digits) ++ digits.

(** Lexicographic order on code points, the order [sorted] uses on [str]. *)
Fixpoint str_leb (a b : str) : bool :=
  match a, b with
  | [], _ => true
  | _ :: _, [] => false
  | x :: a', y :: b' =>
      if (x <? y)%N then true else if (y <? x)%N then false else str_leb a' b'
  end.

Fixpoint insert_sorted (x : str) (l : list str) : list str :=
  match l with
  | [] => [x]
  | y :: r => if str_leb x y then x :: l else y :: insert_sorted x r
  end.

(** [sorted(l)] for a list of strings. *)
Definition sorted (l : list str) : list str :=
  fold_left (fun acc x => insert_sorted x acc) l [].

End PyStr.

Export PyStr.

Local Open Scope string_scope.

Example dec_1204 : dec 1204 = lit "1204".
Proof. reflexivity. Qed.

Example hex04_alpha : hex04 945 = lit "03b1".
Proof. reflexivity. Qed.

Example sorted_tags : sorted [lit "mo"; lit "mi"; lit "mn"] = [lit "mi"; lit "mn"; lit "mo"].
Proof. reflexivity. Qed.

(* ================================================================== *)
(** * Exceptions *)
(* ================================================================== *)

Inductive exn : Type :=
| AttributeError
| TypeError
| KeyError
| IndexError
| YAMLError
| FileNotFoundError
| SystemExit (code : nat).

Inductive result (A : Type) : Type :=
| Ok (a : A)
| Raise (e : exn).

Arguments Ok {A} a.
Arguments Raise {A} e.

Definition bind {A B : Type} (r : result A) (f : A -> result B) : result B :=
  match r with
  | Ok a => f a
  | Raise e => Raise e
  end.

Declare Scope py_scope.
Delimit Scope py_scope with py.
Notation "x <- c ;; k" := (bind c (fun x => k))
  (at level 61, c at next level, right associativity) : py_scope.
Notation "' p <- c ;; k" := (bind c (fun x => let p := x in k))
  (at level 61, p pattern, c at next level, right associativity) : py_scope.

Definition is_ok {A : Type} (r : result A) : bool :=
  match r with Ok _ => true | Raise _ => false end.

(* ================================================================== *)
(** * Line classification (lines 105-141) *)
(* ================================================================== *)

Module Lines.

(** [not bool(line and line.replace(NBSP, SPACE).strip())], NBSP being
    the code point 160. *)
Definition line_is_blank (line : str) : bool :=
  negb (match line with
        | [] => false
        | _ => match strip (replace_char 160%N 32%N line) with
               | [] => false
               | _ => true
               end
        end).

(** [re.match(r'^---', line.rstrip(CR LF))] *)
Definition line_is_start_of_document (line : str) : bool :=
  startswith (lit "---") (rstrip_chars [13; 10]%N line).

(** One literal character of a pattern. *)
Definition expect (c : char) (s : str) : option str :=
  match s with
  | x :: r => if N.eqb x c then Some r else None
  | [] => None
  end.

(** [re.match(r'^\s*#\s*\[AUDIT\]', line)] *)
Definition line_is_a_translation_audit_comment (line : str) : bool :=
  match expect 35%N (lstrip line) with
  | Some r => startswith (lit "[AUDIT]") (lstrip r)
  | None => false
  end.

(** [re.match(r'^\s*#', line)] *)
Definition starts_with_hash (line : str) : bool :=
  match expect 35%N (lstrip line) with
  | Some _ => true
  | None => false
  end.

Definition line_is_a_normal_comment (line : str) : bool :=
  starts_with_hash line && negb (line_is_a_translation_audit_comment line).

(** The longest prefix of [s] without the character [c], and what
    follows: a greedy negated class. *)
Fixpoint span_not (c : char) (s : str) : str * str :=
  match s with
  | [] => ([], [])
  | x :: r =>
      if N.eqb x c then ([], s)
      else let (g, rest) := span_not c r in (x :: g, rest)
  end.

(** A single quote, whitespace and a colon at the head of [s]. *)
Definition closes_single_quoted (s : str) : bool :=
  match expect 39%N s with
  | Some r => match expect 58%N (lstrip r) with Some _ => true | None => false end
  | None => false
  end.

(** The lazy group: the shortest non-empty run of characters other than a
    newline after which [closes_single_quoted] matches. *)
Fixpoint lazy_group (s : str) : option str :=
  match s with
  | [] => None
  | c :: r =>
      if N.eqb c 10%N then None
      else if closes_single_quoted r then Some [c]
      else match lazy_group r with
           | Some g => Some (c :: g)
           | None => None
           end
  end.

(** First pattern of [get_key_from_line], with [re.match]: whitespace, a
    dash, whitespace, a double quote, the group (the longest run without a
    double quote), a double quote, whitespace, a colon. *)
Definition double_quoted_key (line : str) : option str :=
  match expect 45%N (lstrip line) with
  | Some r =>
      match expect 34%N (lstrip r) with
      | Some r1 =>
          let (g, r2) := span_not 34%N r1 in
          match expect 34%N r2 with
          | Some r3 =>
              match expect 58%N (lstrip r3) with
              | Some _ => Some g
              | None => None
              end
          | None => None
          end
      | None => None
      end
  | None => None
  end.

(** Second pattern of [get_key_from_line], with [re.search] anchored at the
    start: whitespace, a dash, at least one whitespace, a single quote, the
    lazy group of [lazy_group] and its closing part. *)
Definition single_quoted_key (line : str) : option str :=
  match expect 45%N (lstrip line) with
  | Some r =>
      match r with
      | c :: _ =>
          if is_space c then
            match expect 39%N (lstrip r) with
            | Some r1 => lazy_group r1
            | None => None
            end
          else None
      | [] => None
      end
  | None => None
  end.

Definition get_key_from_line (line : str) : option str :=
  match double_quoted_key line with
  | Some k => Some k
  | None => single_quoted_key line
  end.

(** [\s*\S+] at the head of [s]. *)
Definition has_value (s : str) : bool :=
  match lstrip s with
  | [] => false
  | _ :: _ => true
  end.

(** The greedy run [-*]. *)
Fixpoint skip_dashes (s : str) : str :=
  match s with
  | c :: r => if N.eqb c 45%N then skip_dashes r else s
  | [] => []
  end.

(** [re.match(r'^\s*-*\s*name:\s*\S+', line)] *)
Definition line_has_name_key (line : str) : bool :=
  match strip_prefix (lit "name:") (lstrip (skip_dashes (lstrip line))) with
  | Some r => has_value r
  | None => false
  end.

(** [re.match(r'^\s*tag:\s*\S+', line)] *)
Definition line_has_tag_key (line : str) : bool :=
  match strip_prefix (lit "tag:") (lstrip line) with
  | Some r => has_value r
  | None => false
  end.

(** [re.match(r'^\s*-\s*name:', missing_line)] *)
Definition line_starts_rule_name (line : str) : bool :=
  match expect 45%N (lstrip line) with
  | Some r => startswith (lit "name:") (lstrip r)
  | None => false
  end.

(** [stripped.startswith('- ')] with [stripped = line.lstrip()] *)
Definition starts_sequence_item (line : str) : bool :=
  startswith (lit "- ") (lstrip line).

(** [len(line) - len(stripped)] *)
Definition indent_of (line : str) : nat :=
  length line - length (lstrip line).

End Lines.

Export Lines.

Example blank_nbsp : line_is_blank [160; 32; 10]%N = true.
Proof. reflexivity. Qed.

Example audit_line :
  line_is_a_translation_audit_comment (lit "  # [AUDIT] NEW RULE 'x' THAT NEEDS TRANSLATION") = true.
Proof. reflexivity. Qed.

Example key_double : get_key_from_line (litq " - `a`: [t: `x`]") = Some (lit "a").
Proof. reflexivity. Qed.

Example key_single : get_key_from_line (lit "- 'it''s' : 1") = Some (lit "it''s").
Proof. reflexivity. Qed.

Example key_unquoted : get_key_from_line (lit "- a: 1") = None.
Proof. reflexivity. Qed.

Example name_line : line_has_name_key (lit "- name: default") = true.
Proof. reflexivity. Qed.

Example tag_line_no_value : line_has_tag_key (lit "  tag:") = false.
Proof. reflexivity. Qed.

(* ================================================================== *)
(** * Parsed YAML values *)
(* ================================================================== *)

Module PyValue.

(** What [yaml.safe_load] returns.  A mapping keeps its insertion order. *)
#[local] Unset Elimination Schemes.
Inductive value : Type :=
| VNone
| VBool (b : bool)
| VInt (z : Z)
| VStr (s : str)
| VList (items : list value)
| VDict (fields : list (str * value)).
#[local] Set Elimination Schemes.

Definition is_dict (v : value) : bool :=
  match v with VDict _ => true | _ => false end.

Definition is_list (v : value) : bool :=
  match v with VList _ => true | _ => false end.

Definition keys (d : list (str * value)) : list str := map fst d.

Definition mem (k : str) (ks : list str) : bool := existsb (str_eqb k) ks.

(** [d[k]], when [k] is a key of [d]. *)
Fixpoint dict_get (k : str) (d : list (str * value)) : option value :=
  match d with
  | [] => None
  | (k', v) :: r => if str_eqb k k' then Some v else dict_get k r
  end.

(** Python's [==] on parsed values: [True == 1], sequences are compared
    element by element, mappings as finite maps (same number of keys, and
    every key of the left one bound to an equal value on the right). *)
Fixpoint py_eq (a b : value) {struct a} : bool :=
  match a, b with
  | VNone, VNone => true
  | VBool x, VBool y => Bool.eqb x y
  | VInt x, VInt y => Z.eqb x y
  | VBool x, VInt y => Z.eqb (if x then 1 else 0) y
  | VInt x, VBool y => Z.eqb x (if y then 1 else 0)
  | VStr x, VStr y => str_eqb x y
  | VList l1, VList l2 =>
      (fix each (l1 l2 : list value) {struct l1} : bool :=
         match l1, l2 with
         | [], [] => true
         | x :: r1, y :: r2 => py_eq x y && each r1 r2
         | _, _ => false
         end) l1 l2
  | VDict d1, VDict d2 =>
      Nat.eqb (length d1) (length d2) &&
      (fix each (d : list (str * value)) {struct d} : bool :=
         match d with
         | [] => true
         | (k, v) :: r =>
             match dict_get k d2 with
             | Some v' => py_eq v v'
             | None => false
             end && each r
         end) d1
  | _, _ => false
  end.

(** Element-wise comparison of two sequences. *)
Fixpoint list_eq (l1 l2 : list value) : bool :=
  match l1, l2 with
  | [], [] => true
  | x :: r1, y :: r2 => py_eq x y && list_eq r1 r2
  | _, _ => false
  end.

(** Every binding of [d] is matched in [d2]. *)
Fixpoint fields_in (d d2 : list (str * value)) : bool :=
  match d with
  | [] => true
  | (k, v) :: r =>
      match dict_get k d2 with
      | Some v' => py_eq v v'
      | None => false
      end && fields_in r d2
  end.

Lemma py_eq_list (l1 l2 : list value) :
  py_eq (VList l1) (VList l2) = list_eq l1 l2.
Proof. reflexivity. Qed.

Lemma py_eq_dict (d1 d2 : list (str * value)) :
  py_eq (VDict d1) (VDict d2) =
  Nat.eqb (length d1) (length d2) && fields_in d1 d2.
Proof.
  simpl. f_equal.
  induction d1 as [|[k v] r IH]; [reflexivity|].
  simpl. now rewrite IH.
Qed.

(** A Python mapping has pairwise distinct keys, at every level. *)
Inductive wf : value -> Prop :=
| wf_none : wf VNone
| wf_bool b : wf (VBool b)
| wf_int z : wf (VInt z)
| wf_str s : wf (VStr s)
| wf_list l : Forall wf l -> wf (VList l)
| wf_dict d : NoDup (keys d) -> Forall (fun kv => wf (snd kv)) d -> wf (VDict d).

(** Induction over values that reaches the elements of sequences and the
    values of mappings. *)
Section ValueInd.
Variable P : value -> Prop.
Hypothesis Hnone : P VNone.
Hypothesis Hbool : forall b, P (VBool b).
Hypothesis Hint : forall z, P (VInt z).
Hypothesis Hstr : forall s, P (VStr s).
Hypothesis Hlist : forall l, Forall P l -> P (VList l).
Hypothesis Hdict : forall d, Forall (fun kv => P (snd kv)) d -> P (VDict d).

Fixpoint value_ind' (v : value) : P v :=
  match v with
  | VNone => Hnone
  | VBool b => Hbool b
  | VInt z => Hint z
  | VStr s => Hstr s
  | VList l =>
      Hlist ((fix each (l : list value) : Forall P l :=
                match l with
                | [] => Forall_nil _
                | x :: r => Forall_cons _ (value_ind' x) (each r)
                end) l)
  | VDict d =>
      Hdict ((fix each (d : list (str * value)) : Forall (fun kv => P (snd kv)) d :=
                match d with
                | [] => Forall_nil _
                | kv :: r => Forall_cons kv (value_ind' (snd kv)) (each r)
                end) d)
  end.

End ValueInd.

End PyValue.

Export PyValue.

(* ================================================================== *)
(** * The untranslated-key counter (lines 179-191) *)
(* ================================================================== *)

Module Counter.

(** [key in ['t', 'ot', 'oc']] *)
Definition is_untranslated_marker (key : str) : bool :=
  mem key [lit "t"; lit "ot"; lit "oc"].

(** The body of [count_untranslated_keys_in_dict], on a value that is a
    mapping.  Every caller checks [isinstance(_, dict)] first. *)
Fixpoint count_untranslated (dictionary : value) : nat :=
  match dictionary with
  | VDict fields =>
      (fix items (fields : list (str * value)) : nat :=
         match fields with
         | [] => 0
         | (key, value) :: rest =>
             (if is_untranslated_marker key then 1 else 0)
             + match value with
               | VDict _ => count_untranslated value
               | VList l =>
                   (fix each (l : list PyValue.value) : nat :=
                      match l with
                      | [] => 0
                      | item :: more =>
                          match item with
                          | VDict _ => count_untranslated item
                          | _ => 0
                          end + each more
                      end) l
               | _ => 0
               end
             + items rest
         end) fields
  | _ => 0
  end.

Definition count_untranslated_keys_in_dict (dictionary : list (str * value)) : nat :=
  count_untranslated (VDict dictionary).

(** The two inner loops, named. *)
Definition count_item (item : value) : nat :=
  match item with
  | VDict _ => count_untranslated item
  | _ => 0
  end.

Fixpoint count_items (l : list value) : nat :=
  match l with
  | [] => 0
  | item :: more => count_item item + count_items more
  end.

Definition count_field (value : value) : nat :=
  match value with
  | VDict _ => count_untranslated value
  | VList l => count_items l
  | _ => 0
  end.

Lemma count_untranslated_cons key value rest :
  count_untranslated (VDict ((key, value) :: rest)) =
  (if is_untranslated_marker key then 1 else 0)
  + count_field value + count_untranslated (VDict rest).
Proof.
  destruct value; try reflexivity.
Qed.

Lemma count_untranslated_nil : count_untranslated (VDict []) = 0.
Proof. reflexivity. Qed.

End Counter.

Export Counter.

(* ================================================================== *)
(** * The structural diff (lines 194-259) *)
(* ================================================================== *)

Module Diff.

Definition ignored_keys : list str :=
  [lit "t"; lit "T"; lit "oc"; lit "OC"; lit "CT"; lit "ct"].

Definition is_ignored (k : str) : bool := mem k ignored_keys.

(** [set(d.keys()) - ignored_keys], as a list without order. *)
Definition minus_ignored (ks : list str) : list str :=
  filter (fun k => negb (is_ignored k)) ks.

(** [a - b] on key sets. *)
Definition set_minus (a b : list str) : list str :=
  filter (fun k => negb (mem k b)) a.

(** [a == b] on key sets. *)
Definition keyset_eqb (a b : list str) : bool :=
  forallb (fun k => mem k b) a && forallb (fun k => mem k a) b.

(** A warning message.  The text written by the f-string is kept, the
    interpolated values and key sets are kept unrendered: how [str()]
    prints a value, and in which order a [set] prints its elements, is
    Python's business. *)
Inductive piece : Type :=
| Txt (s : str)
| Val (v : value)
| Keys (ks : list str).

Definition msg := list piece.

(** [f"{path}['{k}']"] *)
Definition path_key (path k : str) : str :=
  path ++ lit "['" ++ k ++ lit "']".

(** [f"{path}[{index}]"] *)
Definition path_index (path : str) (index : nat) : str :=
  path ++ lit "[" ++ dec_nat index ++ lit "]".

(** The messages of lines 224-232. *)
Definition key_mismatch_msgs (ks1 ks2 : list str) (path : str) : list msg :=
  [[Txt (lit "Dictionaries don't have the same keys at path: " ++ path)]]
  ++ (if Nat.ltb 0 (length (set_minus (minus_ignored ks1) (minus_ignored ks2)))
      then [[Txt (lit "Keys in first dictionary that are not in second dictionary: ");
             Keys (set_minus (minus_ignored ks1) (minus_ignored ks2))]]
      else [])
  ++ (if Nat.ltb 0 (length (set_minus (minus_ignored ks2) (minus_ignored ks1)))
      then [[Txt (lit "Keys in second dictionary that are not in first dictionary: ");
             Keys (set_minus (minus_ignored ks2) (minus_ignored ks1))]]
      else []).

(** The messages of lines 254-256. *)
Definition value_mismatch_msgs (k path : str) (v1 v2 : value) : list msg :=
  [[Txt (lit "Values for key: " ++ k ++ lit " don't match at path: "
         ++ path_key path k ++ lit ":")];
   [Txt (lit "  1: "); Val v1];
   [Txt (lit "  2: "); Val v2]].

(** The messages of lines 210-212. *)
Definition item_mismatch_msgs (path : str) (index : nat) (item1 item2 : value) : list msg :=
  [[Txt (lit "List item values don't match at path: "
         ++ path_index path index ++ lit ":")];
   [Txt (lit "  1: "); Val item1];
   [Txt (lit "  2: "); Val item2]].

Local Open Scope py_scope.

(** The two functions call each other; their loops are written first, over
    the function [recurse] they call back. *)
Section Loops.

Variable recurse : value -> value -> str -> result (list msg * bool).

(** The loop of [lists_are_the_same] (lines 203-215); [zip] stops at the
    end of the shorter list. *)
Fixpoint lists_loop_with (list1 list2 : list value) (path : str) (index : nat)
  (warning_msgs : list msg) {struct list1} : result (list msg * bool) :=
  match list1, list2 with
  | item1 :: rest1, item2 :: rest2 =>
      if is_dict item1 && is_dict item2 then
        '(warnings, same) <- recurse item1 item2 (path_index path index) ;;
        if negb same then Ok (warning_msgs ++ warnings, false)
        else lists_loop_with rest1 rest2 path (S index) (warning_msgs ++ warnings)
      else if negb (py_eq item1 item2) then
        Ok (warning_msgs ++ item_mismatch_msgs path index item1 item2, false)
      else lists_loop_with rest1 rest2 path (S index) warning_msgs
  | _, _ => Ok (warning_msgs, true)
  end.

Definition lists_are_the_same_with (list1 list2 : list value) (path : str)
  : result (list msg * bool) :=
  if negb (Nat.eqb (length list1) (length list2))
  then Ok ([[Txt (lit "Lists don't have the same length at path: " ++ path)]], false)
  else lists_loop_with list1 list2 path 0 [].

(** The loop over [dict1.keys()] (lines 235-257).  [dict2[k]] is looked up
    once per key. *)
Fixpoint keys_loop_with (fields2 : list (str * value)) (path : str)
  (items : list (str * value)) (warning_msgs : list msg) {struct items}
  : result (list msg * bool) :=
  match items with
  | [] => Ok (warning_msgs, true)
  | (k, v1) :: rest =>
      if is_ignored k then keys_loop_with fields2 path rest warning_msgs
      else
        match dict_get k fields2 with
        | None => Raise KeyError
        | Some v2 =>
            match v1 with
            | VDict _ =>
                '(warnings, same) <- recurse v1 v2 (path_key path k) ;;
                if negb same then Ok (warning_msgs ++ warnings, false)
                else keys_loop_with fields2 path rest (warning_msgs ++ warnings)
            | VList list1 =>
                match v2 with
                | VList list2 =>
                    if negb (Nat.eqb (length list1) (length list2))
                    then Ok (warning_msgs
                             ++ [[Txt (lit "lists don't match at path: "
                                       ++ path_key path k)]], false)
                    else
                      '(warnings, same) <-
                        lists_are_the_same_with list1 list2 (path_key path k) ;;
                      if negb same then Ok (warning_msgs ++ warnings, false)
                      else keys_loop_with fields2 path rest (warning_msgs ++ warnings)
                | _ =>
                    Ok (warning_msgs
                        ++ [[Txt (lit "lists don't match at path: "
                                  ++ path_key path k)]], false)
                end
            | _ =>
                if negb (py_eq v1 v2)
                then Ok (warning_msgs ++ value_mismatch_msgs k path v1 v2, false)
                else keys_loop_with fields2 path rest warning_msgs
            end
        end
  end.

End Loops.

(** [dictionaries_are_the_same_besides_translations] (lines 218-259).
    [dict1.keys()] and [dict2.keys()] raise [AttributeError] on a value
    that is not a mapping. *)
Fixpoint dictionaries_are_the_same_besides_translations
  (dict1 dict2 : value) (path : str) {struct dict1} : result (list msg * bool) :=
  match dict1, dict2 with
  | VDict fields1, VDict fields2 =>
      if negb (keyset_eqb (minus_ignored (keys fields1)) (minus_ignored (keys fields2)))
      then Ok (key_mismatch_msgs (keys fields1) (keys fields2) path, false)
      else keys_loop_with dictionaries_are_the_same_besides_translations
             fields2 path fields1 []
  | _, _ => Raise AttributeError
  end.

Definition lists_loop := lists_loop_with dictionaries_are_the_same_besides_translations.

Definition lists_are_the_same :=
  lists_are_the_same_with dictionaries_are_the_same_besides_translations.

Definition keys_loop := keys_loop_with dictionaries_are_the_same_besides_translations.

Lemma dictionaries_unfold (fields1 fields2 : list (str * value)) (path : str) :
  dictionaries_are_the_same_besides_translations (VDict fields1) (VDict fields2) path =
  if negb (keyset_eqb (minus_ignored (keys fields1)) (minus_ignored (keys fields2)))
  then Ok (key_mismatch_msgs (keys fields1) (keys fields2) path, false)
  else keys_loop fields2 path fields1 [].
Proof. reflexivity. Qed.

End Diff.

Export Diff.

(** ** Runs of the diff *)

Example diff_translation_only :
  dictionaries_are_the_same_besides_translations
    (VDict [(lit "name", VStr (lit "X")); (lit "tag", VStr (lit "t1")); (lit "t", VStr (lit "Hello"))])
    (VDict [(lit "name", VStr (lit "X")); (lit "tag", VStr (lit "t1")); (lit "t", VStr (lit "Bonjour"))])
    (lit "X:t1")
  = Ok ([], true).
Proof. reflexivity. Qed.

Example diff_oc_absent :
  dictionaries_are_the_same_besides_translations
    (VDict [(lit "name", VStr (lit "X"))])
    (VDict [(lit "oc", VStr (lit "old")); (lit "name", VStr (lit "X"))])
    (lit "R")
  = Ok ([], true).
Proof. reflexivity. Qed.

Example diff_value :
  dictionaries_are_the_same_besides_translations
    (VDict [(lit "a", VDict [(lit "b", VInt 1)])])
    (VDict [(lit "a", VDict [(lit "b", VInt 2)])])
    (lit "R")
  = Ok ([[Txt (lit "Values for key: b don't match at path: R['a']['b']:")];
         [Txt (lit "  1: "); Val (VInt 1)];
         [Txt (lit "  2: "); Val (VInt 2)]], false).
Proof. reflexivity. Qed.

Example diff_mapping_against_scalar :
  dictionaries_are_the_same_besides_translations
    (VDict [(lit "a", VDict [(lit "b", VInt 1)])])
    (VDict [(lit "a", VStr (lit "x"))])
    (lit "R")
  = Raise AttributeError.
Proof. reflexivity. Qed.

Example diff_list_in_list :
  dictionaries_are_the_same_besides_translations
    (VDict [(lit "k", VList [VList [VDict [(lit "t", VStr (lit "a"))]]])])
    (VDict [(lit "k", VList [VList [VDict [(lit "t", VStr (lit "b"))]]])])
    (lit "R")
  = Ok ([[Txt (lit "List item values don't match at path: R['k'][0]:")];
         [Txt (lit "  1: "); Val (VList [VDict [(lit "t", VStr (lit "a"))]])];
         [Txt (lit "  2: "); Val (VList [VDict [(lit "t", VStr (lit "b"))]])]], false).
Proof. reflexivity. Qed.

(* ================================================================== *)
(** * Trees that differ only in translatable fields *)
(* ================================================================== *)

Module Erase.

Section With.

Variable rec : value -> value.

Fixpoint fields_without_ignored (on_value : value -> value)
  (d : list (str * value)) : list (str * value) :=
  match d with
  | [] => []
  | (k, x) :: r =>
      if is_ignored k then fields_without_ignored on_value r
      else (k, on_value x) :: fields_without_ignored on_value r
  end.

Definition reached_item (item : value) : value :=
  if is_dict item then rec item else item.

Definition reached_field (x : value) : value :=
  match x with
  | VDict _ => rec x
  | VList l => VList (map reached_item l)
  | _ => x
  end.

End With.

(** The tree without its translatable fields: every field whose key is in
    [ignored_keys] is removed, in every mapping of the tree. *)
Fixpoint strip_translations (v : value) : value :=
  match v with
  | VDict d => VDict (fields_without_ignored strip_translations d)
  | VList l => VList (map strip_translations l)
  | _ => v
  end.

(** The same, but only in the mappings the diff walks into: the mapping
    itself, the mappings that are values of its fields, and the mappings
    that are elements of its sequence-valued fields.  A sequence nested
    directly in a sequence is left as it is. *)
Fixpoint erase_reached (v : value) : value :=
  match v with
  | VDict d => VDict (fields_without_ignored (reached_field erase_reached) d)
  | _ => v
  end.

Definition erase_field := reached_field erase_reached.
Definition erase_item := reached_item erase_reached.

End Erase.

Export Erase.

Section EraseFacts.

Variable on_value : value -> value.

Lemma keys_fields_without_ignored (d : list (str * value)) :
  keys (fields_without_ignored on_value d) = minus_ignored (keys d).
Proof.
  induction d as [|[k x] r IH]; [reflexivity|].
  simpl. destruct (is_ignored k); simpl; now rewrite IH.
Qed.

Lemma dict_get_fields_without_ignored (k : str) (d : list (str * value)) :
  is_ignored k = false ->
  dict_get k (fields_without_ignored on_value d) = option_map on_value (dict_get k d).
Proof.
  intros Hk. induction d as [|[k' x] r IH]; [reflexivity|].
  simpl. destruct (is_ignored k') eqn:E.
  - destruct (str_eqb_spec k k') as [->|_]; [congruence|exact IH].
  - simpl. destruct (str_eqb k k'); [reflexivity|exact IH].
Qed.

End EraseFacts.

Lemma mem_In (k : str) (ks : list str) : mem k ks = true <-> In k ks.
Proof.
  unfold mem. rewrite existsb_exists. split.
  - intros (x & Hin & Heq). apply str_eqb_eq in Heq. now subst.
  - intros Hin. exists k. split; [exact Hin|apply str_eqb_refl].
Qed.

Lemma dict_get_In_keys (k : str) (d : list (str * value)) (v : value) :
  dict_get k d = Some v -> In k (keys d).
Proof.
  induction d as [|[k' x] r IH]; simpl; [discriminate|].
  destruct (str_eqb_spec k k') as [->|_]; [now left|].
  intros H. right. now apply IH.
Qed.

Lemma fields_in_keys (d d2 : list (str * value)) :
  fields_in d d2 = true -> incl (keys d) (keys d2).
Proof.
  induction d as [|[k v] r IH]; simpl; intros H.
  - intros x [].
  - apply andb_true_iff in H as [H1 H2].
    intros x [<-|Hx].
    + destruct (dict_get k d2) eqn:E; [|discriminate].
      eapply dict_get_In_keys; eauto.
    + now apply IH.
Qed.

Lemma keyset_eqb_incl (a b : list str) :
  incl a b -> incl b a -> keyset_eqb a b = true.
Proof.
  intros Hab Hba. unfold keyset_eqb.
  apply andb_true_iff; split; apply forallb_forall; intros x Hx; apply mem_In; auto.
Qed.

Lemma NoDup_minus_ignored (ks : list str) : NoDup ks -> NoDup (minus_ignored ks).
Proof. apply NoDup_filter. Qed.

(** Equal mappings have equal key sets. *)
Lemma py_eq_dict_keyset (d1 d2 : list (str * value)) :
  NoDup (keys d1) ->
  py_eq (VDict d1) (VDict d2) = true ->
  incl (keys d1) (keys d2) /\ incl (keys d2) (keys d1).
Proof.
  intros Hnd H. rewrite py_eq_dict in H.
  apply andb_true_iff in H as [Hlen Hin].
  apply Nat.eqb_eq in Hlen.
  pose proof (fields_in_keys _ _ Hin) as Hincl.
  split; [exact Hincl|].
  apply NoDup_length_incl; [exact Hnd| |exact Hincl].
  unfold keys. rewrite !length_map. lia.
Qed.

Section TranslationOnly.

Local Abbreviation compare := dictionaries_are_the_same_besides_translations.

(** What the induction carries for one mapping [a]. *)
Definition matches_when_erased_equal (a : value) : Prop :=
  forall b path,
    is_dict a = true -> is_dict b = true ->
    py_eq (erase_reached a) (erase_reached b) = true ->
    compare a b path = Ok ([], true).

Lemma py_eq_dict_left (d : list (str * value)) (b : value) :
  py_eq (VDict d) b = true -> is_dict b = true.
Proof. destruct b; simpl; congruence. Qed.

Lemma py_eq_list_left (l : list value) (b : value) :
  py_eq (VList l) b = true -> is_list b = true.
Proof. destruct b; simpl; congruence. Qed.

Lemma py_eq_dict_right (a : value) (d : list (str * value)) :
  py_eq a (VDict d) = true -> is_dict a = true.
Proof. destruct a; simpl; congruence. Qed.

Lemma erase_reached_is_dict (v : value) : is_dict (erase_reached v) = is_dict v.
Proof. destruct v; reflexivity. Qed.

Lemma erase_field_is_dict (v : value) : is_dict (erase_field v) = is_dict v.
Proof. destruct v; reflexivity. Qed.

Lemma erase_field_is_list (v : value) : is_list (erase_field v) = is_list v.
Proof. destruct v; reflexivity. Qed.

Lemma erase_item_is_dict (v : value) : is_dict (erase_item v) = is_dict v.
Proof. destruct v; reflexivity. Qed.

Lemma erase_field_scalar (v : value) :
  is_dict v = false -> is_list v = false -> erase_field v = v.
Proof. destruct v; try reflexivity; simpl; congruence. Qed.

Lemma erase_item_not_dict (v : value) : is_dict v = false -> erase_item v = v.
Proof. destruct v; try reflexivity; simpl; congruence. Qed.

Lemma lists_loop_erased (l1 : list value) :
  Forall matches_when_erased_equal l1 ->
  forall l2 path index,
    list_eq (map erase_item l1) (map erase_item l2) = true ->
    lists_loop l1 l2 path index [] = Ok ([], true).
Proof.
  induction 1 as [|item1 r1 Hitem _ IH]; intros [|item2 r2] path index Heq;
    try reflexivity; try discriminate.
  simpl in Heq. apply andb_true_iff in Heq as [Hhead Htail].
  unfold lists_loop in *. cbn [lists_loop_with].
  destruct (is_dict item1) eqn:E1; destruct (is_dict item2) eqn:E2; cbn [andb].
  - rewrite (Hitem item2 (path_index path index) E1 E2).
    + cbn [bind negb app]. now apply IH.
    + destruct item1; try discriminate. destruct item2; try discriminate. exact Hhead.
  - exfalso. rewrite (erase_item_not_dict _ E2) in Hhead.
    destruct item1; try discriminate.
    apply py_eq_dict_left in Hhead. congruence.
  - exfalso. rewrite (erase_item_not_dict _ E1) in Hhead.
    destruct item2; try discriminate.
    apply py_eq_dict_right in Hhead. congruence.
  - rewrite (erase_item_not_dict _ E1), (erase_item_not_dict _ E2) in Hhead.
    rewrite Hhead. cbn [negb]. now apply IH.
Qed.

Definition field_matches (v : value) : Prop :=
  matches_when_erased_equal v /\
  forall l, v = VList l -> Forall matches_when_erased_equal l.

Lemma keys_loop_erased (items : list (str * value)) :
  Forall (fun kv => field_matches (snd kv)) items ->
  forall fields2 path,
    fields_in (fields_without_ignored erase_field items)
              (fields_without_ignored erase_field fields2) = true ->
    keys_loop fields2 path items [] = Ok ([], true).
Proof.
  induction 1 as [|[k v1] rest [Hdict Hlist] _ IH]; intros fields2 path Hin;
    [reflexivity|].
  unfold keys_loop in *. cbn [keys_loop_with].
  cbn [fields_without_ignored] in Hin.
  destruct (is_ignored k) eqn:Ek; [now apply IH|].
  cbn [fields_in] in Hin. apply andb_true_iff in Hin as [Hhead Htail].
  rewrite (dict_get_fields_without_ignored _ _ fields2 Ek) in Hhead.
  destruct (dict_get k fields2) as [v2|]; [|discriminate].
  cbn [option_map] in Hhead. cbn [snd] in *.
  destruct (is_dict v1) eqn:E1.
  - (* a mapping: the second value is one too *)
    assert (E2 : is_dict v2 = true).
    { destruct v1; try discriminate.
      apply py_eq_dict_left in Hhead. now rewrite erase_field_is_dict in Hhead. }
    destruct v1; try discriminate.
    rewrite (Hdict v2 (path_key path k) eq_refl E2).
    + cbn [bind negb app]. now apply IH.
    + destruct v2; try discriminate. exact Hhead.
  - destruct (is_list v1) eqn:L1.
    + (* a sequence *)
      destruct v1 as [| | | |list1|]; try discriminate.
      assert (L2 : is_list v2 = true).
      { apply py_eq_list_left in Hhead. now rewrite erase_field_is_list in Hhead. }
      destruct v2 as [| | | |list2|]; try discriminate.
      change (list_eq (map erase_item list1) (map erase_item list2) = true) in Hhead.
      assert (Hlen : length list1 = length list2).
      { clear -Hhead. revert list2 Hhead.
        induction list1 as [|x r IHl]; intros [|y r2] H; try discriminate; [reflexivity|].
        simpl in H. apply andb_true_iff in H as [_ H]. simpl. f_equal. now apply IHl. }
      apply Nat.eqb_eq in Hlen.
      unfold lists_are_the_same_with. rewrite Hlen. cbn [negb].
      pose proof (@lists_loop_erased list1 (Hlist list1 eq_refl) list2
                    (path_key path k) 0 Hhead) as Hloop.
      unfold lists_loop in Hloop. rewrite Hloop.
      cbn [bind negb app]. now apply IH.
    + (* a scalar *)
      rewrite (erase_field_scalar _ E1 L1) in Hhead.
      assert (erase_field v2 = v2) as Hv2.
      { destruct v2 as [| | | |list2|sub]; try reflexivity;
          destruct v1; discriminate. }
      rewrite Hv2 in Hhead.
      destruct v1; try discriminate; rewrite Hhead; cbn [negb]; now apply IH.
Qed.

Lemma compare_erased_equal (v : value) : wf v -> field_matches v.
Proof.
  induction v as [|b0|z0|s0|l IH|d IH] using value_ind'; intros Hwf;
    try (split; [intros b path Hd; discriminate|intros l Hl; discriminate]).
  - split; [intros b path Hd; discriminate|].
    intros l' [= <-]. inversion Hwf as [| | | |l0 Hall|]; subst.
    rewrite Forall_forall in *. intros x Hx. now apply IH; auto.
  - split; [|intros l Hl; discriminate].
    intros b path _ Hb Heq.
    destruct b as [| | | | |fields2]; try discriminate.
    inversion Hwf as [| | | | |d0 Hnd Hall]; subst.
    rewrite dictionaries_unfold.
    cbn [erase_reached] in Heq.
    fold erase_field in Heq.
    assert (Hks : keyset_eqb (minus_ignored (keys d)) (minus_ignored (keys fields2)) = true).
    { apply py_eq_dict_keyset in Heq.
      - rewrite !keys_fields_without_ignored in Heq. destruct Heq.
        now apply keyset_eqb_incl.
      - rewrite keys_fields_without_ignored. now apply NoDup_minus_ignored. }
    rewrite Hks. cbn [negb].
    apply keys_loop_erased.
    + rewrite Forall_forall in *. intros kv Hkv. apply IH; auto.
    + rewrite py_eq_dict in Heq. now apply andb_true_iff in Heq as [_ Heq].
Qed.

End TranslationOnly.

(** A decidable form of [wf]. *)
Fixpoint nodupb (ks : list str) : bool :=
  match ks with
  | [] => true
  | k :: r => negb (mem k r) && nodupb r
  end.

Fixpoint wfb (v : value) : bool :=
  match v with
  | VList l => forallb wfb l
  | VDict d => nodupb (keys d) && forallb (fun kv => wfb (snd kv)) d
  | _ => true
  end.

Lemma nodupb_NoDup (ks : list str) : nodupb ks = true -> NoDup ks.
Proof.
  induction ks as [|k r IH]; simpl; intros H; constructor.
  - apply andb_true_iff in H as [H _]. rewrite <- mem_In.
    destruct (mem k r); [discriminate|congruence].
  - apply andb_true_iff in H as [_ H]. now apply IH.
Qed.

Lemma wfb_wf (v : value) : wfb v = true -> wf v.
Proof.
  induction v as [|b0|z0|s0|l IH|d IH] using value_ind'; intros H;
    try constructor.
  - simpl in H. rewrite forallb_forall in H. rewrite Forall_forall in *. auto.
  - simpl in H. apply andb_true_iff in H as [H _]. now apply nodupb_NoDup.
  - simpl in H. apply andb_true_iff in H as [_ H].
    rewrite forallb_forall in H. rewrite Forall_forall in *. auto.
Qed.

(* ------------------------------------------------------------------ *)
(** ** Translation-only differences *)
(* ------------------------------------------------------------------ *)

Definition nested_hello : value :=
  VDict [(lit "name", VStr (lit "X"));
         (lit "replace", VList [VList [VDict [(lit "t", VStr (lit "Hello"))]]])].

Definition nested_bonjour : value :=
  VDict [(lit "name", VStr (lit "X"));
         (lit "replace", VList [VList [VDict [(lit "t", VStr (lit "Bonjour"))]]])].

(** C2, as the claim states it, fails: the two records below are equal once
    every translatable field is removed (they differ in one [t] field
    only), yet the diff reports a mismatch, because the [t] field sits in a
    mapping inside a sequence inside a sequence and such elements are
    compared with [!=]. *)
Lemma translation_in_nested_sequence_is_reported :
  wf nested_hello /\ wf nested_bonjour /\
  py_eq (strip_translations nested_hello) (strip_translations nested_bonjour) = true /\
  dictionaries_are_the_same_besides_translations nested_hello nested_bonjour (lit "X:t1")
  = Ok ([[Txt (lit "List item values don't match at path: X:t1['replace'][0]:")];
         [Txt (lit "  1: "); Val (VList [VDict [(lit "t", VStr (lit "Hello"))]])];
         [Txt (lit "  2: "); Val (VList [VDict [(lit "t", VStr (lit "Bonjour"))]])]],
        false).
Proof.
  repeat split; try (apply wfb_wf; reflexivity); reflexivity.
Qed.

(** C2 (amended): if the reference record and the derived record are equal
    once the fields with an ignored key are removed from the record, from
    the mappings that are values of fields, and from the mappings that are
    elements of sequence-valued fields (so an ignored key such as [oc] may
    be present on one side and absent on the other), the diff returns
    match = true and no warning. *)
Theorem translation_only_difference_matches (reference derived : value) (path : str) :
  wf reference ->
  is_dict reference = true ->
  is_dict derived = true ->
  py_eq (erase_reached reference) (erase_reached derived) = true ->
  dictionaries_are_the_same_besides_translations reference derived path = Ok ([], true).
Proof.
  intros Hwf Hr Hd Heq.
  destruct (compare_erased_equal Hwf) as [Hmatch _].
  now apply Hmatch.
Qed.

Definition reference_without_oc : value :=
  VDict [(lit "name", VStr (lit "X")); (lit "tag", VStr (lit "t1"));
         (lit "replace", VList [VDict [(lit "t", VStr (lit "Hello"))]])].

Definition derived_with_oc : value :=
  VDict [(lit "name", VStr (lit "X")); (lit "oc", VStr (lit "old"));
         (lit "tag", VStr (lit "t1"));
         (lit "replace", VList [VDict [(lit "t", VStr (lit "Bonjour"))]])].

Lemma translation_only_difference_matches_witness :
  wf reference_without_oc /\
  py_eq (erase_reached reference_without_oc) (erase_reached derived_with_oc) = true /\
  dictionaries_are_the_same_besides_translations
    reference_without_oc derived_with_oc (lit "X:t1") = Ok ([], true).
Proof.
  split; [apply wfb_wf; reflexivity|].
  split; [reflexivity|].
  apply (@translation_only_difference_matches
           reference_without_oc derived_with_oc (lit "X:t1")).
  - apply wfb_wf; reflexivity.
  - reflexivity.
  - reflexivity.
  - reflexivity.
Defined.

(* ------------------------------------------------------------------ *)
(** ** A mapping compared with something that is not a mapping *)
(* ------------------------------------------------------------------ *)

(** C4: the claim does not hold of the code.  Under a shared key that is
    not ignored, the first record holds a mapping and the second a string:
    line 238 tests [dict1[k]] only, the recursive call evaluates
    [dict2.keys()] on the string, and the comparison ends in
    [AttributeError] instead of a reported mismatch. *)
Theorem mapping_against_scalar_raises :
  dictionaries_are_the_same_besides_translations
    (VDict [(lit "name", VStr (lit "X")); (lit "test", VDict [(lit "if", VStr (lit "a"))])])
    (VDict [(lit "name", VStr (lit "X")); (lit "test", VStr (lit "a"))])
    (lit "X:t1")
  = Raise AttributeError.
Proof. reflexivity. Qed.

(** The sibling paths do test both sides: a mapping against a scalar as
    elements of two sequences is a reported mismatch, and so is a sequence
    against a scalar. *)
Example mapping_against_scalar_in_sequence :
  dictionaries_are_the_same_besides_translations
    (VDict [(lit "test", VList [VDict [(lit "if", VStr (lit "a"))]])])
    (VDict [(lit "test", VList [VStr (lit "a")])])
    (lit "R")
  = Ok ([[Txt (lit "List item values don't match at path: R['test'][0]:")];
         [Txt (lit "  1: "); Val (VDict [(lit "if", VStr (lit "a"))])];
         [Txt (lit "  2: "); Val (VStr (lit "a"))]], false).
Proof. reflexivity. Qed.

Example sequence_against_scalar :
  dictionaries_are_the_same_besides_translations
    (VDict [(lit "test", VList [VInt 1])])
    (VDict [(lit "test", VStr (lit "a"))])
    (lit "R")
  = Ok ([[Txt (lit "lists don't match at path: R['test']")]], false).
Proof. reflexivity. Qed.

(** C3: the claim does not hold of the code, by the defect of C4.  The two
    records differ in the field [match], which is not ignored; the diff
    does not return match = false, it raises. *)
Theorem differing_field_raises :
  py_eq (strip_translations (VDict [(lit "match", VDict [(lit "tag", VStr (lit "mi"))])]))
        (strip_translations (VDict [(lit "match", VStr (lit "mi"))])) = false /\
  dictionaries_are_the_same_besides_translations
    (VDict [(lit "match", VDict [(lit "tag", VStr (lit "mi"))])])
    (VDict [(lit "match", VStr (lit "mi"))])
    (lit "R")
  = Raise AttributeError.
Proof. split; reflexivity. Qed.

(* ================================================================== *)
(** * What the counter counts *)
(* ================================================================== *)

Module Counted.

Section With.

Variable rec : value -> list (list (str * value)).

Definition mappings_of_item (item : value) : list (list (str * value)) :=
  if is_dict item then rec item else [].

Definition mappings_of_field (x : value) : list (list (str * value)) :=
  match x with
  | VDict _ => rec x
  | VList l => flat_map mappings_of_item l
  | _ => []
  end.

End With.

(** The mappings of a record, in the words of the claim: the mapping, its
    mapping-valued fields (recursively), and the mapping elements of its
    list-valued fields. *)
Fixpoint counted_mappings (v : value) : list (list (str * value)) :=
  match v with
  | VDict d => d :: flat_map (fun kv => mappings_of_field counted_mappings (snd kv)) d
  | _ => []
  end.

(** The occurrences of the keys [t], [ot] and [oc] in a list of mappings. *)
Definition occurrences (ms : list (list (str * value))) : nat :=
  length (filter is_untranslated_marker (flat_map keys ms)).

Definition marker_occurrences (v : value) : nat :=
  occurrences (counted_mappings v).

End Counted.

Export Counted.

Section CounterFacts.

Lemma occurrences_app (a b : list (list (str * value))) :
  occurrences (a ++ b) = occurrences a + occurrences b.
Proof.
  unfold occurrences. now rewrite flat_map_app, filter_app, length_app.
Qed.

Lemma occurrences_cons (d : list (str * value)) (ms : list (list (str * value))) :
  occurrences (d :: ms) =
  length (filter is_untranslated_marker (keys d)) + occurrences ms.
Proof.
  unfold occurrences. simpl. now rewrite filter_app, length_app.
Qed.

Definition counts_agree (v : value) : Prop :=
  count_item v = occurrences (mappings_of_item counted_mappings v) /\
  count_field v = occurrences (mappings_of_field counted_mappings v).

Lemma count_fields_agree (d : list (str * value)) :
  Forall (fun kv => counts_agree (snd kv)) d ->
  count_untranslated (VDict d) = occurrences (counted_mappings (VDict d)).
Proof.
  induction 1 as [|[k v] r [_ Hfield] _ IH]; [reflexivity|].
  rewrite count_untranslated_cons, IH.
  cbn [counted_mappings flat_map snd].
  rewrite !occurrences_cons, occurrences_app.
  cbn [snd] in Hfield. rewrite Hfield.
  cbn [keys map fst filter].
  fold (keys r).
  destruct (is_untranslated_marker k); cbn [length]; lia.
Qed.

Lemma count_agrees (v : value) : counts_agree v.
Proof.
  induction v as [|b0|z0|s0|l IH|d IH] using value_ind';
    try (split; reflexivity).
  - split; [reflexivity|].
    cbn [count_field mappings_of_field].
    induction IH as [|item more [Hitem _] _ IHl]; [reflexivity|].
    cbn [count_items flat_map]. now rewrite occurrences_app, Hitem, IHl.
  - pose proof (count_fields_agree IH) as H. split; exact H.
Qed.

End CounterFacts.

Definition alpha_with_ot (text : str) : value :=
  VDict [(lit "name", VStr (lit "X")); (lit "tag", VStr (lit "mi"));
         (lit "replace", VList [VDict [(lit "ot", VStr text)]])].

Definition alpha_with_T (text : str) : value :=
  VDict [(lit "name", VStr (lit "X")); (lit "tag", VStr (lit "mi"));
         (lit "replace", VList [VDict [(lit "T", VStr text)]])].

(** C10: the counter returns the number of occurrences of the keys [t],
    [ot] and [oc] in the mapping, in its mapping-valued fields
    (recursively) and in the mapping elements of its list-valued fields.
    The counted keys are not the ignored keys of the diff: [ot] is counted
    and not ignored, [T], [OC], [CT] and [ct] are ignored and not counted.
    So one [ot] field that differs makes a record both need translation
    and have differences, and one [T] field that differs makes it
    neither. *)
Theorem counter_counts_markers :
  (forall dictionary : list (str * value),
      count_untranslated_keys_in_dict dictionary = marker_occurrences (VDict dictionary)) /\
  (forall k, is_untranslated_marker k = true <-> k = lit "t" \/ k = lit "ot" \/ k = lit "oc") /\
  (is_untranslated_marker (lit "ot") = true /\ is_ignored (lit "ot") = false) /\
  Forall (fun k => is_ignored k = true /\ is_untranslated_marker k = false)
         [lit "T"; lit "OC"; lit "CT"; lit "ct"] /\
  (count_untranslated (alpha_with_ot (lit "alfa")) = 1 /\
   exists warnings,
     dictionaries_are_the_same_besides_translations
       (alpha_with_ot (lit "alpha")) (alpha_with_ot (lit "alfa")) (lit "X:mi")
     = Ok (warnings, false)) /\
  (count_untranslated (alpha_with_T (lit "alfa")) = 0 /\
   dictionaries_are_the_same_besides_translations
     (alpha_with_T (lit "alpha")) (alpha_with_T (lit "alfa")) (lit "X:mi")
   = Ok ([], true)).
Proof.
  split; [|split; [|split; [|split; [|split]]]].
  - intros dictionary. unfold count_untranslated_keys_in_dict, marker_occurrences.
    apply count_fields_agree. apply Forall_forall. intros kv _. apply count_agrees.
  - intros k. unfold is_untranslated_marker. rewrite mem_In. simpl. intuition congruence.
  - split; reflexivity.
  - repeat constructor.
  - split; [reflexivity|]. eexists. reflexivity.
  - split; reflexivity.
Qed.

(* ================================================================== *)
(** * Record keys (lines 144-176, 418-434) *)
(* ================================================================== *)

Module Keys.

Local Open Scope py_scope.

Definition option_str_eqb (a b : option str) : bool :=
  match a, b with
  | None, None => true
  | Some x, Some y => str_eqb x y
  | _, _ => false
  end.

Lemma option_str_eqb_eq (a b : option str) : option_str_eqb a b = true <-> a = b.
Proof.
  destruct a, b; simpl; try (split; congruence).
  rewrite str_eqb_eq. split; congruence.
Qed.

(** [k in rule]: a key test on a mapping, an element test on a sequence, a
    substring test on a string, [TypeError] on anything else. *)
Definition py_in (k : str) (rule : value) : result bool :=
  match rule with
  | VDict d => Ok (mem k (keys d))
  | VList l => Ok (existsb (py_eq (VStr k)) l)
  | VStr s => Ok (contains k s)
  | _ => Raise TypeError
  end.

(** [rule[k]] for a string [k]. *)
Definition py_getitem (rule : value) (k : str) : result value :=
  match rule with
  | VDict d => match dict_get k d with Some v => Ok v | None => Raise KeyError end
  | _ => Raise TypeError
  end.

(** The strings of a list of values; [join] raises [TypeError] on an
    element that is not a string. *)
Fixpoint all_strings (l : list value) : result (list str) :=
  match l with
  | [] => Ok []
  | VStr s :: r => rest <- all_strings r ;; Ok (s :: rest)
  | _ :: _ => Raise TypeError
  end.

(** [rule['name'] + ':' + tag] with [tag] computed as on lines 146-151 and
    429-433; [+] raises [TypeError] unless both sides are strings. *)
Definition format_rule_key_from_dict (rule : value) : result str :=
  tag_value <- py_getitem rule (lit "tag") ;;
  tag <- match tag_value with
         | VList l =>
             elements <- all_strings l ;;
             Ok (VStr (lit "[" ++ join (lit ", ") (sorted elements) ++ lit "]"))
         | other => Ok other
         end ;;
  name <- py_getitem rule (lit "name") ;;
  match name, tag with
  | VStr n, VStr t => Ok (n ++ lit ":" ++ t)
  | _, _ => Raise TypeError
  end.

(** ["name" in rule and "tag" in rule], then the key. *)
Definition composite_key (rule : value) : result (option str) :=
  has_name <- py_in (lit "name") rule ;;
  if has_name then
    has_tag <- py_in (lit "tag") rule ;;
    if has_tag then k <- format_rule_key_from_dict rule ;; Ok (Some k)
    else Ok None
  else Ok None.

(** [list(rule.keys())[0]] *)
Definition single_key (rule : value) : result str :=
  match rule with
  | VDict [] => Raise IndexError
  | VDict ((k, _) :: _) => Ok k
  | _ => Raise AttributeError
  end.

(** [format_rule_key_for_display] (lines 154-159) *)
Definition format_rule_key_for_display (rule_key : str) : str :=
  match rule_key with
  | [c] => lit "'" ++ rule_key ++ lit "' (Unicode char: \u" ++ hex04 c ++ lit ")"
  | _ => lit "'" ++ rule_key ++ lit "'"
  end.

(** [len(x)] *)
Definition py_len (v : value) : result nat :=
  match v with
  | VStr s => Ok (length s)
  | VList l => Ok (length l)
  | VDict d => Ok (length d)
  | _ => Raise TypeError
  end.

(** [x[0]] for [x] with [len(x) == 1]; a mapping has no key [0] here. *)
Definition py_first (v : value) : result value :=
  match v with
  | VStr (c :: _) => Ok (VStr [c])
  | VList (x :: _) => Ok x
  | VDict _ => Raise KeyError
  | VStr [] | VList [] => Raise IndexError
  | _ => Raise TypeError
  end.

Section Parser.

(** [yaml.safe_load] *)
Variable safe_load : str -> result value.

(** [get_rule_key_from_buffered_lines] (lines 161-176) *)
Definition get_rule_key_from_buffered_lines (lines : list str) : result (option str) :=
  from_buffer <- safe_load (concat lines) ;;
  n <- py_len from_buffer ;;
  if Nat.eqb n 1 then
    rule <- py_first from_buffer ;;
    composite_key rule
  else Ok None.

End Parser.

End Keys.

Export Keys.

Example display_alpha :
  format_rule_key_for_display [945%N] = lit "'" ++ [945%N] ++ lit "' (Unicode char: \u03b1)".
Proof. reflexivity. Qed.

Example key_with_tag_list :
  composite_key (VDict [(lit "name", VStr (lit "default"));
                        (lit "tag", VList [VStr (lit "mo"); VStr (lit "mi")])])
  = Ok (Some (lit "default:[mi, mo]")).
Proof. reflexivity. Qed.

Example key_missing_tag :
  composite_key (VDict [(lit "name", VStr (lit "default"))]) = Ok None.
Proof. reflexivity. Qed.

(* ================================================================== *)
(** * The missing-record extractor (lines 289-356) *)
(* ================================================================== *)

Module Extractor.

Local Open Scope py_scope.

(** [del l[:n]]; with [n = None] the slice is the whole list. *)
Definition del_upto (n : option nat) (l : list str) : list str :=
  match n with
  | Some n => skipn n l
  | None => []
  end.

(** [del l[n:]]; with [n = None] the slice is the whole list. *)
Definition del_from (n : option nat) (l : list str) : list str :=
  match n with
  | Some n => firstn n l
  | None => []
  end.

(** [l[:n]] *)
Definition slice_upto (n : option nat) (l : list str) : list str :=
  match n with
  | Some n => firstn n l
  | None => l
  end.

Definition is_some {A : Type} (o : option A) : bool :=
  match o with Some _ => true | None => false end.

Definition is_none {A : Type} (o : option A) : bool :=
  match o with Some _ => false | None => true end.

Definition option_nat_eqb (a b : option nat) : bool :=
  match a, b with
  | Some x, Some y => Nat.eqb x y
  | None, None => true
  | _, _ => false
  end.

(** The local variables of [grab_missing_rule_lines]. *)
Record grab_state : Type := {
  g_indentation : option nat;
  g_past_start_of_document : bool;
  g_buffered_lines : list str;
  g_last_buffered_non_blank_non_comment_line : option nat;
  g_current_rule_key : option str;
  g_found_name_key : bool
}.

Definition grab_init : grab_state := {|
  g_indentation := None;
  g_past_start_of_document := false;
  g_buffered_lines := [];
  g_last_buffered_non_blank_non_comment_line := None;
  g_current_rule_key := None;
  g_found_name_key := false
|}.

Section Parser.

Variable safe_load : str -> result value.

Section Grab.

Variable missing_rule_key : str.
Variable is_a_unicode_file : bool.

(** Lines 307-311. *)
Definition grab_document_start (st : grab_state) (line : str) : grab_state :=
  if negb (g_past_start_of_document st)
     && negb (line_is_a_normal_comment line)
     && negb (line_is_start_of_document line)
  then {| g_indentation := g_indentation st;
          g_past_start_of_document := true;
          g_buffered_lines := g_buffered_lines st;
          g_last_buffered_non_blank_non_comment_line :=
            g_last_buffered_non_blank_non_comment_line st;
          g_current_rule_key := g_current_rule_key st;
          g_found_name_key := g_found_name_key st |}
  else st.

(** Lines 314-335: [true] stands for [break]. *)
Definition grab_boundary (st : grab_state) (line : str) : bool * grab_state :=
  if starts_sequence_item line then
    let indentation :=
      match g_indentation st with
      | None => Some (indent_of line)
      | Some n => Some n
      end in
    if option_nat_eqb (Some (indent_of line)) indentation then
      if option_str_eqb (Some missing_rule_key) (g_current_rule_key st) then
        (true,
         {| g_indentation := indentation;
            g_past_start_of_document := g_past_start_of_document st;
            g_buffered_lines := g_buffered_lines st;
            g_last_buffered_non_blank_non_comment_line :=
              g_last_buffered_non_blank_non_comment_line st;
            g_current_rule_key := g_current_rule_key st;
            g_found_name_key := g_found_name_key st |})
      else
        (false,
         {| g_indentation := indentation;
            g_past_start_of_document := g_past_start_of_document st;
            g_buffered_lines :=
              del_upto (g_last_buffered_non_blank_non_comment_line st)
                       (g_buffered_lines st);
            g_last_buffered_non_blank_non_comment_line := None;
            g_current_rule_key := None;
            g_found_name_key := false |})
    else
      (false,
       {| g_indentation := indentation;
          g_past_start_of_document := g_past_start_of_document st;
          g_buffered_lines := g_buffered_lines st;
          g_last_buffered_non_blank_non_comment_line :=
            g_last_buffered_non_blank_non_comment_line st;
          g_current_rule_key := g_current_rule_key st;
          g_found_name_key := g_found_name_key st |})
  else (false, st).

(** Lines 337-339. *)
Definition grab_buffer (st : grab_state) (line : str) : grab_state :=
  let buffered_lines := g_buffered_lines st ++ [line] in
  {| g_indentation := g_indentation st;
     g_past_start_of_document := g_past_start_of_document st;
     g_buffered_lines := buffered_lines;
     g_last_buffered_non_blank_non_comment_line :=
       if negb (line_is_blank line) && negb (line_is_a_normal_comment line)
       then Some (length buffered_lines)
       else g_last_buffered_non_blank_non_comment_line st;
     g_current_rule_key := g_current_rule_key st;
     g_found_name_key := g_found_name_key st |}.

(** Lines 341-347. *)
Definition grab_detect (st : grab_state) (line : str) : result grab_state :=
  if is_some (g_indentation st) && is_none (g_current_rule_key st) then
    let current_rule_key :=
      if is_a_unicode_file then get_key_from_line line else g_current_rule_key st in
    let found_name_key :=
      if line_has_name_key line then true else g_found_name_key st in
    if found_name_key && line_has_tag_key line then
      k <- get_rule_key_from_buffered_lines safe_load (g_buffered_lines st) ;;
      Ok {| g_indentation := g_indentation st;
            g_past_start_of_document := g_past_start_of_document st;
            g_buffered_lines := g_buffered_lines st;
            g_last_buffered_non_blank_non_comment_line :=
              g_last_buffered_non_blank_non_comment_line st;
            g_current_rule_key := k;
            g_found_name_key := found_name_key |}
    else
      Ok {| g_indentation := g_indentation st;
            g_past_start_of_document := g_past_start_of_document st;
            g_buffered_lines := g_buffered_lines st;
            g_last_buffered_non_blank_non_comment_line :=
              g_last_buffered_non_blank_non_comment_line st;
            g_current_rule_key := current_rule_key;
            g_found_name_key := found_name_key |}
  else Ok st.

(** The body of the loop over the file (lines 305-347); [true] stands for
    [break]. *)
Definition grab_step (st : grab_state) (line : str) : result (bool * grab_state) :=
  let st := grab_document_start st line in
  if g_past_start_of_document st && negb (line_is_a_translation_audit_comment line)
  then
    let (stop, st) := grab_boundary st line in
    if stop then Ok (true, st)
    else
      st <- grab_detect (grab_buffer st line) line ;;
      Ok (false, st)
  else Ok (false, st).

Fixpoint grab_loop (lines : list str) (st : grab_state) : result grab_state :=
  match lines with
  | [] => Ok st
  | line :: rest =>
      '(stop, st') <- grab_step st line ;;
      if stop then Ok st' else grab_loop rest st'
  end.

(** Lines 349-356. *)
Definition grab_result (st : grab_state) : list str :=
  if Nat.ltb 0 (length (g_buffered_lines st))
     && option_str_eqb (Some missing_rule_key) (g_current_rule_key st)
  then del_from (g_last_buffered_non_blank_non_comment_line st) (g_buffered_lines st)
  else [].

(** [grab_missing_rule_lines], on the lines of the file [from_file_name]. *)
Definition grab_missing_rule_lines (from_file : list str) : result (list str) :=
  st <- grab_loop from_file grab_init ;;
  Ok (grab_result st).

End Grab.

End Parser.

End Extractor.

Export Extractor.

(** A parser that is never called in the runs below. *)
Definition no_parser (_ : str) : result value := Raise YAMLError.

Definition greek_reference : list str :=
  [ln "---";
   ln "# document comment";
   ln "";
   ln "# about alpha";
   ln " - `a`: [t: `alpha`]";
   ln "";
   ln " # about beta";
   ln " - `b`:";
   ln "     - t: `beta`";
   ln "";
   ln " # about gamma";
   ln " - `c`: [t: `gamma`]";
   ln " - `d`: [t: `delta`]"].

Example grab_beta :
  grab_missing_rule_lines no_parser (lit "b") true greek_reference
  = Ok [ln ""; ln " # about beta"; ln " - `b`:"; ln "     - t: `beta`"].
Proof. reflexivity. Qed.

Example grab_delta :
  grab_missing_rule_lines no_parser (lit "d") true greek_reference
  = Ok [ln " - `d`: [t: `delta`]"].
Proof. reflexivity. Qed.

Example grab_absent :
  grab_missing_rule_lines no_parser (lit "z") true greek_reference = Ok [].
Proof. reflexivity. Qed.

Example grab_alpha_loses_comment :
  grab_missing_rule_lines no_parser (lit "a") true greek_reference
  = Ok [ln " - `a`: [t: `alpha`]"].
Proof. reflexivity. Qed.

(* ================================================================== *)
(** * Python dictionaries as association lists *)
(* ================================================================== *)

Module PyDict.

Section Dict.

Variables K V : Type.
Variable eqb : K -> K -> bool.

(** [d.get(k)] *)
Fixpoint dict_find (k : K) (d : list (K * V)) : option V :=
  match d with
  | [] => None
  | (k', v) :: r => if eqb k k' then Some v else dict_find k r
  end.

(** [k in d] *)
Definition dict_has (k : K) (d : list (K * V)) : bool :=
  match dict_find k d with Some _ => true | None => false end.

(** [d[k] = v]: a present key keeps its place, a new key goes last. *)
Fixpoint dict_set (k : K) (v : V) (d : list (K * V)) : list (K * V) :=
  match d with
  | [] => [(k, v)]
  | (k', v') :: r => if eqb k k' then (k', v) :: r else (k', v') :: dict_set k v r
  end.

(** [del d[k]] for a present key. *)
Fixpoint dict_del (k : K) (d : list (K * V)) : list (K * V) :=
  match d with
  | [] => []
  | (k', v') :: r => if eqb k k' then r else (k', v') :: dict_del k r
  end.

Lemma dict_del_length (k : K) (d : list (K * V)) :
  dict_has k d = true -> S (length (dict_del k d)) = length d.
Proof.
  unfold dict_has. induction d as [|[k' v'] r IH]; simpl; [discriminate|].
  destruct (eqb k k'); [reflexivity|]. intros H. simpl. now rewrite IH.
Qed.

End Dict.

End PyDict.

Export PyDict.

(* ================================================================== *)
(** * The rewrite pass (lines 536-714) *)
(* ================================================================== *)

Module Rewrite.

(** The local variables of the rewrite pass (lines 536-557), the map of
    missing rules it consumes, and what has been written to the temporary
    file.  [out_file] lists the written lines in order: writing the
    concatenation of some lines is writing these lines. *)
Record rw_state : Type := {
  indentation : option nat;
  past_start_of_document : bool;
  buffered_lines : list str;
  contains_audit_comments : bool;
  last_buffered_non_blank_non_comment_line : option nat;
  current_rule_key : option str;
  found_name_key : bool;
  buffered_line_containing_name_key : option nat;
  count_of_needs_translation_comments : nat;
  count_of_new_rule_comments : nat;
  count_of_contains_differences_comments : nat;
  count_of_rule_not_in_english_file_comments : nat;
  rule_missing_in_translated_file_after : list (option str * str);
  out_file : list str
}.

Definition set_indentation (x : option nat) (st : rw_state) : rw_state :=
  {| indentation := x;
     past_start_of_document := past_start_of_document st;
     buffered_lines := buffered_lines st;
     contains_audit_comments := contains_audit_comments st;
     last_buffered_non_blank_non_comment_line := last_buffered_non_blank_non_comment_line st;
     current_rule_key := current_rule_key st;
     found_name_key := found_name_key st;
     buffered_line_containing_name_key := buffered_line_containing_name_key st;
     count_of_needs_translation_comments := count_of_needs_translation_comments st;
     count_of_new_rule_comments := count_of_new_rule_comments st;
     count_of_contains_differences_comments := count_of_contains_differences_comments st;
     count_of_rule_not_in_english_file_comments := count_of_rule_not_in_english_file_comments st;
     rule_missing_in_translated_file_after := rule_missing_in_translated_file_after st;
     out_file := out_file st |}.

Definition set_past_start_of_document (x : bool) (st : rw_state) : rw_state :=
  {| indentation := indentation st;
     past_start_of_document := x;
     buffered_lines := buffered_lines st;
     contains_audit_comments := contains_audit_comments st;
     last_buffered_non_blank_non_comment_line := last_buffered_non_blank_non_comment_line st;
     current_rule_key := current_rule_key st;
     found_name_key := found_name_key st;
     buffered_line_containing_name_key := buffered_line_containing_name_key st;
     count_of_needs_translation_comments := count_of_needs_translation_comments st;
     count_of_new_rule_comments := count_of_new_rule_comments st;
     count_of_contains_differences_comments := count_of_contains_differences_comments st;
     count_of_rule_not_in_english_file_comments := count_of_rule_not_in_english_file_comments st;
     rule_missing_in_translated_file_after := rule_missing_in_translated_file_after st;
     out_file := out_file st |}.

Definition set_buffered_lines (x : list str) (st : rw_state) : rw_state :=
  {| indentation := indentation st;
     past_start_of_document := past_start_of_document st;
     buffered_lines := x;
     contains_audit_comments := contains_audit_comments st;
     last_buffered_non_blank_non_comment_line := last_buffered_non_blank_non_comment_line st;
     current_rule_key := current_rule_key st;
     found_name_key := found_name_key st;
     buffered_line_containing_name_key := buffered_line_containing_name_key st;
     count_of_needs_translation_comments := count_of_needs_translation_comments st;
     count_of_new_rule_comments := count_of_new_rule_comments st;
     count_of_contains_differences_comments := count_of_contains_differences_comments st;
     count_of_rule_not_in_english_file_comments := count_of_rule_not_in_english_file_comments st;
     rule_missing_in_translated_file_after := rule_missing_in_translated_file_after st;
     out_file := out_file st |}.

Definition set_contains_audit_comments (x : bool) (st : rw_state) : rw_state :=
  {| indentation := indentation st;
     past_start_of_document := past_start_of_document st;
     buffered_lines := buffered_lines st;
     contains_audit_comments := x;
     last_buffered_non_blank_non_comment_line := last_buffered_non_blank_non_comment_line st;
     current_rule_key := current_rule_key st;
     found_name_key := found_name_key st;
     buffered_line_containing_name_key := buffered_line_containing_name_key st;
     count_of_needs_translation_comments := count_of_needs_translation_comments st;
     count_of_new_rule_comments := count_of_new_rule_comments st;
     count_of_contains_differences_comments := count_of_contains_differences_comments st;
     count_of_rule_not_in_english_file_comments := count_of_rule_not_in_english_file_comments st;
     rule_missing_in_translated_file_after := rule_missing_in_translated_file_after st;
     out_file := out_file st |}.

Definition set_last_buffered_non_blank_non_comment_line (x : option nat) (st : rw_state) : rw_state :=
  {| indentation := indentation st;
     past_start_of_document := past_start_of_document st;
     buffered_lines := buffered_lines st;
     contains_audit_comments := contains_audit_comments st;
     last_buffered_non_blank_non_comment_line := x;
     current_rule_key := current_rule_key st;
     found_name_key := found_name_key st;
     buffered_line_containing_name_key := buffered_line_containing_name_key st;
     count_of_needs_translation_comments := count_of_needs_translation_comments st;
     count_of_new_rule_comments := count_of_new_rule_comments st;
     count_of_contains_differences_comments := count_of_contains_differences_comments st;
     count_of_rule_not_in_english_file_comments := count_of_rule_not_in_english_file_comments st;
     rule_missing_in_translated_file_after := rule_missing_in_translated_file_after st;
     out_file := out_file st |}.

Definition set_current_rule_key (x : option str) (st : rw_state) : rw_state :=
  {| indentation := indentation st;
     past_start_of_document := past_start_of_document st;
     buffered_lines := buffered_lines st;
     contains_audit_comments := contains_audit_comments st;
     last_buffered_non_blank_non_comment_line := last_buffered_non_blank_non_comment_line st;
     current_rule_key := x;
     found_name_key := found_name_key st;
     buffered_line_containing_name_key := buffered_line_containing_name_key st;
     count_of_needs_translation_comments := count_of_needs_translation_comments st;
     count_of_new_rule_comments := count_of_new_rule_comments st;
     count_of_contains_differences_comments := count_of_contains_differences_comments st;
     count_of_rule_not_in_english_file_comments := count_of_rule_not_in_english_file_comments st;
     rule_missing_in_translated_file_after := rule_missing_in_translated_file_after st;
     out_file := out_file st |}.

Definition set_found_name_key (x : bool) (st : rw_state) : rw_state :=
  {| indentation := indentation st;
     past_start_of_document := past_start_of_document st;
     buffered_lines := buffered_lines st;
     contains_audit_comments := contains_audit_comments st;
     last_buffered_non_blank_non_comment_line := last_buffered_non_blank_non_comment_line st;
     current_rule_key := current_rule_key st;
     found_name_key := x;
     buffered_line_containing_name_key := buffered_line_containing_name_key st;
     count_of_needs_translation_comments := count_of_needs_translation_comments st;
     count_of_new_rule_comments := count_of_new_rule_comments st;
     count_of_contains_differences_comments := count_of_contains_differences_comments st;
     count_of_rule_not_in_english_file_comments := count_of_rule_not_in_english_file_comments st;
     rule_missing_in_translated_file_after := rule_missing_in_translated_file_after st;
     out_file := out_file st |}.

Definition set_buffered_line_containing_name_key (x : option nat) (st : rw_state) : rw_state :=
  {| indentation := indentation st;
     past_start_of_document := past_start_of_document st;
     buffered_lines := buffered_lines st;
     contains_audit_comments := contains_audit_comments st;
     last_buffered_non_blank_non_comment_line := last_buffered_non_blank_non_comment_line st;
     current_rule_key := current_rule_key st;
     found_name_key := found_name_key st;
     buffered_line_containing_name_key := x;
     count_of_needs_translation_comments := count_of_needs_translation_comments st;
     count_of_new_rule_comments := count_of_new_rule_comments st;
     count_of_contains_differences_comments := count_of_contains_differences_comments st;
     count_of_rule_not_in_english_file_comments := count_of_rule_not_in_english_file_comments st;
     rule_missing_in_translated_file_after := rule_missing_in_translated_file_after st;
     out_file := out_file st |}.

Definition set_count_of_needs_translation_comments (x : nat) (st : rw_state) : rw_state :=
  {| indentation := indentation st;
     past_start_of_document := past_start_of_document st;
     buffered_lines := buffered_lines st;
     contains_audit_comments := contains_audit_comments st;
     last_buffered_non_blank_non_comment_line := last_buffered_non_blank_non_comment_line st;
     current_rule_key := current_rule_key st;
     found_name_key := found_name_key st;
     buffered_line_containing_name_key := buffered_line_containing_name_key st;
     count_of_needs_translation_comments := x;
     count_of_new_rule_comments := count_of_new_rule_comments st;
     count_of_contains_differences_comments := count_of_contains_differences_comments st;
     count_of_rule_not_in_english_file_comments := count_of_rule_not_in_english_file_comments st;
     rule_missing_in_translated_file_after := rule_missing_in_translated_file_after st;
     out_file := out_file st |}.

Definition set_count_of_new_rule_comments (x : nat) (st : rw_state) : rw_state :=
  {| indentation := indentation st;
     past_start_of_document := past_start_of_document st;
     buffered_lines := buffered_lines st;
     contains_audit_comments := contains_audit_comments st;
     last_buffered_non_blank_non_comment_line := last_buffered_non_blank_non_comment_line st;
     current_rule_key := current_rule_key st;
     found_name_key := found_name_key st;
     buffered_line_containing_name_key := buffered_line_containing_name_key st;
     count_of_needs_translation_comments := count_of_needs_translation_comments st;
     count_of_new_rule_comments := x;
     count_of_contains_differences_comments := count_of_contains_differences_comments st;
     count_of_rule_not_in_english_file_comments := count_of_rule_not_in_english_file_comments st;
     rule_missing_in_translated_file_after := rule_missing_in_translated_file_after st;
     out_file := out_file st |}.

Definition set_count_of_contains_differences_comments (x : nat) (st : rw_state) : rw_state :=
  {| indentation := indentation st;
     past_start_of_document := past_start_of_document st;
     buffered_lines := buffered_lines st;
     contains_audit_comments := contains_audit_comments st;
     last_buffered_non_blank_non_comment_line := last_buffered_non_blank_non_comment_line st;
     current_rule_key := current_rule_key st;
     found_name_key := found_name_key st;
     buffered_line_containing_name_key := buffered_line_containing_name_key st;
     count_of_needs_translation_comments := count_of_needs_translation_comments st;
     count_of_new_rule_comments := count_of_new_rule_comments st;
     count_of_contains_differences_comments := x;
     count_of_rule_not_in_english_file_comments := count_of_rule_not_in_english_file_comments st;
     rule_missing_in_translated_file_after := rule_missing_in_translated_file_after st;
     out_file := out_file st |}.

Definition set_count_of_rule_not_in_english_file_comments (x : nat) (st : rw_state) : rw_state :=
  {| indentation := indentation st;
     past_start_of_document := past_start_of_document st;
     buffered_lines := buffered_lines st;
     contains_audit_comments := contains_audit_comments st;
     last_buffered_non_blank_non_comment_line := last_buffered_non_blank_non_comment_line st;
     current_rule_key := current_rule_key st;
     found_name_key := found_name_key st;
     buffered_line_containing_name_key := buffered_line_containing_name_key st;
     count_of_needs_translation_comments := count_of_needs_translation_comments st;
     count_of_new_rule_comments := count_of_new_rule_comments st;
     count_of_contains_differences_comments := count_of_contains_differences_comments st;
     count_of_rule_not_in_english_file_comments := x;
     rule_missing_in_translated_file_after := rule_missing_in_translated_file_after st;
     out_file := out_file st |}.

Definition set_rule_missing_in_translated_file_after (x : list (option str * str)) (st : rw_state) : rw_state :=
  {| indentation := indentation st;
     past_start_of_document := past_start_of_document st;
     buffered_lines := buffered_lines st;
     contains_audit_comments := contains_audit_comments st;
     last_buffered_non_blank_non_comment_line := last_buffered_non_blank_non_comment_line st;
     current_rule_key := current_rule_key st;
     found_name_key := found_name_key st;
     buffered_line_containing_name_key := buffered_line_containing_name_key st;
     count_of_needs_translation_comments := count_of_needs_translation_comments st;
     count_of_new_rule_comments := count_of_new_rule_comments st;
     count_of_contains_differences_comments := count_of_contains_differences_comments st;
     count_of_rule_not_in_english_file_comments := count_of_rule_not_in_english_file_comments st;
     rule_missing_in_translated_file_after := x;
     out_file := out_file st |}.

Definition set_out_file (x : list str) (st : rw_state) : rw_state :=
  {| indentation := indentation st;
     past_start_of_document := past_start_of_document st;
     buffered_lines := buffered_lines st;
     contains_audit_comments := contains_audit_comments st;
     last_buffered_non_blank_non_comment_line := last_buffered_non_blank_non_comment_line st;
     current_rule_key := current_rule_key st;
     found_name_key := found_name_key st;
     buffered_line_containing_name_key := buffered_line_containing_name_key st;
     count_of_needs_translation_comments := count_of_needs_translation_comments st;
     count_of_new_rule_comments := count_of_new_rule_comments st;
     count_of_contains_differences_comments := count_of_contains_differences_comments st;
     count_of_rule_not_in_english_file_comments := count_of_rule_not_in_english_file_comments st;
     rule_missing_in_translated_file_after := rule_missing_in_translated_file_after st;
     out_file := x |}.

(** How a pass ends: normally, or by an exception; the file written so far
    stays written. *)
Inductive run : Type :=
| Done (st : rw_state)
| Failed (st : rw_state) (e : exn).

Definition and_then (r : run) (f : rw_state -> run) : run :=
  match r with
  | Done st => f st
  | Failed st e => Failed st e
  end.

Definition final_state (r : run) : rw_state :=
  match r with Done st => st | Failed st _ => st end.

(** [out_file.write(...)] and [out_file.writelines(...)]: [out_file] holds
    the strings written, in order.  The text of the file is their
    concatenation. *)
Definition write (lines : list str) (st : rw_state) : rw_state :=
  set_out_file (out_file st ++ lines) st.

(** The lines a file iterator yields on a text: each line goes up to and
    includes its newline; a last line need not have one.  [current] is the
    line begun so far. *)
Fixpoint lines_from (current text : str) : list str :=
  match text with
  | [] => match current with [] => [] | _ :: _ => [current] end
  | c :: r =>
      if N.eqb c 10%N then (current ++ [c]) :: lines_from [] r
      else lines_from (current ++ [c]) r
  end.

Definition file_lines (text : str) : list str := lines_from [] text.

(** The lines of the file that the pass has written. *)
Definition written_lines (st : rw_state) : list str :=
  file_lines (concat (out_file st)).

(** The blank lines at the head of the buffer, and the rest of it. *)
Fixpoint leading_blank_lines (l : list str) : list str * list str :=
  match l with
  | x :: r =>
      if line_is_blank x
      then let (blank, rest) := leading_blank_lines r in (x :: blank, rest)
      else ([], l)
  | [] => ([], [])
  end.

(** [write_any_leading_blank_lines] (lines 127-131) *)
Definition write_any_leading_blank_lines (st : rw_state) : rw_state :=
  let (blank, rest) := leading_blank_lines (buffered_lines st) in
  set_buffered_lines rest (write blank st).

(** The four annotations (lines 616, 661, 667, 673). *)
Definition audit_prefix (indentation : nat) : str :=
  repeat_char 32%N indentation ++ lit "# [AUDIT] ".

Definition new_rule_comment (indentation : nat) (rule_key : str) : str :=
  audit_prefix indentation ++ lit "NEW RULE '" ++ rule_key
  ++ lit "' THAT NEEDS TRANSLATION" ++ [10%N].

Definition needs_translation_comment (indentation : nat) (rule_key : str) (n : nat) : str :=
  audit_prefix indentation ++ lit "RULE '" ++ rule_key
  ++ lit "' NEEDS TRANSLATION OF " ++ dec_nat n ++ lit " KEYS" ++ [10%N].

Definition not_in_english_comment (indentation : nat) (rule_key : str) : str :=
  audit_prefix indentation ++ lit "RULE '" ++ rule_key
  ++ lit "' RULE NOT IN ENGLISH FILE" ++ [10%N].

Definition has_differences_comment (indentation : nat) (rule_key : str) : str :=
  audit_prefix indentation ++ lit "RULE '" ++ rule_key
  ++ lit "' HAS DIFFERENCES OTHER THAN TRANSLATION" ++ [10%N].

Definition rw_init (missing : list (option str * str)) : rw_state := {|
  indentation := None;
  past_start_of_document := false;
  buffered_lines := [];
  contains_audit_comments := false;
  last_buffered_non_blank_non_comment_line := None;
  current_rule_key := None;
  found_name_key := false;
  buffered_line_containing_name_key := None;
  count_of_needs_translation_comments := 0;
  count_of_new_rule_comments := 0;
  count_of_contains_differences_comments := 0;
  count_of_rule_not_in_english_file_comments := 0;
  rule_missing_in_translated_file_after := missing;
  out_file := []
|}.

Section Pass.

Variable safe_load : str -> result value.
Variable unicode_yaml_file : bool.
(** The lines of the file [args.english_rules]. *)
Variable english_lines : list str.
Variable rules_with_untranslated_keys : list (str * nat).
Variable rules_extra_in_translated_file : list str.
Variable rules_with_differences : list str.

(** The loop over [missing_lines] (lines 610-620). *)
Fixpoint write_missing_lines (missing_rule_key : str) (missing_lines : list str)
  (comment_added : bool) (st : rw_state) : run :=
  match missing_lines with
  | [] => Done st
  | missing_line :: rest =>
      if negb comment_added
         && (unicode_yaml_file || line_starts_rule_name missing_line)
      then
        let st := if is_none (current_rule_key st) then write [[10%N]] st else st in
        match indentation st with
        | None => Failed st TypeError
        | Some n =>
            let st := write [new_rule_comment n missing_rule_key] st in
            let st := set_count_of_new_rule_comments
                        (S (count_of_new_rule_comments st)) st in
            write_missing_lines missing_rule_key rest true (write [missing_line] st)
        end
      else write_missing_lines missing_rule_key rest comment_added
             (write [missing_line] st)
  end.

(** The [while] loop of lines 599-622, and of lines 687-710.  Each turn
    deletes one key of the map, so the size of the map bounds the number
    of turns: [fuel] is that size. *)
Fixpoint insert_missing_rules (fuel : nat) (st : rw_state) : run :=
  match dict_find option_str_eqb (current_rule_key st)
          (rule_missing_in_translated_file_after st) with
  | None => Done st
  | Some missing_rule_key =>
      match fuel with
      | 0 => Done st
      | S fuel =>
          match grab_missing_rule_lines safe_load missing_rule_key
                  unicode_yaml_file english_lines with
          | Raise e => Failed st e
          | Ok missing_lines =>
              and_then (write_missing_lines missing_rule_key missing_lines false st)
                (fun st' =>
                   insert_missing_rules fuel
                     (set_current_rule_key (Some missing_rule_key)
                        (set_rule_missing_in_translated_file_after
                           (dict_del option_str_eqb (current_rule_key st')
                              (rule_missing_in_translated_file_after st'))
                           st')))
          end
      end
  end.

Definition follow_insertion_chain (st : rw_state) : run :=
  insert_missing_rules (length (rule_missing_in_translated_file_after st)) st.

(** Lines 563-571. *)
Definition rw_document_start (st : rw_state) (line : str) : rw_state :=
  if negb (past_start_of_document st) then
    if negb (line_is_a_normal_comment line) && negb (line_is_start_of_document line)
    then set_buffered_lines [] (set_past_start_of_document true
                                  (write (buffered_lines st) st))
    else set_buffered_lines (buffered_lines st ++ [line]) st
  else st.

(** Lines 582-597: the lines of the previous rule leave the buffer. *)
Definition flush_previous_rule (st : rw_state) : rw_state :=
  if Nat.ltb 0 (length (buffered_lines st))
     && is_some (last_buffered_non_blank_non_comment_line st)
  then
    set_last_buffered_non_blank_non_comment_line None
      (set_buffered_lines
         (del_upto (last_buffered_non_blank_non_comment_line st) (buffered_lines st))
         (write (slice_upto (last_buffered_non_blank_non_comment_line st)
                   (buffered_lines st)) st))
  else st.

(** Lines 575-626. *)
Definition rw_boundary (st : rw_state) (line : str) : run :=
  if starts_sequence_item line then
    let st := if is_none (indentation st)
              then set_indentation (Some (indent_of line)) st else st in
    if option_nat_eqb (Some (indent_of line)) (indentation st) then
      and_then (follow_insertion_chain (flush_previous_rule st))
        (fun st =>
           Done (set_buffered_line_containing_name_key None
                   (set_found_name_key false
                      (set_current_rule_key None st))))
    else Done st
  else Done st.

(** Lines 628-630. *)
Definition rw_buffer (st : rw_state) (line : str) : rw_state :=
  let st := set_buffered_lines (buffered_lines st ++ [line]) st in
  if negb (line_is_blank line) && negb (line_is_a_normal_comment line)
  then set_last_buffered_non_blank_non_comment_line
         (Some (length (buffered_lines st))) st
  else st.

(** Lines 646-675: what is written once the key of the rule is known. *)
Definition rw_annotate (n : nat) (st : rw_state) : rw_state :=
  let st :=
    match buffered_line_containing_name_key st with
    | Some i =>
        if Nat.ltb 1 i
        then set_buffered_lines (skipn (i - 1) (buffered_lines st))
               (write (firstn (i - 1) (buffered_lines st)) st)
        else st
    | None => st
    end in
  let st := set_buffered_line_containing_name_key None st in
  let st :=
    match current_rule_key st with
    | Some k =>
        match dict_find str_eqb k rules_with_untranslated_keys with
        | Some count =>
            let st := write_any_leading_blank_lines st in
            set_count_of_needs_translation_comments
              (S (count_of_needs_translation_comments st))
              (write [needs_translation_comment n k count] st)
        | None => st
        end
    | None => st
    end in
  let st :=
    match current_rule_key st with
    | Some k =>
        if mem k rules_extra_in_translated_file then
          let st := write_any_leading_blank_lines st in
          set_count_of_rule_not_in_english_file_comments
            (S (count_of_rule_not_in_english_file_comments st))
            (write [not_in_english_comment n k] st)
        else st
    | None => st
    end in
  match current_rule_key st with
  | Some k =>
      if mem k rules_with_differences then
        let st := write_any_leading_blank_lines st in
        set_count_of_contains_differences_comments
          (S (count_of_contains_differences_comments st))
          (write [has_differences_comment n k] st)
      else st
  | None => st
  end.

(** Lines 632-675. *)
Definition rw_detect (st : rw_state) (line : str) : run :=
  match indentation st with
  | Some n =>
      if is_none (current_rule_key st) then
        let '(st, just_found_rule_key) :=
          if unicode_yaml_file
          then (set_current_rule_key (get_key_from_line line) st, true)
          else if line_has_name_key line
               then (set_buffered_line_containing_name_key
                       (Some (length (buffered_lines st)))
                       (set_found_name_key true st), false)
               else (st, false) in
        if found_name_key st && line_has_tag_key line then
          match get_rule_key_from_buffered_lines safe_load (buffered_lines st) with
          | Raise e => Failed st e
          | Ok k => Done (rw_annotate n (set_current_rule_key k st))
          end
        else if just_found_rule_key then Done (rw_annotate n st)
        else Done st
      else Done st
  | None => Done st
  end.

(** The body of the loop over the translated file (lines 559-675). *)
Definition rw_step (st : rw_state) (line : str) : run :=
  if line_is_a_translation_audit_comment line
  then Done (set_contains_audit_comments true st)
  else
    let st := rw_document_start st line in
    if past_start_of_document st
       && negb (line_is_a_translation_audit_comment line)
    then
      and_then (rw_boundary st line)
        (fun st => rw_detect (rw_buffer st line) line)
    else Done st.

Fixpoint rw_loop (lines : list str) (st : rw_state) : run :=
  match lines with
  | [] => Done st
  | line :: rest => and_then (rw_step st line) (rw_loop rest)
  end.

(** After the last line (lines 677-714). *)
Definition rw_end_of_file (st : rw_state) : run :=
  and_then
    (if dict_has option_str_eqb (current_rule_key st)
          (rule_missing_in_translated_file_after st)
     then
       follow_insertion_chain
         (set_last_buffered_non_blank_non_comment_line None
            (set_buffered_lines
               (del_upto (last_buffered_non_blank_non_comment_line st)
                  (buffered_lines st))
               (write (slice_upto (last_buffered_non_blank_non_comment_line st)
                         (buffered_lines st)) st)))
     else Done st)
    (fun st =>
       Done (if Nat.ltb 0 (length (buffered_lines st))
             then write (buffered_lines st) st else st)).

(** The whole pass over the lines of the translated file. *)
Definition rewrite_pass (missing : list (option str * str))
  (translated_lines : list str) : run :=
  and_then (rw_loop translated_lines (rw_init missing)) rw_end_of_file.

End Pass.

End Rewrite.

Export Rewrite.

(* ================================================================== *)
(** * The script (lines 359-754) *)
(* ================================================================== *)

Module Script.

(** ** Printing *)

(** A computation that prints: the printed lines, and how it ended.  What
    was printed before an exception stays printed.  A printed line is a
    [msg]: the warnings of the diff are printed with their values. *)
Definition printing (A : Type) : Type := (list msg * result A)%type.

Definition pure {A : Type} (a : A) : printing A := ([], Ok a).

Definition print (s : str) : printing unit := ([[Txt s]], Ok tt).

Definition print_all (lines : list msg) : printing unit := (lines, Ok tt).

Definition lift {A : Type} (r : result A) : printing A := ([], r).

Definition then_ {A B : Type} (m : printing A) (f : A -> printing B) : printing B :=
  match m with
  | (out, Ok a) => let (out', r) := f a in (out ++ out', r)
  | (out, Raise e) => (out, Raise e)
  end.

Declare Scope print_scope.
Delimit Scope print_scope with print.
Notation "x <-- c ;; k" := (then_ c (fun x => k))
  (at level 61, c at next level, right associativity) : print_scope.
Notation "' p <-- c ;; k" := (then_ c (fun x => let p := x in k))
  (at level 61, p pattern, c at next level, right associativity) : print_scope.
Notation "c >>> k" := (then_ c (fun _ => k))
  (at level 61, right associativity) : print_scope.

Local Open Scope print_scope.

(** ** Arguments and files *)

Inductive mode_choice : Type := mode_warnings | mode_new_version.

Inductive unicode_choice : Type := unicode_true | unicode_false | unicode_auto.

Record args : Type := {
  english_rules : str;
  translated_rules : str;
  mode : mode_choice;
  unicode : unicode_choice
}.

(** The files on disk: a path and the lines of the file. *)
Definition files : Type := list (str * list str).

Definition path_exists (p : str) (fs : files) : bool := dict_has str_eqb p fs.

(** [os.rename(src, dst)] *)
Definition os_rename (src dst : str) (fs : files) : result files :=
  match dict_find str_eqb src fs with
  | Some content => Ok (dict_set str_eqb dst content (dict_del str_eqb src fs))
  | None => Raise FileNotFoundError
  end.

(** [os.remove(p)] *)
Definition os_remove (p : str) (fs : files) : result files :=
  if path_exists p fs then Ok (dict_del str_eqb p fs) else Raise FileNotFoundError.

(** What the script finds around it: the files, the name that [tempfile]
    picks for a new file, and whether file descriptor 1 is open. *)
Record world : Type := {
  disk : files;
  temp_file_name : str;
  stdout_is_open : bool
}.

(** [os.path.exists(b)] for a boolean [b]: a boolean is an integer, and an
    integer is taken as a file descriptor, 1 for [True] and 0 for
    [False].  Descriptor 0 is taken to be open. *)
Definition os_path_exists_bool (b : bool) (w : world) : bool :=
  if b then stdout_is_open w else true.

(** One character of [re.search(r'unicode', _, re.IGNORECASE)]. *)
Definition matches_ignoring_case (p c : char) : bool :=
  (N.eqb c p || N.eqb c (p - 32)
   || (N.eqb p 105 && (N.eqb c 304 || N.eqb c 305)))%N.

Fixpoint starts_ignoring_case (p s : str) : bool :=
  match p, s with
  | [], _ => true
  | x :: p', y :: s' => matches_ignoring_case x y && starts_ignoring_case p' s'
  | _ :: _, [] => false
  end.

Fixpoint search_ignoring_case (p s : str) : bool :=
  starts_ignoring_case p s ||
  match s with
  | [] => false
  | _ :: r => search_ignoring_case p r
  end.

(** Lines 396-403. *)
Definition is_unicode_yaml_file (a : args) : bool :=
  match unicode a with
  | unicode_true => true
  | unicode_false => false
  | unicode_auto => search_ignoring_case (lit "unicode") (translated_rules a)
  end.

(** [for rule in rules]: the elements of a sequence, the keys of a
    mapping, the characters of a string. *)
Definition py_iter (v : value) : result (list value) :=
  match v with
  | VList l => Ok l
  | VDict d => Ok (map (fun kv => VStr (fst kv)) d)
  | VStr s => Ok (map (fun c => VStr [c]) s)
  | _ => Raise TypeError
  end.

(** ** The registries (lines 409-464) *)

(** The key of a rule, or [None] for a rule that is passed over. *)
Definition derive_key (unicode_yaml_file : bool) (rule : value) : result (option str) :=
  if unicode_yaml_file then
    match single_key rule with
    | Ok k => Ok (Some k)
    | Raise e => Raise e
    end
  else composite_key rule.

Record english_registry : Type := {
  english_dict : list (str * value);
  english_dict_occurs_after : list (str * option str);
  previous_rule_key : option str;
  duplicate_keys_in_english_file : bool
}.

Definition duplicate_warning (rule_key : str) (file : String.string) : str :=
  lit "Warning: Duplicate key " ++ format_rule_key_for_display rule_key
  ++ lit " in " ++ lit file ++ lit " file.".

Fixpoint register_english (unicode_yaml_file : bool) (rules : list value)
  (r : english_registry) : printing english_registry :=
  match rules with
  | [] => pure r
  | rule :: rest =>
      key <-- lift (derive_key unicode_yaml_file rule) ;;
      match key with
      | Some rule_key =>
          if dict_has str_eqb rule_key (english_dict r) then
            print (duplicate_warning rule_key "english") >>>
            register_english unicode_yaml_file rest
              {| english_dict := english_dict r;
                 english_dict_occurs_after := english_dict_occurs_after r;
                 previous_rule_key := Some rule_key;
                 duplicate_keys_in_english_file := true |}
          else
            register_english unicode_yaml_file rest
              {| english_dict := dict_set str_eqb rule_key rule (english_dict r);
                 english_dict_occurs_after :=
                   dict_set str_eqb rule_key (previous_rule_key r)
                     (english_dict_occurs_after r);
                 previous_rule_key := Some rule_key;
                 duplicate_keys_in_english_file := duplicate_keys_in_english_file r |}
      | None => register_english unicode_yaml_file rest r
      end
  end.

Fixpoint register_translated (unicode_yaml_file : bool) (rules : list value)
  (translated_dict : list (str * value)) (duplicate_keys_in_translated_file : bool)
  : printing (list (str * value) * bool) :=
  match rules with
  | [] => pure (translated_dict, duplicate_keys_in_translated_file)
  | rule :: rest =>
      key <-- lift (derive_key unicode_yaml_file rule) ;;
      match key with
      | Some rule_key =>
          if dict_has str_eqb rule_key translated_dict then
            print (duplicate_warning rule_key "translated") >>>
            register_translated unicode_yaml_file rest translated_dict true
          else
            register_translated unicode_yaml_file rest
              (dict_set str_eqb rule_key rule translated_dict)
              duplicate_keys_in_translated_file
      | None =>
          register_translated unicode_yaml_file rest translated_dict
            duplicate_keys_in_translated_file
      end
  end.

(** ** The reports (lines 466-513) *)

(** Lines 472-479. *)
Fixpoint report_untranslated (items : list (str * value))
  (rules_with_untranslated_keys : list (str * nat)) : printing (list (str * nat)) :=
  match items with
  | [] => pure rules_with_untranslated_keys
  | (rule_key, rule) :: rest =>
      if is_dict rule && Nat.ltb 0 (count_untranslated rule) then
        print (lit "Rule " ++ format_rule_key_for_display rule_key
               ++ lit " still contains " ++ dec_nat (count_untranslated rule)
               ++ lit " key(s) needing translating.") >>>
        report_untranslated rest
          (dict_set str_eqb rule_key (count_untranslated rule)
             rules_with_untranslated_keys)
      else report_untranslated rest rules_with_untranslated_keys
  end.

(** Lines 482-487. *)
Fixpoint report_missing (english_keys : list str)
  (occurs_after : list (str * option str)) (translated_dict : list (str * value))
  (missing : list (option str * str)) : printing (list (option str * str)) :=
  match english_keys with
  | [] => pure missing
  | rule_key :: rest =>
      if negb (dict_has str_eqb rule_key translated_dict) then
        match dict_find str_eqb rule_key occurs_after with
        | Some previous =>
            print (lit "Rule " ++ format_rule_key_for_display rule_key
                   ++ lit " is missing in the translated file.") >>>
            report_missing rest occurs_after translated_dict
              (dict_set option_str_eqb previous rule_key missing)
        | None => lift (Raise KeyError)
        end
      else report_missing rest occurs_after translated_dict missing
  end.

(** Lines 490-495. *)
Fixpoint report_extra (translated_keys : list str) (english_dict : list (str * value))
  (extra : list str) : printing (list str) :=
  match translated_keys with
  | [] => pure extra
  | rule_key :: rest =>
      if negb (dict_has str_eqb rule_key english_dict) then
        print (lit "Warning: Rule " ++ format_rule_key_for_display rule_key
               ++ lit " in translated file is not in the English file.") >>>
        report_extra rest english_dict
          (if mem rule_key extra then extra else extra ++ [rule_key])
      else report_extra rest english_dict extra
  end.

(** Lines 498-513. *)
Fixpoint report_differences (items : list (str * value))
  (translated_dict : list (str * value)) (differences : list str)
  : printing (list str) :=
  match items with
  | [] => pure differences
  | (rule_key, english_rule) :: rest =>
      match dict_find str_eqb rule_key translated_dict with
      | Some translated_rule =>
          '(warnings, same_flag) <--
            lift (dictionaries_are_the_same_besides_translations
                    english_rule translated_rule rule_key) ;;
          if negb same_flag then
            print (lit "Warning: Rule " ++ format_rule_key_for_display rule_key
                   ++ lit " contains differences other than ones in t, T, OC, oc, CT, ct keys:") >>>
            print_all (map (fun w => Txt (lit "  - ") :: w) warnings) >>>
            report_differences rest translated_dict
              (if mem rule_key differences then differences
               else differences ++ [rule_key])
          else report_differences rest translated_dict differences
      | None => report_differences rest translated_dict differences
      end
  end.

(** What the first part of [main] hands to the rewrite pass. *)
Record verdicts : Type := {
  rules_with_untranslated_keys : list (str * nat);
  rule_missing_after : list (option str * str);
  rules_extra_in_translated_file : list str;
  rules_with_differences : list str
}.

(** Lines 466-519: the four reports, then the stop on duplicate keys. *)
Definition report_and_stop (reg : english_registry)
  (translated_dict : list (str * value)) (duplicate_keys_in_translated_file : bool)
  : printing verdicts :=
  untranslated <-- report_untranslated translated_dict [] ;;
  missing <-- report_missing (keys (english_dict reg)) (english_dict_occurs_after reg)
                translated_dict [] ;;
  extra <-- report_extra (keys translated_dict) (english_dict reg) [] ;;
  differences <-- report_differences (english_dict reg) translated_dict [] ;;
  if duplicate_keys_in_translated_file || duplicate_keys_in_english_file reg then
    print ([10%N] ++ lit "Stopping: Duplicate keys in the English or translated file may cause incorrect results.") >>>
    lift (Raise (SystemExit 1))
  else
    pure {| rules_with_untranslated_keys := untranslated;
            rule_missing_after := missing;
            rules_extra_in_translated_file := extra;
            rules_with_differences := differences |}.

(** Lines 405-519, on the two parsed files. *)
Definition audit (unicode_yaml_file : bool) (english translated : value)
  : printing verdicts :=
  n <-- lift (py_len english) ;;
  print ([10%N] ++ lit "Processing " ++ dec_nat n ++ lit " items in "
         ++ (if unicode_yaml_file then lit "Unicode" else lit "Non-Unicode")
         ++ lit " mode." ++ [10%N]) >>>
  english_list <-- lift (py_iter english) ;;
  reg <-- register_english unicode_yaml_file english_list
            {| english_dict := []; english_dict_occurs_after := [];
               previous_rule_key := None; duplicate_keys_in_english_file := false |} ;;
  translated_list <-- lift (py_iter translated) ;;
  '(translated_dict, duplicate_keys_in_translated_file) <--
    register_translated unicode_yaml_file translated_list [] false ;;
  report_and_stop reg translated_dict duplicate_keys_in_translated_file.

(** ** Back-up and replacement (lines 262-286, 719-754) *)

(** [f"{filename}-{counter}.bak"] *)
Definition numbered_backup (filename : str) (counter : nat) : str :=
  filename ++ lit "-" ++ dec_nat counter ++ lit ".bak".

(** The [while] loop of [backup_file] (lines 279-281).  A name that exists
    is a file of the disk, and the names tried are pairwise distinct, so
    the number of files bounds the number of turns: [fuel] is that number. *)
Fixpoint backup_search (fuel : nat) (fs : files) (filename backup_filename : str)
  (counter : nat) : str :=
  if path_exists backup_filename fs then
    match fuel with
    | 0 => backup_filename
    | S fuel =>
        backup_search fuel fs filename (numbered_backup filename counter) (S counter)
    end
  else backup_filename.

(** [backup_file] (lines 272-286): the back-up name and the disk after the
    renaming. *)
Definition backup_file (filename : str) (fs : files) : result (str * files) :=
  let backup_filename :=
    backup_search (length fs) fs filename (filename ++ lit ".bak") 2 in
  match os_rename filename backup_filename fs with
  | Ok fs' => Ok (backup_filename, fs')
  | Raise e => Raise e
  end.

(** How a run of the script ends: what it printed, how it exited ([Ok]
    for exit status 0, [Raise] for an uncaught exception, [SystemExit]
    included), and the disk it leaves. *)
Record outcome : Type := {
  stdout : list msg;
  status : result unit;
  disk_after : files
}.

(** Lines 733-748. *)
Definition count_report (label : str) (n : nat) : list msg :=
  if Nat.ltb 0 n then [[Txt (lit "  " ++ dec_nat n ++ label)]] else [].

Section Main.

Variable safe_load : str -> result value.

(** [io.open(path, 'r')] and the lines read from it. *)
Definition open_file (path : str) (fs : files) : result (list str) :=
  match dict_find str_eqb path fs with
  | Some lines => Ok lines
  | None => Raise FileNotFoundError
  end.

(** [yaml.safe_load(file.read().replace(TAB, SPACE))] *)
Definition parse_rules (lines : list str) : result value :=
  safe_load (replace_char 9%N 32%N (concat lines)).

(** Lines 719-754, after the pass has ended in the state [st]. *)
Definition replace_or_discard (a : args) (w : world) (fs : files) (st : rw_state)
  : outcome :=
  let total_new_comments_added :=
    count_of_contains_differences_comments st
    + count_of_rule_not_in_english_file_comments st
    + count_of_needs_translation_comments st
    + count_of_new_rule_comments st in
  if contains_audit_comments st || Nat.ltb 0 total_new_comments_added then
    match backup_file (translated_rules a) fs with
    | Raise e => {| stdout := []; status := Raise e; disk_after := fs |}
    | Ok (backup_filename, fs1) =>
        match os_rename (temp_file_name w) (translated_rules a) fs1 with
        | Raise e => {| stdout := []; status := Raise e; disk_after := fs1 |}
        | Ok fs2 =>
            {| stdout :=
                 [[Txt (lit "New version of " ++ translated_rules a
                        ++ lit " created. Original backed up to "
                        ++ backup_filename ++ lit ".")]]
                 ++ count_report (lit " new rule(s) that need translation.")
                      (count_of_new_rule_comments st)
                 ++ count_report (lit " rule(s) that need translation of keys.")
                      (count_of_needs_translation_comments st)
                 ++ count_report (lit " rule(s) not in English file.")
                      (count_of_rule_not_in_english_file_comments st)
                 ++ count_report (lit " rule(s) with differences other than translation.")
                      (count_of_contains_differences_comments st);
               status := Ok tt;
               disk_after := fs2 |}
        end
    end
  else
    let no_changes :=
      [[Txt (lit "No changes needed to " ++ translated_rules a ++ lit ".")]] in
    let is_there :=
      match temp_file_name w with
      | [] => false
      | _ => os_path_exists_bool
               (negb (str_eqb (temp_file_name w) (translated_rules a))) w
      end in
    if is_there then
      match os_remove (temp_file_name w) fs with
      | Ok fs1 => {| stdout := no_changes; status := Ok tt; disk_after := fs1 |}
      | Raise e => {| stdout := no_changes; status := Raise e; disk_after := fs |}
      end
    else {| stdout := no_changes; status := Ok tt; disk_after := fs |}.

(** Lines 521-754: the [new_version] mode. *)
Definition create_new_version (a : args) (w : world) (english_lines translated_lines : list str)
  (v : verdicts) : outcome :=
  let announced :=
    [[Txt ([10%N] ++ lit "Creating new version of translated file with comments where translation is needed.")];
     [Txt (lit "Missing rules:")]]
    ++ map (fun kv : option str * str =>
              [Txt (lit "  " ++ snd kv ++ lit " is missing after "
                    ++ match fst kv with Some k => k | None => lit "None" end)])
         (rule_missing_after v)
    ++ [[Txt []]] in
  let with_temp := dict_set str_eqb (temp_file_name w) [] (disk w) in
  match rewrite_pass safe_load (is_unicode_yaml_file a) english_lines
          (rules_with_untranslated_keys v) (rules_extra_in_translated_file v)
          (rules_with_differences v) (rule_missing_after v) translated_lines with
  | Failed st e =>
      {| stdout := announced; status := Raise e;
         disk_after := dict_set str_eqb (temp_file_name w) (written_lines st) with_temp |}
  | Done st =>
      let o := replace_or_discard a w
                 (dict_set str_eqb (temp_file_name w) (written_lines st) with_temp) st in
      {| stdout := announced ++ stdout o; status := status o;
         disk_after := disk_after o |}
  end.

(** Lines 386-394: both files are opened, then read and parsed. *)
Definition load_both (a : args) (w : world)
  : result ((list str * value) * (list str * value)) :=
  bind (open_file (english_rules a) (disk w)) (fun english_lines =>
  bind (open_file (translated_rules a) (disk w)) (fun translated_lines =>
  bind (parse_rules english_lines) (fun english =>
  bind (parse_rules translated_lines) (fun translated =>
  Ok ((english_lines, english), (translated_lines, translated)))))).

Definition main (a : args) (w : world) : outcome :=
  match load_both a w with
  | Raise e => {| stdout := []; status := Raise e; disk_after := disk w |}
  | Ok ((english_lines, english), (translated_lines, translated)) =>
      match audit (is_unicode_yaml_file a) english translated with
      | (printed, Raise e) =>
          {| stdout := printed; status := Raise e; disk_after := disk w |}
      | (printed, Ok v) =>
          match mode a with
          | mode_warnings =>
              {| stdout := printed; status := Ok tt; disk_after := disk w |}
          | mode_new_version =>
              let o := create_new_version a w english_lines translated_lines v in
              {| stdout := printed ++ stdout o; status := status o;
                 disk_after := disk_after o |}
          end
      end
  end.

End Main.

End Script.

Export Script.

(* ================================================================== *)
(** * Runs of the script *)
(* ================================================================== *)

(** A parser given by what it returns on the documents of a run. *)
Definition parser_of (table : list (str * value)) (document : str) : result value :=
  match dict_find str_eqb document table with
  | Some v => Ok v
  | None => Raise YAMLError
  end.

Definition letter (k text : String.string) : value :=
  VDict [(lit k, VList [VDict [(lit "t", VStr (lit text))]])].

Module GreekRun.

Definition english_file : list str :=
  [ln "---";
   ln " - `a`: [t: `alpha`]";
   ln " - `b`: [t: `beta`]";
   ln " - `c`: [t: `gamma`]";
   ln " - `d`: [t: `delta`]"].

Definition english_parsed : value :=
  VList [letter "a" "alpha"; letter "b" "beta"; letter "c" "gamma"; letter "d" "delta"].

Definition translated_file : list str :=
  [ln "---";
   ln " - `a`: [T: `alfa`]";
   ln " - `d`: [T: `delta`]"].

Definition translated_parsed : value :=
  VList [VDict [(lit "a", VList [VDict [(lit "T", VStr (lit "alfa"))]])];
         VDict [(lit "d", VList [VDict [(lit "T", VStr (lit "delta"))]])]].

Definition yaml : str -> result value :=
  parser_of [(concat english_file, english_parsed);
             (concat translated_file, translated_parsed)].

Definition the_args : args :=
  {| english_rules := lit "en/unicode.yaml";
     translated_rules := lit "sv/unicode.yaml";
     mode := mode_new_version;
     unicode := unicode_auto |}.

Definition the_world : world :=
  {| disk := [(lit "en/unicode.yaml", english_file);
              (lit "sv/unicode.yaml", translated_file)];
     temp_file_name := lit "sv/unicode.yamlk3j2";
     stdout_is_open := true |}.

Definition rewritten : list str :=
  [ln "---";
   ln " - `a`: [T: `alfa`]";
   ln " # [AUDIT] NEW RULE 'b' THAT NEEDS TRANSLATION";
   ln " - `b`: [t: `beta`]";
   ln " # [AUDIT] NEW RULE 'c' THAT NEEDS TRANSLATION";
   ln " - `c`: [t: `gamma`]";
   ln " - `d`: [T: `delta`]"].

Example greek_run :
  disk_after (main yaml the_args the_world)
  = [(lit "en/unicode.yaml", english_file);
     (lit "sv/unicode.yaml.bak", translated_file);
     (lit "sv/unicode.yaml", rewritten)].
Proof. vm_compute. reflexivity. Qed.

End GreekRun.

(* ================================================================== *)
(** * Facts about lines *)
(* ================================================================== *)

Section LineFacts.

Lemma lstrip_head_not_space (s : str) (c : char) (r : str) :
  lstrip s = c :: r -> is_space c = false.
Proof.
  induction s as [|x s IH]; simpl; [discriminate|].
  destruct (is_space x) eqn:E; [exact IH|].
  intros [= <- <-]. exact E.
Qed.

Lemma lstrip_nonempty_of_member (s : str) (c : char) :
  In c s -> is_space c = false -> lstrip s <> [].
Proof.
  induction s as [|x s IH]; simpl; [tauto|].
  intros [->|Hin] Hc.
  - rewrite Hc. discriminate.
  - destruct (is_space x); [now apply IH|discriminate].
Qed.

Lemma lstrip_member (s : str) (c : char) (r : str) :
  lstrip s = c :: r -> In c s.
Proof.
  induction s as [|x s IH]; simpl; [discriminate|].
  destruct (is_space x); [intros H; right; now apply IH|].
  intros [= <- <-]. now left.
Qed.

Lemma strip_nonempty_of_member (s : str) (c : char) :
  In c s -> is_space c = false -> strip s <> [].
Proof.
  intros Hin Hc. unfold strip, rstrip.
  destruct (lstrip s) as [|x t] eqn:E.
  - exfalso. eapply lstrip_nonempty_of_member; eauto.
  - assert (Hx : is_space x = false) by (eapply lstrip_head_not_space; eauto).
    intros Hrev.
    apply (f_equal (@rev char)) in Hrev. rewrite rev_involutive in Hrev.
    simpl in Hrev.
    eapply (@lstrip_nonempty_of_member (rev (x :: t)) x); [|exact Hx|exact Hrev].
    apply in_rev. rewrite rev_involutive. now left.
Qed.

(** A line whose first character after the leading whitespace is [c],
    where [c] is neither whitespace nor a no-break space, is not blank. *)
Lemma not_blank_of_lstrip (line : str) (c : char) (r : str) :
  lstrip line = c :: r -> line_is_blank line = false.
Proof.
  intros H.
  pose proof (lstrip_head_not_space _ H) as Hc.
  pose proof (lstrip_member _ H) as Hin.
  unfold line_is_blank.
  destruct line as [|x l]; [discriminate|].
  assert (Hc160 : N.eqb c 160 = false).
  { destruct (N.eqb_spec c 160) as [->|]; [discriminate Hc|reflexivity]. }
  assert (Hin' : In c (replace_char 160%N 32%N (x :: l))).
  { unfold replace_char. apply in_map_iff. exists c. rewrite Hc160. now split. }
  pose proof (strip_nonempty_of_member _ _ Hin' Hc) as Hne.
  destruct (strip (replace_char 160%N 32%N (x :: l))); [congruence|reflexivity].
Qed.

Lemma expect_lstrip (c : char) (line r : str) :
  expect c (lstrip line) = Some r -> lstrip line = c :: r.
Proof.
  unfold expect. destruct (lstrip line) as [|x t]; [discriminate|].
  destruct (N.eqb_spec x c) as [->|]; [|discriminate].
  now intros [= ->].
Qed.

Lemma not_comment_of_lstrip (line : str) (c : char) (r : str) :
  lstrip line = c :: r -> c <> 35%N -> line_is_a_normal_comment line = false.
Proof.
  intros H Hc. unfold line_is_a_normal_comment, starts_with_hash, expect.
  rewrite H. destruct (N.eqb_spec c 35); [contradiction|reflexivity].
Qed.

Lemma not_audit_of_lstrip (line : str) (c : char) (r : str) :
  lstrip line = c :: r -> c <> 35%N -> line_is_a_translation_audit_comment line = false.
Proof.
  intros H Hc. unfold line_is_a_translation_audit_comment, expect.
  rewrite H. destruct (N.eqb_spec c 35); [contradiction|reflexivity].
Qed.

(** The key patterns start with a dash after the leading whitespace. *)
Lemma get_key_from_line_dash (line k : str) :
  get_key_from_line line = Some k -> exists r, lstrip line = 45%N :: r.
Proof.
  unfold get_key_from_line, double_quoted_key, single_quoted_key.
  destruct (expect 45%N (lstrip line)) as [r|] eqn:E; [|discriminate].
  intros _. exists r. now apply expect_lstrip.
Qed.

Lemma key_line_is_content (line k : str) :
  get_key_from_line line = Some k ->
  line_is_blank line = false /\ line_is_a_normal_comment line = false.
Proof.
  intros H. destruct (get_key_from_line_dash _ H) as [r Hr].
  split.
  - eapply not_blank_of_lstrip; eauto.
  - eapply not_comment_of_lstrip; eauto. discriminate.
Qed.

Lemma tag_line_is_content (line : str) :
  line_has_tag_key line = true ->
  line_is_blank line = false /\ line_is_a_normal_comment line = false.
Proof.
  unfold line_has_tag_key.
  destruct (lstrip line) as [|c r] eqn:E; [discriminate|].
  change (lit "tag:") with [116; 97; 103; 58]%N.
  cbn [strip_prefix].
  destruct (N.eqb_spec 116 c) as [<-|]; [|intros H; discriminate H].
  intros _. split.
  - eapply not_blank_of_lstrip; eauto.
  - eapply not_comment_of_lstrip; eauto. discriminate.
Qed.


End LineFacts.

(* ================================================================== *)
(** * Facts about the extractor *)
(* ================================================================== *)

Section GrabFacts.

Variable safe_load : str -> result value.
Variable missing_rule_key : str.
Variable is_a_unicode_file : bool.
Variable file : list str.

(** A line of the file that is not an audit comment. *)
Definition kept_line_of (file : list str) (l : str) : Prop :=
  In l file /\ line_is_a_translation_audit_comment l = false.

(** The span [prefix] is one on which the segmenter recognises the key
    [k]: its last line matches the single-key pattern (single-key files),
    or the span parses to one rule with that composite key. *)
Definition key_detected (prefix : list str) (k : str) : Prop :=
  (is_a_unicode_file = true /\
   exists front l, prefix = front ++ [l] /\ get_key_from_line l = Some k) \/
  get_rule_key_from_buffered_lines safe_load prefix = Ok (Some k).

Record grab_inv (st : grab_state) : Prop := {
  inv_lines : Forall (kept_line_of file) (g_buffered_lines st);
  inv_last : forall n,
    g_last_buffered_non_blank_non_comment_line st = Some n ->
    n <= length (g_buffered_lines st);
  inv_key : forall k,
    g_current_rule_key st = Some k ->
    exists n prefix rest,
      g_last_buffered_non_blank_non_comment_line st = Some n /\
      firstn n (g_buffered_lines st) = prefix ++ rest /\
      key_detected prefix k
}.

Lemma grab_inv_init : grab_inv grab_init.
Proof. constructor; simpl; [constructor|discriminate|discriminate]. Qed.

Lemma grab_document_start_inv (st : grab_state) (line : str) :
  grab_inv st -> grab_inv (grab_document_start st line).
Proof.
  intros [H1 H2 H3]. unfold grab_document_start.
  destruct (_ && _); constructor; assumption.
Qed.

Lemma Forall_skipn {A : Type} (P : A -> Prop) (n : nat) (l : list A) :
  Forall P l -> Forall P (skipn n l).
Proof.
  intros H. rewrite <- (firstn_skipn n l) in H. now apply Forall_app in H.
Qed.

Lemma Forall_firstn {A : Type} (P : A -> Prop) (n : nat) (l : list A) :
  Forall P l -> Forall P (firstn n l).
Proof.
  intros H. rewrite <- (firstn_skipn n l) in H. now apply Forall_app in H.
Qed.

Lemma Forall_del_upto (P : str -> Prop) (n : option nat) (l : list str) :
  Forall P l -> Forall P (del_upto n l).
Proof. destruct n; simpl; [apply Forall_skipn|constructor]. Qed.

Lemma Forall_del_from (P : str -> Prop) (n : option nat) (l : list str) :
  Forall P l -> Forall P (del_from n l).
Proof. destruct n; simpl; [apply Forall_firstn|constructor]. Qed.

Lemma Forall_slice_upto (P : str -> Prop) (n : option nat) (l : list str) :
  Forall P l -> Forall P (slice_upto n l).
Proof. destruct n; simpl; [apply Forall_firstn|auto]. Qed.

Lemma grab_boundary_inv (st st' : grab_state) (line : str) (stop : bool) :
  grab_boundary missing_rule_key st line = (stop, st') ->
  grab_inv st -> grab_inv st'.
Proof.
  intros Hb [H1 H2 H3]. unfold grab_boundary in Hb.
  destruct (starts_sequence_item line); [|now inversion Hb; subst; constructor].
  destruct (option_nat_eqb _ _); [|now inversion Hb; subst; constructor].
  destruct (option_str_eqb _ _); inversion Hb; subst; constructor; simpl;
    try assumption; try discriminate.
  now apply Forall_del_upto.
Qed.

Lemma grab_buffer_inv (st : grab_state) (line : str) :
  kept_line_of file line -> grab_inv st -> grab_inv (grab_buffer st line).
Proof.
  intros Hline [H1 H2 H3]. constructor; simpl.
  - apply Forall_app. split; [assumption|now constructor].
  - intros n. rewrite length_app. simpl.
    destruct (_ && _); [intros [= <-]; lia|].
    intros Hn. apply H2 in Hn. lia.
  - intros k Hk. destruct (H3 k Hk) as (n & prefix & rest & Hlast & Hfirst & Hdet).
    pose proof (H2 n Hlast) as Hle.
    destruct (_ && _).
    + exists (length (g_buffered_lines st ++ [line])), prefix,
        (rest ++ skipn n (g_buffered_lines st) ++ [line]).
      split; [reflexivity|]. split; [|exact Hdet].
      rewrite firstn_all.
      rewrite <- (firstn_skipn n (g_buffered_lines st)) at 1.
      rewrite Hfirst. now rewrite <- !app_assoc.
    + exists n, prefix, rest. split; [exact Hlast|]. split; [|exact Hdet].
      rewrite firstn_app.
      replace (n - length (g_buffered_lines st)) with 0 by lia.
      simpl. now rewrite app_nil_r.
Qed.

(** Right after a line that carries a key or a tag has been buffered, the
    whole buffer is the span up to that line. *)
Lemma grab_buffer_last (st : grab_state) (line : str) :
  line_is_blank line = false -> line_is_a_normal_comment line = false ->
  g_last_buffered_non_blank_non_comment_line (grab_buffer st line)
  = Some (length (g_buffered_lines (grab_buffer st line))).
Proof. intros Hb Hc. simpl. now rewrite Hb, Hc. Qed.

Lemma grab_detect_inv (st st' : grab_state) (line : str) :
  grab_detect safe_load is_a_unicode_file (grab_buffer st line) line = Ok st' ->
  grab_inv (grab_buffer st line) -> grab_inv st'.
Proof.
  intros Hd Hinv. pose proof Hinv as [H1 H2 H3].
  unfold grab_detect in Hd.
  destruct (is_some _ && is_none _) eqn:Econd; [|now inversion Hd; subst].
  assert (Hnone : g_current_rule_key (grab_buffer st line) = None).
  { apply andb_true_iff in Econd as [_ E].
    destruct (g_current_rule_key (grab_buffer st line)); [discriminate|reflexivity]. }
  destruct ((if line_has_name_key line then true
             else g_found_name_key (grab_buffer st line))
            && line_has_tag_key line) eqn:Etag.
  - (* the key comes from the buffered span *)
    apply andb_true_iff in Etag as [_ Etag].
    destruct (tag_line_is_content _ Etag) as [Hb Hc].
    destruct (get_rule_key_from_buffered_lines safe_load
                (g_buffered_lines (grab_buffer st line))) as [k'|e] eqn:Ekey;
      [|discriminate].
    simpl in Hd. inversion Hd; subst; clear Hd.
    constructor; cbn [g_buffered_lines g_last_buffered_non_blank_non_comment_line
                        g_current_rule_key]; try assumption.
    intros k ->.
    exists (length (g_buffered_lines (grab_buffer st line))),
      (g_buffered_lines (grab_buffer st line)), [].
    split; [now apply grab_buffer_last|].
    split; [now rewrite firstn_all, app_nil_r|].
    right. exact Ekey.
  - inversion Hd; subst; clear Hd.
    constructor; cbn [g_buffered_lines g_last_buffered_non_blank_non_comment_line
                        g_current_rule_key]; try assumption.
    intros k Hk.
    destruct is_a_unicode_file eqn:Eu;
      [|simpl in Hnone; simpl in Hk; congruence].
    destruct (key_line_is_content _ Hk) as [Hb Hc].
    exists (length (g_buffered_lines (grab_buffer st line))),
      (g_buffered_lines (grab_buffer st line)), [].
    split; [now apply grab_buffer_last|].
    split; [now rewrite firstn_all, app_nil_r|].
    left. split; [exact Eu|].
    exists (g_buffered_lines st), line. split; [reflexivity|exact Hk].
Qed.

Lemma grab_step_inv (st st' : grab_state) (line : str) (stop : bool) :
  In line file ->
  grab_step safe_load missing_rule_key is_a_unicode_file st line = Ok (stop, st') ->
  grab_inv st -> grab_inv st'.
Proof.
  intros Hin Hs Hinv. unfold grab_step in Hs.
  apply (grab_document_start_inv line) in Hinv.
  destruct (g_past_start_of_document _ && negb _) eqn:E;
    [|now inversion Hs; subst].
  apply andb_true_iff in E as [_ Haudit]. apply negb_true_iff in Haudit.
  destruct (grab_boundary missing_rule_key (grab_document_start st line) line)
    as [stop1 st1] eqn:Eb.
  assert (Hinv1 : grab_inv st1) by (eapply grab_boundary_inv; eauto).
  destruct stop1; [now inversion Hs; subst|].
  destruct (grab_detect safe_load is_a_unicode_file (grab_buffer st1 line) line)
    as [st2|e] eqn:Ed; [|discriminate].
  simpl in Hs. inversion Hs; subst.
  eapply grab_detect_inv; [exact Ed|].
  apply grab_buffer_inv; [split; assumption|exact Hinv1].
Qed.

Lemma grab_loop_inv (lines : list str) :
  forall st st',
    incl lines file ->
    grab_loop safe_load missing_rule_key is_a_unicode_file lines st = Ok st' ->
    grab_inv st -> grab_inv st'.
Proof.
  induction lines as [|line rest IH]; intros st st' Hincl Hl Hinv.
  - simpl in Hl. now inversion Hl; subst.
  - simpl in Hl.
    destruct (grab_step safe_load missing_rule_key is_a_unicode_file st line)
      as [[stop st1]|e] eqn:Es; [|discriminate].
    simpl in Hl.
    assert (Hinv1 : grab_inv st1).
    { eapply grab_step_inv; [|exact Es|exact Hinv]. apply Hincl. now left. }
    destruct stop; [now inversion Hl; subst|].
    eapply IH; [|exact Hl|exact Hinv1].
    intros x Hx. apply Hincl. now right.
Qed.

(** Every line the extractor returns is a line of the file that is not an
    audit comment. *)
Lemma grab_lines_kept (block : list str) :
  grab_missing_rule_lines safe_load missing_rule_key is_a_unicode_file file = Ok block ->
  Forall (kept_line_of file) block.
Proof.
  unfold grab_missing_rule_lines. intros H.
  destruct (grab_loop safe_load missing_rule_key is_a_unicode_file file grab_init)
    as [st|e] eqn:El; [|discriminate].
  simpl in H. inversion H; subst; clear H.
  assert (Hfinal : grab_inv st)
    by (eapply grab_loop_inv; [apply incl_refl|exact El|exact grab_inv_init]).
  destruct Hfinal as [H1 _ _].
  unfold grab_result. destruct (_ && _); [|constructor].
  now apply Forall_del_from.
Qed.

(** The returned block starts with a span on which the key was
    recognised. *)
Lemma grab_block_detected (block : list str) :
  grab_missing_rule_lines safe_load missing_rule_key is_a_unicode_file file = Ok block ->
  block <> [] ->
  exists prefix rest, block = prefix ++ rest /\ key_detected prefix missing_rule_key.
Proof.
  unfold grab_missing_rule_lines. intros H Hne.
  destruct (grab_loop safe_load missing_rule_key is_a_unicode_file file grab_init)
    as [st|e] eqn:El; [|discriminate].
  simpl in H. inversion H; subst; clear H.
  assert (Hfinal : grab_inv st)
    by (eapply grab_loop_inv; [apply incl_refl|exact El|exact grab_inv_init]).
  destruct Hfinal as [_ _ H3].
  unfold grab_result in *.
  destruct (Nat.ltb 0 _ && option_str_eqb _ _) eqn:E; [|congruence].
  apply andb_true_iff in E as [_ E]. apply option_str_eqb_eq in E.
  destruct (H3 missing_rule_key (eq_sym E)) as (n & prefix & rest & Hlast & Hfirst & Hdet).
  exists prefix, rest. rewrite Hlast. simpl. now split.
Qed.

End GrabFacts.

(* ================================================================== *)
(** * Facts about the rewrite pass *)
(* ================================================================== *)

Section RewriteFacts.

Variable safe_load : str -> result value.
Variable unicode_yaml_file : bool.
Variable english_lines : list str.
Variable untranslated : list (str * nat).
Variable extra : list str.
Variable differences : list str.
Variable translated_lines : list str.

(** Text the pass makes up itself: the newline of line 614 and the four
    annotations. *)
Definition generated (l : str) : Prop :=
  l = [10%N] \/
  exists n k,
    l = new_rule_comment n k \/
    (exists count, l = needs_translation_comment n k count) \/
    l = not_in_english_comment n k \/
    l = has_differences_comment n k.

Definition emitted_ok (l : str) : Prop :=
  kept_line_of translated_lines l \/ kept_line_of english_lines l \/ generated l.

Definition rw_inv (st : rw_state) : Prop :=
  Forall emitted_ok (out_file st) /\
  Forall (kept_line_of translated_lines) (buffered_lines st).

Definition run_inv (r : run) : Prop := rw_inv (final_state r).

Local Abbreviation chain := (insert_missing_rules safe_load unicode_yaml_file english_lines).

Lemma and_then_inv (r : run) (f : rw_state -> run) :
  run_inv r -> (forall st, rw_inv st -> run_inv (f st)) -> run_inv (and_then r f).
Proof. destruct r; simpl; auto. Qed.

Lemma kept_is_emitted (ls : list str) :
  Forall (kept_line_of translated_lines) ls -> Forall emitted_ok ls.
Proof. apply Forall_impl. intros l H. now left. Qed.

Lemma write_inv (ls : list str) (st : rw_state) :
  Forall emitted_ok ls -> rw_inv st -> rw_inv (write ls st).
Proof.
  intros Hls [Hout Hbuf]. split; simpl; [|exact Hbuf].
  apply Forall_app. now split.
Qed.

Lemma set_buffered_inv (ls : list str) (st : rw_state) :
  Forall (kept_line_of translated_lines) ls -> rw_inv st ->
  rw_inv (set_buffered_lines ls st).
Proof. intros Hls [Hout _]. now split. Qed.

Lemma leading_blank_lines_split (l : list str) :
  fst (leading_blank_lines l) ++ snd (leading_blank_lines l) = l.
Proof.
  induction l as [|x r IH]; [reflexivity|].
  simpl. destruct (line_is_blank x); [|reflexivity].
  destruct (leading_blank_lines r) as [blank rest]. simpl in *. now rewrite IH.
Qed.

Lemma write_any_leading_blank_lines_inv (st : rw_state) :
  rw_inv st -> rw_inv (write_any_leading_blank_lines st).
Proof.
  intros Hinv. pose proof Hinv as [_ Hbuf].
  unfold write_any_leading_blank_lines.
  pose proof (leading_blank_lines_split (buffered_lines st)) as Hsplit.
  destruct (leading_blank_lines (buffered_lines st)) as [blank rest].
  simpl in Hsplit. rewrite <- Hsplit in Hbuf. apply Forall_app in Hbuf as [Hb Hr].
  apply set_buffered_inv; [exact Hr|].
  apply write_inv; [now apply kept_is_emitted|exact Hinv].
Qed.

Lemma generated_ok (l : str) : generated l -> Forall emitted_ok [l].
Proof. intros H. constructor; [|constructor]. right. now right. Qed.

Lemma write_missing_lines_inv (k : str) (missing_lines : list str) :
  Forall (kept_line_of english_lines) missing_lines ->
  forall comment_added st,
    rw_inv st ->
    run_inv (write_missing_lines unicode_yaml_file k missing_lines comment_added st).
Proof.
  induction 1 as [|missing_line rest Hline _ IH]; intros comment_added st Hinv;
    [exact Hinv|].
  assert (Hone : Forall emitted_ok [missing_line]).
  { constructor; [|constructor]. right. now left. }
  cbn [write_missing_lines].
  destruct (negb comment_added && _).
  - assert (Hinv1 : rw_inv (if is_none (current_rule_key st)
                            then write [[10%N]] st else st)).
    { destruct (is_none _); [|exact Hinv].
      apply write_inv; [|exact Hinv]. apply generated_ok. now left. }
    destruct (indentation _) as [n|] eqn:En; [|exact Hinv1].
    apply IH. apply write_inv; [exact Hone|].
    destruct (write_inv (ls := [new_rule_comment n k])
                (st := if is_none (current_rule_key st) then write [[10%N]] st else st))
      as [Ho Hb]; [|exact Hinv1|split; assumption].
    apply generated_ok. right. exists n, k. now left.
  - apply IH. now apply write_inv.
Qed.

Lemma insert_missing_rules_inv (fuel : nat) :
  forall st, rw_inv st -> run_inv (chain fuel st).
Proof.
  induction fuel as [|fuel IH]; intros st Hinv; simpl.
  - destruct (dict_find _ _ _); exact Hinv.
  - destruct (dict_find _ _ _) as [k|]; [|exact Hinv].
    destruct (grab_missing_rule_lines _ _ _ _) as [missing_lines|e] eqn:Eg;
      [|exact Hinv].
    apply and_then_inv.
    + apply write_missing_lines_inv; [|exact Hinv].
      eapply grab_lines_kept; eauto.
    + intros st' [Ho Hb]. apply IH. split; assumption.
Qed.

Lemma flush_previous_rule_inv (st : rw_state) :
  rw_inv st -> rw_inv (flush_previous_rule st).
Proof.
  intros Hinv. pose proof Hinv as [_ Hbuf]. unfold flush_previous_rule.
  destruct (_ && _); [|exact Hinv].
  destruct (set_buffered_inv
              (ls := del_upto (last_buffered_non_blank_non_comment_line st)
                       (buffered_lines st))
              (st := write (slice_upto (last_buffered_non_blank_non_comment_line st)
                              (buffered_lines st)) st)) as [Ho Hb].
  - now apply Forall_del_upto.
  - apply write_inv; [|exact Hinv].
    apply kept_is_emitted. now apply Forall_slice_upto.
  - split; assumption.
Qed.

Lemma rw_boundary_inv (st : rw_state) (line : str) :
  rw_inv st ->
  run_inv (rw_boundary safe_load unicode_yaml_file english_lines st line).
Proof.
  intros Hinv. unfold rw_boundary.
  destruct (starts_sequence_item line); [|exact Hinv].
  assert (Hinv1 : rw_inv (if is_none (indentation st)
                          then set_indentation (Some (indent_of line)) st else st)).
  { destruct (is_none _); [destruct Hinv; split; assumption|exact Hinv]. }
  destruct (option_nat_eqb _ _); [|exact Hinv1].
  apply and_then_inv.
  - apply insert_missing_rules_inv. now apply flush_previous_rule_inv.
  - intros st' [Ho Hb]. split; assumption.
Qed.

Lemma rw_buffer_inv (st : rw_state) (line : str) :
  kept_line_of translated_lines line -> rw_inv st -> rw_inv (rw_buffer st line).
Proof.
  intros Hline [Ho Hb]. unfold rw_buffer.
  assert (Hb' : Forall (kept_line_of translated_lines) (buffered_lines st ++ [line])).
  { apply Forall_app. split; [exact Hb|now constructor]. }
  destruct (_ && _); split; assumption.
Qed.

Lemma rw_annotate_inv (n : nat) (st : rw_state) :
  rw_inv st -> rw_inv (rw_annotate untranslated extra differences n st).
Proof.
  intros Hinv. unfold rw_annotate.
  set (st1 := match buffered_line_containing_name_key st with
              | Some i => if Nat.ltb 1 i
                          then set_buffered_lines (skipn (i - 1) (buffered_lines st))
                                 (write (firstn (i - 1) (buffered_lines st)) st)
                          else st
              | None => st
              end).
  assert (H1 : rw_inv st1).
  { subst st1. pose proof Hinv as [_ Hb].
    destruct (buffered_line_containing_name_key st) as [i|]; [|exact Hinv].
    destruct (Nat.ltb 1 i); [|exact Hinv].
    apply set_buffered_inv; [now apply Forall_skipn|].
    apply write_inv; [|exact Hinv]. apply kept_is_emitted. now apply Forall_firstn. }
  set (st2 := set_buffered_line_containing_name_key None st1).
  assert (H2 : rw_inv st2) by (destruct H1; split; assumption).
  clearbody st2. clear H1 st1 Hinv.
  set (st3 := match current_rule_key st2 with
              | Some k =>
                  match dict_find str_eqb k untranslated with
                  | Some count =>
                      set_count_of_needs_translation_comments
                        (S (count_of_needs_translation_comments
                              (write_any_leading_blank_lines st2)))
                        (write [needs_translation_comment n k count]
                           (write_any_leading_blank_lines st2))
                  | None => st2
                  end
              | None => st2
              end).
  assert (H3 : rw_inv st3).
  { subst st3. destruct (current_rule_key st2) as [k|]; [|exact H2].
    destruct (dict_find str_eqb k untranslated) as [count|]; [|exact H2].
    destruct (write_inv (ls := [needs_translation_comment n k count])
                (st := write_any_leading_blank_lines st2)) as [Ho Hb].
    - apply generated_ok. right. exists n, k. right. left. now exists count.
    - now apply write_any_leading_blank_lines_inv.
    - split; assumption. }
  clearbody st3. clear H2 st2.
  set (st4 := match current_rule_key st3 with
              | Some k =>
                  if mem k extra then
                    set_count_of_rule_not_in_english_file_comments
                      (S (count_of_rule_not_in_english_file_comments
                            (write_any_leading_blank_lines st3)))
                      (write [not_in_english_comment n k]
                         (write_any_leading_blank_lines st3))
                  else st3
              | None => st3
              end).
  assert (H4 : rw_inv st4).
  { subst st4. destruct (current_rule_key st3) as [k|]; [|exact H3].
    destruct (mem k extra); [|exact H3].
    destruct (write_inv (ls := [not_in_english_comment n k])
                (st := write_any_leading_blank_lines st3)) as [Ho Hb].
    - apply generated_ok. right. exists n, k. right. right. now left.
    - now apply write_any_leading_blank_lines_inv.
    - split; assumption. }
  clearbody st4. clear H3 st3.
  destruct (current_rule_key st4) as [k|]; [|exact H4].
  destruct (mem k differences); [|exact H4].
  destruct (write_inv (ls := [has_differences_comment n k])
              (st := write_any_leading_blank_lines st4)) as [Ho Hb].
  - apply generated_ok. right. exists n, k. right. right. now right.
  - now apply write_any_leading_blank_lines_inv.
  - split; assumption.
Qed.

Lemma rw_detect_inv (st : rw_state) (line : str) :
  rw_inv st ->
  run_inv (rw_detect safe_load unicode_yaml_file untranslated extra differences st line).
Proof.
  intros Hinv. unfold rw_detect.
  destruct (indentation st) as [n|]; [|exact Hinv].
  destruct (is_none _); [|exact Hinv].
  destruct unicode_yaml_file.
  - cbn [found_name_key set_current_rule_key].
    destruct (found_name_key st && line_has_tag_key line).
    + destruct (get_rule_key_from_buffered_lines _ _) as [k|e].
      * apply rw_annotate_inv. destruct Hinv; split; assumption.
      * destruct Hinv; split; assumption.
    + apply rw_annotate_inv. destruct Hinv; split; assumption.
  - destruct (line_has_name_key line).
    + cbn [found_name_key set_found_name_key set_buffered_line_containing_name_key andb].
      destruct (line_has_tag_key line).
      * destruct (get_rule_key_from_buffered_lines _ _) as [k|e].
        -- apply rw_annotate_inv. destruct Hinv; split; assumption.
        -- destruct Hinv; split; assumption.
      * exact Hinv.
    + destruct (found_name_key st && line_has_tag_key line).
      * destruct (get_rule_key_from_buffered_lines _ _) as [k|e].
        -- apply rw_annotate_inv. destruct Hinv; split; assumption.
        -- exact Hinv.
      * exact Hinv.
Qed.

Lemma rw_step_inv (st : rw_state) (line : str) :
  In line translated_lines -> rw_inv st ->
  run_inv (rw_step safe_load unicode_yaml_file english_lines
             untranslated extra differences st line).
Proof.
  intros Hin Hinv. unfold rw_step.
  destruct (line_is_a_translation_audit_comment line) eqn:Ea;
    [destruct Hinv; split; assumption|].
  assert (Hkept : kept_line_of translated_lines line) by now split.
  assert (Hinv1 : rw_inv (rw_document_start st line)).
  { unfold rw_document_start. pose proof Hinv as [Ho Hb].
    destruct (negb (past_start_of_document st)); [|exact Hinv].
    destruct (_ && _).
    - apply set_buffered_inv; [constructor|].
      destruct (write_inv (ls := buffered_lines st) (st := st)) as [Ho' Hb'];
        [now apply kept_is_emitted|exact Hinv|split; assumption].
    - apply set_buffered_inv; [|exact Hinv].
      apply Forall_app. split; [exact Hb|now constructor]. }
  destruct (past_start_of_document _ && _); [|exact Hinv1].
  apply and_then_inv.
  - now apply rw_boundary_inv.
  - intros st' Hst'. apply rw_detect_inv. now apply rw_buffer_inv.
Qed.

Lemma rw_loop_inv (lines : list str) :
  incl lines translated_lines ->
  forall st, rw_inv st ->
    run_inv (rw_loop safe_load unicode_yaml_file english_lines
               untranslated extra differences lines st).
Proof.
  induction lines as [|line rest IH]; intros Hincl st Hinv; [exact Hinv|].
  simpl. apply and_then_inv.
  - apply rw_step_inv; [apply Hincl; now left|exact Hinv].
  - intros st' Hst'. apply IH; [|exact Hst'].
    intros x Hx. apply Hincl. now right.
Qed.

Lemma rw_end_of_file_inv (st : rw_state) :
  rw_inv st ->
  run_inv (rw_end_of_file safe_load unicode_yaml_file english_lines st).
Proof.
  intros Hinv. pose proof Hinv as [Ho Hb]. unfold rw_end_of_file.
  apply and_then_inv.
  - destruct (dict_has _ _ _); [|exact Hinv].
    apply insert_missing_rules_inv.
    destruct (set_buffered_inv
                (ls := del_upto (last_buffered_non_blank_non_comment_line st)
                         (buffered_lines st))
                (st := write (slice_upto (last_buffered_non_blank_non_comment_line st)
                                (buffered_lines st)) st)) as [Ho' Hb'].
    + now apply Forall_del_upto.
    + apply write_inv; [|exact Hinv].
      apply kept_is_emitted. now apply Forall_slice_upto.
    + split; assumption.
  - intros st' Hst'. pose proof Hst' as [_ Hb'].
    destruct (Nat.ltb 0 _); [|exact Hst'].
    apply write_inv; [now apply kept_is_emitted|exact Hst'].
Qed.

Lemma rewrite_pass_inv (missing : list (option str * str)) :
  run_inv (rewrite_pass safe_load unicode_yaml_file english_lines
             untranslated extra differences missing translated_lines).
Proof.
  unfold rewrite_pass. apply and_then_inv.
  - apply rw_loop_inv; [apply incl_refl|]. split; constructor.
  - intros st Hst. now apply rw_end_of_file_inv.
Qed.

End RewriteFacts.

(** ** The fuel of the insertion loop is enough *)

Section ChainFuel.

Variable safe_load : str -> result value.
Variable unicode_yaml_file : bool.
Variable english_lines : list str.

Lemma write_missing_lines_keeps (k : str) (missing_lines : list str) :
  forall comment_added st st',
    write_missing_lines unicode_yaml_file k missing_lines comment_added st = Done st' ->
    current_rule_key st' = current_rule_key st /\
    rule_missing_in_translated_file_after st'
    = rule_missing_in_translated_file_after st.
Proof.
  induction missing_lines as [|l rest IH]; intros comment_added st st' H.
  - inversion H; subst. now split.
  - cbn [write_missing_lines] in H.
    destruct (negb comment_added && _).
    + destruct (indentation _) as [n|] eqn:En; [|discriminate].
      apply IH in H as [H1 H2]. simpl in H1, H2.
      destruct (is_none (current_rule_key st)); simpl in H1, H2; now split.
    + apply IH in H as [H1 H2]. now split.
Qed.

Lemma dict_find_some_length {K V : Type} (eqb : K -> K -> bool) (k : K) (v : V)
  (d : list (K * V)) :
  dict_find eqb k d = Some v -> S (length (dict_del eqb k d)) = length d.
Proof.
  intros H. apply dict_del_length. unfold dict_has. now rewrite H.
Qed.

(** With at least as much fuel as the map has keys, the loop ends as it
    does with exactly that much: the branch that runs out of fuel is not
    taken. *)
Lemma insert_missing_rules_fuel (fuel : nat) :
  forall st,
    length (rule_missing_in_translated_file_after st) <= fuel ->
    insert_missing_rules safe_load unicode_yaml_file english_lines fuel st
    = follow_insertion_chain safe_load unicode_yaml_file english_lines st.
Proof.
  unfold follow_insertion_chain.
  induction fuel as [|fuel IH]; intros st Hle.
  - replace (length (rule_missing_in_translated_file_after st)) with 0 by lia.
    reflexivity.
  - destruct (length (rule_missing_in_translated_file_after st)) as [|m] eqn:Em.
    + simpl. destruct (rule_missing_in_translated_file_after st); [|discriminate].
      reflexivity.
    + simpl.
      destruct (dict_find option_str_eqb (current_rule_key st)
                  (rule_missing_in_translated_file_after st)) as [k|] eqn:Ef;
        [|reflexivity].
      destruct (grab_missing_rule_lines _ _ _ _) as [missing_lines|e]; [|reflexivity].
      destruct (write_missing_lines unicode_yaml_file k missing_lines false st)
        as [st'|st' e] eqn:Ew; [|reflexivity].
      simpl. destruct (write_missing_lines_keeps _ _ _ _ Ew) as [Hc Hm].
      rewrite Hc, Hm.
      pose proof (dict_find_some_length _ _ _ Ef) as Hlen.
      rewrite IH by (simpl; lia).
      simpl. f_equal. lia.
Qed.

End ChainFuel.

(* ================================================================== *)
(** * The extractor and the segmenter: claims *)
(* ================================================================== *)

(** C6: the claim does not hold of the code for the first record of the
    file.  In [greek_reference] the blank line and the comment
    [# about alpha] come after the document comments and before the first
    record: they are attached to the record [a].  At the first record
    boundary [last_buffered_non_blank_non_comment_line] is still [None],
    the slice deleted on line 331 is the whole buffer, and the block
    returned for [a] is the record line alone.  The block of a later
    record, [b], does start with its blank line and its comment. *)
Theorem first_record_is_extracted_without_its_comments :
  grab_missing_rule_lines no_parser (lit "a") true greek_reference
  = Ok [ln " - `a`: [t: `alpha`]"] /\
  grab_missing_rule_lines no_parser (lit "b") true greek_reference
  = Ok [ln ""; ln " # about beta"; ln " - `b`:"; ln "     - t: `beta`"].
Proof. split; reflexivity. Qed.





(** C8: every line of the file the pass writes is a line of the translated
    file or of the English file that is not an audit comment, or text the
    pass makes up itself (a newline or one of its four annotations).  This
    holds of what has been written when the pass ends, and of what has
    been written when it stops with an exception. *)
Theorem audit_comments_are_never_copied
  (safe_load : str -> result value) (unicode : bool)
  (english_lines translated_lines : list str)
  (untranslated : list (str * nat)) (extra differences : list str)
  (missing : list (option str * str)) :
  Forall (fun l =>
            (line_is_a_translation_audit_comment l = false /\
             (In l translated_lines \/ In l english_lines)) \/
            generated l)
    (out_file (final_state
                 (rewrite_pass safe_load unicode english_lines
                    untranslated extra differences missing translated_lines))).
Proof.
  pose proof (rewrite_pass_inv safe_load unicode english_lines untranslated
                extra differences translated_lines missing) as [Hout _].
  eapply Forall_impl; [|exact Hout].
  intros l [[Hin Ha]|[[Hin Ha]|Hg]]; [left|left|right]; auto.
Qed.

(** The audit comments of a run are dropped, and the file is rewritten
    although nothing else has to be said. *)
Example audit_comments_dropped :
  rewrite_pass no_parser true [] [] [] [] []
    [ln "---";
     ln " # [AUDIT] RULE 'a' NEEDS TRANSLATION OF 1 KEYS";
     ln " - `a`: [T: `alfa`]"]
  = Done {| indentation := Some 1;
            past_start_of_document := true;
            buffered_lines := [ln " - `a`: [T: `alfa`]"];
            contains_audit_comments := true;
            last_buffered_non_blank_non_comment_line := Some 1;
            current_rule_key := Some (lit "a");
            found_name_key := false;
            buffered_line_containing_name_key := None;
            count_of_needs_translation_comments := 0;
            count_of_new_rule_comments := 0;
            count_of_contains_differences_comments := 0;
            count_of_rule_not_in_english_file_comments := 0;
            rule_missing_in_translated_file_after := [];
            out_file := [ln "---"; ln " - `a`: [T: `alfa`]"] |}.
Proof. reflexivity. Qed.

(* ================================================================== *)
(** * The insertion chain: claims *)
(* ================================================================== *)

Module AnnotatedRun.

Definition english_file : list str :=
  [ln "---";
   ln " - `a`: [t: `alpha`]";
   ln " - `b`: [t: `beta`]";
   ln " - `c`: [t: `gamma`]";
   ln " # about d";
   ln " - `d`: [t: `delta`]"].

Definition english_parsed : value :=
  VList [letter "a" "alpha"; letter "b" "beta"; letter "c" "gamma"; letter "d" "delta"].

(** The translated file has the records [a] and [d] only; [d] comes with a
    comment, and [a], which still has a [t] field, with a blank line. *)
Definition translated_file : list str :=
  [ln "---";
   ln "";
   ln " - `a`: [t: `alpha`]";
   ln " # about d";
   ln " - `d`: [t: `delta`]"].

Definition translated_parsed : value :=
  VList [letter "a" "alpha"; letter "d" "delta"].

Definition yaml : str -> result value :=
  parser_of [(concat english_file, english_parsed);
             (concat translated_file, translated_parsed)].

Definition the_world : world :=
  {| disk := [(lit "en/unicode.yaml", english_file);
              (lit "sv/unicode.yaml", translated_file)];
     temp_file_name := lit "sv/unicode.yamlk3j2";
     stdout_is_open := true |}.

End AnnotatedRun.

(** C1: the claim does not hold of the code.  Reference order is
    [a, b, c, d], the translated file has [a] and [d].  The annotation of
    [a] is written after the blank line before [a] has been taken out of
    the buffer (lines 127-131), and the index of the last content line is
    not moved with it; when [d] starts, the slice written as the block of
    [a] is one line too long and takes the comment of [d] with it.  The
    blocks of [b] and [c] come out after that comment: they are not
    immediately after the block of [a], and the comment that belongs to
    [d] is before them. *)
Theorem comment_of_next_record_precedes_inserted_records :
  dict_find str_eqb (lit "sv/unicode.yaml")
    (disk_after (main AnnotatedRun.yaml GreekRun.the_args AnnotatedRun.the_world))
  = Some [ln "---";
          ln "";
          ln " # [AUDIT] RULE 'a' NEEDS TRANSLATION OF 1 KEYS";
          ln " - `a`: [t: `alpha`]";
          ln " # about d";
          ln " # [AUDIT] NEW RULE 'b' THAT NEEDS TRANSLATION";
          ln " - `b`: [t: `beta`]";
          ln " # [AUDIT] NEW RULE 'c' THAT NEEDS TRANSLATION";
          ln " - `c`: [t: `gamma`]";
          ln " # [AUDIT] RULE 'd' NEEDS TRANSLATION OF 1 KEYS";
          ln " - `d`: [t: `delta`]"].
Proof. vm_compute. reflexivity. Qed.

(* ================================================================== *)
(** * Facts about the disk *)
(* ================================================================== *)

Section DiskFacts.

Variable V : Type.

Implicit Types d : list (str * V).

Lemma find_set_same k v d : dict_find str_eqb k (dict_set str_eqb k v d) = Some v.
Proof.
  induction d as [|[k' v'] r IH]; simpl.
  - now rewrite str_eqb_refl.
  - destruct (str_eqb k k') eqn:E; simpl; rewrite E; [reflexivity|exact IH].
Qed.

Lemma find_set_other k k' v d :
  k <> k' -> dict_find str_eqb k (dict_set str_eqb k' v d) = dict_find str_eqb k d.
Proof.
  intros Hne. induction d as [|[k0 v0] r IH]; simpl.
  - apply str_eqb_neq in Hne. now rewrite Hne.
  - destruct (str_eqb_spec k' k0) as [->|Hk0]; simpl.
    + apply str_eqb_neq in Hne. now rewrite Hne.
    + destruct (str_eqb k k0); [reflexivity|exact IH].
Qed.

Lemma find_del_other k k' d :
  k <> k' -> dict_find str_eqb k (dict_del str_eqb k' d) = dict_find str_eqb k d.
Proof.
  intros Hne. induction d as [|[k0 v0] r IH]; simpl; [reflexivity|].
  destruct (str_eqb_spec k' k0) as [->|Hk0]; simpl.
  - apply str_eqb_neq in Hne. now rewrite Hne.
  - destruct (str_eqb k k0); [reflexivity|exact IH].
Qed.

Lemma find_none_iff k d : dict_find str_eqb k d = None <-> ~ In k (map fst d).
Proof.
  induction d as [|[k0 v0] r IH]; simpl; [tauto|].
  destruct (str_eqb_spec k k0) as [->|Hne].
  - split; [discriminate|]. intros H. exfalso. apply H. now left.
  - rewrite IH. split; [intros H [Heq|Hin]; [congruence|tauto]|tauto].
Qed.

Lemma find_del_same k d :
  NoDup (map fst d) -> dict_find str_eqb k (dict_del str_eqb k d) = None.
Proof.
  induction d as [|[k0 v0] r IH]; simpl; intros Hnd; [reflexivity|].
  inversion Hnd as [|? ? Hnotin Hnd']; subst.
  destruct (str_eqb_spec k k0) as [->|Hne].
  - now apply find_none_iff.
  - simpl. apply str_eqb_neq in Hne. rewrite Hne. now apply IH.
Qed.

Lemma keys_del_incl k d : incl (map fst (dict_del str_eqb k d)) (map fst d).
Proof.
  induction d as [|[k0 v0] r IH]; simpl; [apply incl_refl|].
  destruct (str_eqb k k0); [apply incl_tl, incl_refl|].
  simpl. intros x [<-|Hx]; [now left|right; now apply IH].
Qed.

Lemma NoDup_del k d : NoDup (map fst d) -> NoDup (map fst (dict_del str_eqb k d)).
Proof.
  induction d as [|[k0 v0] r IH]; simpl; intros Hnd; [constructor|].
  inversion Hnd as [|? ? Hnotin Hnd']; subst.
  destruct (str_eqb k k0); [exact Hnd'|].
  simpl. constructor; [|now apply IH].
  intros Hin. apply Hnotin. eapply keys_del_incl; eauto.
Qed.

Lemma keys_set k v d :
  map fst (dict_set str_eqb k v d)
  = if dict_has str_eqb k d then map fst d else map fst d ++ [k].
Proof.
  unfold dict_has. induction d as [|[k0 v0] r IH]; simpl; [reflexivity|].
  destruct (str_eqb k k0); simpl; [reflexivity|].
  rewrite IH. now destruct (dict_find str_eqb k r).
Qed.

Lemma NoDup_set k v d : NoDup (map fst d) -> NoDup (map fst (dict_set str_eqb k v d)).
Proof.
  intros Hnd. rewrite keys_set. unfold dict_has.
  destruct (dict_find str_eqb k d) eqn:E; [exact Hnd|].
  apply find_none_iff in E.
  apply NoDup_app; [exact Hnd|repeat constructor; simpl; tauto|].
  intros x Hx [<-|[]]. contradiction.
Qed.

Lemma set_fresh k v d :
  dict_find str_eqb k d = None -> dict_set str_eqb k v d = d ++ [(k, v)].
Proof.
  induction d as [|[k0 v0] r IH]; simpl; [reflexivity|].
  destruct (str_eqb k k0); [discriminate|]. intros H. now rewrite IH.
Qed.

Lemma set_set k v v' d :
  dict_set str_eqb k v' (dict_set str_eqb k v d) = dict_set str_eqb k v' d.
Proof.
  induction d as [|[k0 v0] r IH]; simpl.
  - now rewrite str_eqb_refl.
  - destruct (str_eqb k k0) eqn:E; simpl; rewrite E; [reflexivity|now rewrite IH].
Qed.

Lemma del_set_fresh k v d :
  dict_find str_eqb k d = None -> dict_del str_eqb k (dict_set str_eqb k v d) = d.
Proof.
  induction d as [|[k0 v0] r IH]; simpl.
  - now rewrite str_eqb_refl.
  - destruct (str_eqb k k0) eqn:E; [discriminate|].
    intros H. simpl. rewrite E. now rewrite IH.
Qed.

Lemma path_exists_find k (d : list (str * V)) :
  dict_has str_eqb k d = false <-> dict_find str_eqb k d = None.
Proof. unfold dict_has. destruct (dict_find str_eqb k d); split; congruence. Qed.

Lemma path_exists_In k (d : list (str * V)) :
  dict_has str_eqb k d = true -> In k (map fst d).
Proof.
  intros H. destruct (in_dec str_eq_dec k (map fst d)) as [Hin|Hnin]; [exact Hin|].
  apply find_none_iff in Hnin. apply path_exists_find in Hnin. congruence.
Qed.

End DiskFacts.

(** ** The back-up name *)

Section BackupName.

Lemma uint_codes_inj (u v : Decimal.uint) : uint_codes u = uint_codes v -> u = v.
Proof.
  revert v. induction u; intros v H; destruct v; simpl in H;
    try discriminate; try reflexivity;
    injection H as H; f_equal; auto.
Qed.

Lemma dec_nat_inj (n m : nat) : dec_nat n = dec_nat m -> n = m.
Proof.
  unfold dec_nat, dec. intros H. apply uint_codes_inj in H.
  apply DecimalN.Unsigned.to_uint_inj in H. now apply Nat2N.inj.
Qed.

(** The names [backup_file] tries, in order. *)
Definition candidate (filename : str) (i : nat) : str :=
  match i with
  | 0 => filename ++ lit ".bak"
  | S j => numbered_backup filename (S (S j))
  end.

Lemma candidate_inj (filename : str) (i j : nat) :
  candidate filename i = candidate filename j -> i = j.
Proof.
  destruct i as [|i], j as [|j]; simpl; unfold numbered_backup; intros H;
    try reflexivity.
  - apply app_inv_head in H. discriminate.
  - apply app_inv_head in H. discriminate.
  - apply app_inv_head in H. apply app_inv_head in H.
    apply app_inv_tail in H. apply dec_nat_inj in H. congruence.
Qed.

Lemma NoDup_candidates (filename : str) (n : nat) :
  NoDup (map (candidate filename) (seq 0 n)).
Proof.
  apply Finite.Injective_map_NoDup; [|apply seq_NoDup].
  intros i j. apply candidate_inj.
Qed.

Lemma backup_search_spec (fs : files) (filename : str) (fuel : nat) :
  forall i,
    exists j,
      i <= j /\
      backup_search fuel fs filename (candidate filename i) (i + 2)
      = candidate filename j /\
      (forall t, i <= t < j -> path_exists (candidate filename t) fs = true) /\
      (path_exists (candidate filename j) fs = false \/
       (j = i + fuel /\ path_exists (candidate filename j) fs = true)).
Proof.
  induction fuel as [|fuel IH]; intros i.
  - exists i. split; [lia|].
    cbn [backup_search].
    split; [now destruct (path_exists (candidate filename i) fs)|].
    split; [intros t Ht; lia|].
    destruct (path_exists (candidate filename i) fs) eqn:E; [right|now left].
    split; [lia|reflexivity].
  - cbn [backup_search].
    destruct (path_exists (candidate filename i) fs) eqn:E.
    + destruct (IH (S i)) as (j & Hle & Hj & Hall & Hlast).
      exists j. split; [lia|].
      replace (i + 2) with (S (S i)) by lia.
      change (numbered_backup filename (S (S i))) with (candidate filename (S i)).
      replace (S (S (S i))) with (S i + 2) by lia.
      split; [exact Hj|].
      split.
      * intros t Ht. destruct (Nat.eq_dec t i) as [->|Hne]; [exact E|].
        apply Hall. lia.
      * destruct Hlast as [Hf|[-> He]]; [now left|right; split; [lia|exact He]].
    + exists i. split; [lia|]. split; [reflexivity|].
      split; [intros t Ht; lia|]. left. exact E.
Qed.

(** The name [backup_file] settles on is one of the names it tries, and no
    file of the disk has it. *)
Lemma backup_search_fresh (fs : files) (filename : str) :
  exists j,
    backup_search (length fs) fs filename (filename ++ lit ".bak") 2
    = candidate filename j /\
    path_exists (candidate filename j) fs = false.
Proof.
  destruct (backup_search_spec fs filename (length fs) 0)
    as (j & _ & Hj & Hall & Hlast).
  exists j. split; [exact Hj|].
  destruct Hlast as [Hf|[-> He]]; [exact Hf|].
  exfalso.
  assert (Hincl : incl (map (candidate filename) (seq 0 (S (length fs)))) (map fst fs)).
  { intros p Hp. apply in_map_iff in Hp as (t & <- & Ht). apply in_seq in Ht.
    apply path_exists_In.
    destruct (Nat.eq_dec t (length fs)) as [->|Hne]; [exact He|].
    apply Hall. lia. }
  apply NoDup_incl_length in Hincl; [|apply NoDup_candidates].
  rewrite !length_map, length_seq in Hincl. lia.
Qed.

End BackupName.

(* ================================================================== *)
(** * Replacing the translated file: claims *)
(* ================================================================== *)

Section Replace.

Variable safe_load : str -> result value.

Definition total_new_comments (st : rw_state) : nat :=
  count_of_contains_differences_comments st
  + count_of_rule_not_in_english_file_comments st
  + count_of_needs_translation_comments st
  + count_of_new_rule_comments st.

Definition no_changes_line (a : args) : msg :=
  [Txt (lit "No changes needed to " ++ translated_rules a ++ lit ".")].

Definition replaced_report (a : args) (backup_filename : str) (st : rw_state) : list msg :=
  [[Txt (lit "New version of " ++ translated_rules a
         ++ lit " created. Original backed up to " ++ backup_filename ++ lit ".")]]
  ++ count_report (lit " new rule(s) that need translation.")
       (count_of_new_rule_comments st)
  ++ count_report (lit " rule(s) that need translation of keys.")
       (count_of_needs_translation_comments st)
  ++ count_report (lit " rule(s) not in English file.")
       (count_of_rule_not_in_english_file_comments st)
  ++ count_report (lit " rule(s) with differences other than translation.")
       (count_of_contains_differences_comments st).

Lemma os_rename_found (src dst : str) (fs : files) (content : list str) :
  dict_find str_eqb src fs = Some content ->
  os_rename src dst fs = Ok (dict_set str_eqb dst content (dict_del str_eqb src fs)).
Proof. intros H. unfold os_rename. now rewrite H. Qed.

(** The two renamings, on a disk [fs] that holds the translated file and
    the temporary file. *)
Lemma replace_or_discard_replaces (a : args) (w : world) (fs : files) (st : rw_state)
  (original content : list str) :
  contains_audit_comments st || Nat.ltb 0 (total_new_comments st) = true ->
  dict_find str_eqb (translated_rules a) fs = Some original ->
  dict_find str_eqb (temp_file_name w) fs = Some content ->
  temp_file_name w <> translated_rules a ->
  exists j,
    path_exists (candidate (translated_rules a) j) fs = false /\
    replace_or_discard a w fs st
    = {| stdout := replaced_report a (candidate (translated_rules a) j) st;
         status := Ok tt;
         disk_after :=
           dict_set str_eqb (translated_rules a) content
             (dict_del str_eqb (temp_file_name w)
                (dict_set str_eqb (candidate (translated_rules a) j) original
                   (dict_del str_eqb (translated_rules a) fs))) |}.
Proof.
  intros Hflag Htr Htemp Hne.
  destruct (backup_search_fresh fs (translated_rules a)) as (j & Hj & Hfresh).
  exists j. split; [exact Hfresh|].
  apply path_exists_find in Hfresh.
  assert (Hb_temp : candidate (translated_rules a) j <> temp_file_name w)
    by (intros Heq; rewrite Heq in Hfresh; congruence).
  unfold replace_or_discard. fold (total_new_comments st). rewrite Hflag.
  unfold backup_file. rewrite Hj.
  rewrite (@os_rename_found (translated_rules a) _ fs original Htr).
  rewrite (@os_rename_found (temp_file_name w) (translated_rules a) _ content).
  - reflexivity.
  - rewrite find_set_other by congruence.
    rewrite find_del_other by congruence. exact Htemp.
Qed.

Lemma replace_or_discard_discards (a : args) (w : world) (fs : files) (st : rw_state)
  (content : list str) :
  contains_audit_comments st || Nat.ltb 0 (total_new_comments st) = false ->
  dict_find str_eqb (temp_file_name w) fs = Some content ->
  temp_file_name w <> translated_rules a ->
  temp_file_name w <> [] ->
  stdout_is_open w = true ->
  replace_or_discard a w fs st
  = {| stdout := [no_changes_line a]; status := Ok tt;
       disk_after := dict_del str_eqb (temp_file_name w) fs |}.
Proof.
  intros Hflag Htemp Hne Hname Hout.
  unfold replace_or_discard. fold (total_new_comments st). rewrite Hflag.
  destruct (temp_file_name w) as [|c t] eqn:Etemp; [congruence|].
  apply str_eqb_neq in Hne. rewrite Hne. cbn [negb os_path_exists_bool].
  rewrite Hout. unfold os_remove, path_exists, dict_has. now rewrite Htemp.
Qed.

End Replace.



(* ================================================================== *)
(** * What the diff can raise *)
(* ================================================================== *)

Section DiffRaises.

Definition attribute_or_key_error (e : exn) : Prop :=
  e = AttributeError \/ e = KeyError.

Definition raises_only (v : value) : Prop :=
  forall b path e,
    dictionaries_are_the_same_besides_translations v b path = Raise e ->
    attribute_or_key_error e.

Lemma lists_loop_raises (l1 : list value) :
  Forall raises_only l1 ->
  forall l2 path index msgs e,
    lists_loop l1 l2 path index msgs = Raise e -> attribute_or_key_error e.
Proof.
  unfold lists_loop.
  induction 1 as [|item1 r1 Hitem _ IH]; intros [|item2 r2] path index msgs e H;
    try discriminate.
  cbn [lists_loop_with] in H.
  destruct (is_dict item1 && is_dict item2).
  - destruct (dictionaries_are_the_same_besides_translations item1 item2 _)
      as [[w same]|e'] eqn:E.
    + cbn [bind] in H. destruct same; cbn [negb] in H; [eauto|discriminate].
    + cbn [bind] in H. inversion H; subst. eapply Hitem; eauto.
  - destruct (negb (py_eq item1 item2)); [discriminate|eauto].
Qed.

Lemma keys_loop_raises (items : list (str * value)) :
  Forall (fun kv => raises_only (snd kv) /\
                    forall l, snd kv = VList l -> Forall raises_only l) items ->
  forall fields2 path msgs e,
    keys_loop fields2 path items msgs = Raise e -> attribute_or_key_error e.
Proof.
  unfold keys_loop.
  induction 1 as [|[k v1] rest [Hv Hl] _ IH]; intros fields2 path msgs e H;
    [discriminate|].
  cbn [keys_loop_with] in H. cbn [snd] in *.
  destruct (is_ignored k); [eauto|].
  destruct (dict_get k fields2) as [v2|]; [|inversion H; subst; now right].
  destruct v1 as [|b0|z0|s0|list1|sub];
    try (destruct (negb (py_eq _ v2)); [discriminate|eauto]).
  - destruct v2 as [|b2|z2|s2|list2|sub2]; try discriminate.
    destruct (negb (Nat.eqb (length list1) (length list2))); [discriminate|].
    unfold lists_are_the_same_with in H.
    destruct (negb (Nat.eqb (length list1) (length list2))).
    + cbn [bind negb] in H. discriminate.
    + destruct (lists_loop_with dictionaries_are_the_same_besides_translations
                  list1 list2 (path_key path k) 0 []) as [[w same]|e'] eqn:E.
      * cbn [bind] in H. destruct same; cbn [negb] in H; [eauto|discriminate].
      * cbn [bind] in H. inversion H; subst.
        eapply (lists_loop_raises (Hl list1 eq_refl)). exact E.
  - destruct (dictionaries_are_the_same_besides_translations (VDict sub) v2 _)
      as [[w same]|e'] eqn:E.
    + cbn [bind] in H. destruct same; cbn [negb] in H; [eauto|discriminate].
    + cbn [bind] in H. inversion H; subst. eapply Hv; eauto.
Qed.

Lemma diff_raises_only (v : value) :
  raises_only v /\ forall l, v = VList l -> Forall raises_only l.
Proof.
  induction v as [|b0|z0|s0|l IH|d IH] using value_ind';
    try (split; [intros b path e H; simpl in H; inversion H; subst; now left
                |intros l Hl; discriminate]).
  - split; [intros b path e H; simpl in H; inversion H; subst; now left|].
    intros l' [= <-]. eapply Forall_impl; [|exact IH]. now intros x [Hx _].
  - split; [|intros l Hl; discriminate].
    intros b path e H.
    destruct b as [|b2|z2|s2|l2|fields2];
      try (simpl in H; inversion H; subst; now left).
    rewrite dictionaries_unfold in H.
    destruct (negb _); [discriminate|].
    eapply keys_loop_raises; [|exact H]. exact IH.
Qed.

End DiffRaises.

(* ================================================================== *)
(** * Duplicate keys: claims *)
(* ================================================================== *)

Section Duplicates.

Local Open Scope py_scope.

(** The keys of the rules of a file, in file order; a rule without the
    identity fields has none. *)
Fixpoint derived_keys (unicode_yaml_file : bool) (rules : list value)
  : result (list str) :=
  match rules with
  | [] => Ok []
  | rule :: rest =>
      key <- derive_key unicode_yaml_file rule ;;
      ks <- derived_keys unicode_yaml_file rest ;;
      Ok (match key with Some k => k :: ks | None => ks end)
  end.

(** The key [k] is the key of two rules. *)
Definition occurs_twice (k : str) (ks : list str) : Prop :=
  exists l1 l2 l3, ks = l1 ++ k :: l2 ++ k :: l3.

(** The keys that repeat a key seen before, in order. *)
Fixpoint repeats (seen ks : list str) : list str :=
  match ks with
  | [] => []
  | k :: r => if mem k seen then k :: repeats seen r else repeats (seen ++ [k]) r
  end.

Lemma repeats_seen (k : str) (ks : list str) :
  forall seen, In k seen -> In k ks -> In k (repeats seen ks).
Proof.
  induction ks as [|x r IH]; intros seen Hseen Hin; [destruct Hin|].
  simpl. destruct Hin as [->|Hin].
  - apply mem_In in Hseen. rewrite Hseen. now left.
  - destruct (mem x seen); [right; now apply IH|].
    apply IH; [apply in_or_app; now left|exact Hin].
Qed.

Lemma repeats_twice (k : str) (ks : list str) :
  occurs_twice k ks -> forall seen, In k (repeats seen ks).
Proof.
  intros (l1 & l2 & l3 & ->).
  induction l1 as [|x l1 IH]; intros seen; simpl.
  - destruct (mem k seen); [now left|].
    apply repeats_seen; [apply in_or_app; right; now left|].
    apply in_or_app. right. now left.
  - destruct (mem x seen); [right; apply IH|apply IH].
Qed.

Lemma repeats_none (ks : list str) :
  forall seen, repeats seen ks = [] ->
               NoDup ks /\ forall x, In x ks -> ~ In x seen.
Proof.
  induction ks as [|k r IH]; intros seen H; simpl in *.
  - split; [constructor|tauto].
  - destruct (mem k seen) eqn:E; [discriminate|].
    destruct (IH _ H) as [Hnd Hdisj].
    assert (Hk : ~ In k seen).
    { intros Hin. apply mem_In in Hin. congruence. }
    split.
    + constructor; [|exact Hnd].
      intros Hin. apply (Hdisj k Hin). apply in_or_app. right. now left.
    + intros x [<-|Hx]; [exact Hk|].
      intros Hin. apply (Hdisj x Hx). apply in_or_app. now left.
Qed.

Lemma repeats_of_duplicates (ks : list str) : ~ NoDup ks -> repeats [] ks <> [].
Proof. intros Hnd H. apply Hnd. now destruct (repeats_none _ _ H). Qed.

Definition warnings_for (file : String.string) (ks : list str) : list msg :=
  map (fun k => [Txt (duplicate_warning k file)]) ks.

Lemma dict_has_mem (k : str) (d : list (str * value)) :
  dict_has str_eqb k d = mem k (keys d).
Proof.
  unfold dict_has, mem, keys.
  induction d as [|[k' v] r IH]; simpl; [reflexivity|].
  destruct (str_eqb k k'); [reflexivity|exact IH].
Qed.

Lemma keys_dict_set_new (k : str) (v : value) (d : list (str * value)) :
  mem k (keys d) = false -> keys (dict_set str_eqb k v d) = keys d ++ [k].
Proof.
  intros H. unfold keys in *. rewrite keys_set, dict_has_mem. unfold keys. now rewrite H.
Qed.

Variable unicode_yaml_file : bool.

Lemma register_english_spec (rules : list value) :
  forall ks r,
    derived_keys unicode_yaml_file rules = Ok ks ->
    exists r',
      register_english unicode_yaml_file rules r
      = (warnings_for "english" (repeats (keys (english_dict r)) ks), Ok r') /\
      duplicate_keys_in_english_file r'
      = duplicate_keys_in_english_file r
        || negb (Nat.eqb (length (repeats (keys (english_dict r)) ks)) 0).
Proof.
  induction rules as [|rule rest IH]; intros ks r H.
  - simpl in H. inversion H; subst. exists r. split; [reflexivity|].
    simpl. now rewrite orb_false_r.
  - simpl in H. cbn [register_english].
    destruct (derive_key unicode_yaml_file rule) as [key|e]; [|discriminate].
    destruct (derived_keys unicode_yaml_file rest) as [ks'|e] eqn:Erest; [|discriminate].
    simpl in H. inversion H; subst; clear H.
    unfold lift. cbn [then_ app].
    destruct key as [k|].
    + cbn [repeats]. rewrite <- dict_has_mem.
      destruct (dict_has str_eqb k (english_dict r)) eqn:Eh.
      * destruct (IH ks' {| english_dict := english_dict r;
                            english_dict_occurs_after := english_dict_occurs_after r;
                            previous_rule_key := Some k;
                            duplicate_keys_in_english_file := true |} eq_refl)
          as (r' & Hreg & Hflag).
        exists r'. unfold print. cbn [then_ app].
        rewrite Hreg. cbn [english_dict]. split; [reflexivity|].
        rewrite Hflag. cbn [duplicate_keys_in_english_file length Nat.eqb negb].
        now rewrite orb_true_r.
      * destruct (IH ks' {| english_dict := dict_set str_eqb k rule (english_dict r);
                            english_dict_occurs_after :=
                              dict_set str_eqb k (previous_rule_key r)
                                (english_dict_occurs_after r);
                            previous_rule_key := Some k;
                            duplicate_keys_in_english_file :=
                              duplicate_keys_in_english_file r |} eq_refl)
          as (r' & Hreg & Hflag).
        exists r'. rewrite Hreg. cbn [english_dict duplicate_keys_in_english_file] in *.
        rewrite dict_has_mem in Eh.
        rewrite keys_dict_set_new in * by exact Eh.
        split; [reflexivity|exact Hflag].
    + destruct (IH ks' r eq_refl) as (r' & Hreg & Hflag).
      exists r'. rewrite Hreg. split; [reflexivity|exact Hflag].
Qed.

Lemma register_translated_spec (rules : list value) :
  forall ks translated_dict flag,
    derived_keys unicode_yaml_file rules = Ok ks ->
    exists translated_dict',
      register_translated unicode_yaml_file rules translated_dict flag
      = (warnings_for "translated" (repeats (keys translated_dict) ks),
         Ok (translated_dict',
             flag || negb (Nat.eqb (length (repeats (keys translated_dict) ks)) 0))).
Proof.
  induction rules as [|rule rest IH]; intros ks translated_dict flag H.
  - simpl in H. inversion H; subst. exists translated_dict.
    simpl. now rewrite orb_false_r.
  - simpl in H. cbn [register_translated].
    destruct (derive_key unicode_yaml_file rule) as [key|e]; [|discriminate].
    destruct (derived_keys unicode_yaml_file rest) as [ks'|e] eqn:Erest; [|discriminate].
    simpl in H. inversion H; subst; clear H.
    unfold lift. cbn [then_ app].
    destruct key as [k|].
    + cbn [repeats]. rewrite <- dict_has_mem.
      destruct (dict_has str_eqb k translated_dict) eqn:Eh.
      * destruct (IH ks' translated_dict true eq_refl) as (d' & Hreg).
        exists d'. unfold print. cbn [then_ app]. rewrite Hreg.
        cbn [length Nat.eqb negb orb]. now rewrite orb_true_r.
      * destruct (IH ks' (dict_set str_eqb k rule translated_dict) flag eq_refl)
          as (d' & Hreg).
        exists d'. rewrite Hreg.
        rewrite dict_has_mem in Eh.
        now rewrite keys_dict_set_new by exact Eh.
    + destruct (IH ks' translated_dict flag eq_refl) as (d' & Hreg).
      exists d'. now rewrite Hreg.
Qed.

End Duplicates.

Section AuditStops.

Local Open Scope print_scope.

Lemma then_ok {A B : Type} (out : list msg) (a : A) (f : A -> printing B) :
  then_ (out, Ok a) f = (out ++ fst (f a), snd (f a)).
Proof. simpl. now destruct (f a). Qed.

Definition may_raise {A : Type} (P : exn -> Prop) (m : printing A) : Prop :=
  forall e, snd m = Raise e -> P e.

Definition raises_in {A : Type} (P : exn -> Prop) (m : printing A) : Prop :=
  exists e, snd m = Raise e /\ P e.

Lemma then_raises {A B : Type} (P : exn -> Prop) (m : printing A)
  (f : A -> printing B) :
  may_raise P m ->
  (forall a, snd m = Ok a -> raises_in P (f a)) ->
  raises_in P (then_ m f).
Proof.
  intros Hm Hf. destruct m as [out [a|e]].
  - rewrite then_ok. simpl. now apply Hf.
  - exists e. split; [reflexivity|]. now apply Hm.
Qed.

Lemma then_may_raise {A B : Type} (P : exn -> Prop) (m : printing A)
  (f : A -> printing B) :
  may_raise P m -> (forall a, may_raise P (f a)) -> may_raise P (then_ m f).
Proof.
  intros Hm Hf. destruct m as [out [a|e]].
  - rewrite then_ok. intros e He. now apply (Hf a).
  - intros e' He'. simpl in He'. inversion He'; subst. now apply Hm.
Qed.

Lemma print_may_raise (P : exn -> Prop) (s : str) : may_raise P (print s).
Proof. intros e H. discriminate. Qed.

Lemma print_all_may_raise (P : exn -> Prop) (l : list msg) : may_raise P (print_all l).
Proof. intros e H. discriminate. Qed.

Lemma pure_may_raise {A : Type} (P : exn -> Prop) (a : A) : may_raise P (pure a).
Proof. intros e H. discriminate. Qed.

Lemma report_untranslated_may_raise (P : exn -> Prop) (items : list (str * value)) :
  forall acc, may_raise P (report_untranslated items acc).
Proof.
  induction items as [|[k rule] rest IH]; intros acc; [apply pure_may_raise|].
  cbn [report_untranslated].
  destruct (_ && _); [|apply IH].
  apply then_may_raise; [apply print_may_raise|intros _; apply IH].
Qed.

Lemma report_missing_may_raise (english_keys : list str)
  (occurs_after : list (str * option str)) (translated_dict : list (str * value)) :
  forall acc,
    may_raise attribute_or_key_error
      (report_missing english_keys occurs_after translated_dict acc).
Proof.
  induction english_keys as [|k rest IH]; intros acc; [apply pure_may_raise|].
  cbn [report_missing].
  destruct (negb _); [|apply IH].
  destruct (dict_find str_eqb k occurs_after).
  - apply then_may_raise; [apply print_may_raise|intros _; apply IH].
  - intros e H. inversion H; subst. now right.
Qed.

Lemma report_extra_may_raise (P : exn -> Prop) (translated_keys : list str)
  (english_dict : list (str * value)) :
  forall acc, may_raise P (report_extra translated_keys english_dict acc).
Proof.
  induction translated_keys as [|k rest IH]; intros acc; [apply pure_may_raise|].
  cbn [report_extra].
  destruct (negb _); [|apply IH].
  apply then_may_raise; [apply print_may_raise|intros _; apply IH].
Qed.

Lemma report_differences_may_raise (items : list (str * value))
  (translated_dict : list (str * value)) :
  forall acc,
    may_raise attribute_or_key_error (report_differences items translated_dict acc).
Proof.
  induction items as [|[k english_rule] rest IH]; intros acc; [apply pure_may_raise|].
  cbn [report_differences].
  destruct (dict_find str_eqb k translated_dict) as [translated_rule|]; [|apply IH].
  apply then_may_raise.
  - intros e H. unfold lift in H. simpl in H.
    destruct (diff_raises_only english_rule) as [Hr _]. eapply Hr; eauto.
  - intros [warnings same_flag]. destruct (negb same_flag); [|apply IH].
    apply then_may_raise; [apply print_may_raise|intros _].
    apply then_may_raise; [apply print_all_may_raise|intros _; apply IH].
Qed.

(** How a run that stops for duplicate keys can end: with [exit(1)], or
    with the exception of the diff if that comes first. *)
Definition stops_the_run (e : exn) : Prop :=
  e = SystemExit 1 \/ attribute_or_key_error e.

Lemma may_raise_weaken {A : Type} (P Q : exn -> Prop) (m : printing A) :
  (forall e, P e -> Q e) -> may_raise P m -> may_raise Q m.
Proof. intros H Hm e He. auto. Qed.

Lemma report_and_stop_stops (reg : english_registry)
  (translated_dict : list (str * value)) (flag : bool) :
  flag || duplicate_keys_in_english_file reg = true ->
  raises_in stops_the_run (report_and_stop reg translated_dict flag).
Proof.
  intros Hflags. unfold report_and_stop.
  apply then_raises.
  { apply report_untranslated_may_raise. }
  intros untranslated _.
  apply then_raises.
  { eapply may_raise_weaken; [|apply report_missing_may_raise].
    intros e H. now right. }
  intros missing _.
  apply then_raises.
  { apply report_extra_may_raise. }
  intros extra _.
  apply then_raises.
  { eapply may_raise_weaken; [|apply report_differences_may_raise].
    intros e H. now right. }
  intros differences _.
  rewrite Hflags.
  exists (SystemExit 1). split; [reflexivity|now left].
Qed.

Lemma audit_stops_on_duplicates (unicode_yaml_file : bool)
  (english_list translated_list : list value) (eks tks : list str) :
  derived_keys unicode_yaml_file english_list = Ok eks ->
  derived_keys unicode_yaml_file translated_list = Ok tks ->
  ~ NoDup eks \/ ~ NoDup tks ->
  exists header tail,
    audit unicode_yaml_file (VList english_list) (VList translated_list)
    = (header ++ warnings_for "english" (repeats [] eks)
       ++ warnings_for "translated" (repeats [] tks) ++ fst tail, snd tail) /\
    raises_in stops_the_run tail.
Proof.
  intros He Ht Hdup.
  unfold audit.
  change (lift (py_len (VList english_list))) with (@nil msg, Ok (length english_list)).
  rewrite then_ok. cbv beta.
  unfold print at 1. rewrite then_ok. cbv beta.
  change (lift (py_iter (VList english_list))) with (@nil msg, Ok english_list).
  rewrite then_ok. cbv beta.
  destruct (register_english_spec unicode_yaml_file english_list
              {| english_dict := []; english_dict_occurs_after := [];
                 previous_rule_key := None;
                 duplicate_keys_in_english_file := false |} He)
    as (reg & -> & Hflag_e).
  cbn [english_dict keys map duplicate_keys_in_english_file orb] in Hflag_e.
  cbn [english_dict keys map].
  rewrite then_ok. cbv beta.
  change (lift (py_iter (VList translated_list))) with (@nil msg, Ok translated_list).
  rewrite then_ok. cbv beta.
  destruct (register_translated_spec unicode_yaml_file translated_list [] false Ht)
    as (translated_dict & ->).
  cbn [keys map orb].
  rewrite then_ok. cbv beta. cbn [fst snd].
  exists [[Txt ([10%N] ++ lit "Processing " ++ dec_nat (length english_list)
                ++ lit " items in "
                ++ (if unicode_yaml_file then lit "Unicode" else lit "Non-Unicode")
                ++ lit " mode." ++ [10%N])]],
    (report_and_stop reg translated_dict (negb (Nat.eqb (length (repeats [] tks)) 0))).
  split.
  - reflexivity.
  - apply report_and_stop_stops. rewrite Hflag_e.
    destruct Hdup as [H|H]; apply repeats_of_duplicates in H.
    + destruct (repeats [] eks); [congruence|]. apply orb_true_r.
    + destruct (repeats [] tks); [congruence|]. reflexivity.
Qed.

End AuditStops.

Section DuplicatesStop.

Variable safe_load : str -> result value.

(** The exit status of the process: an uncaught exception other than
    [SystemExit] ends it with status 1. *)
Definition exit_code (s : result unit) : nat :=
  match s with
  | Ok _ => 0
  | Raise (SystemExit n) => n
  | Raise _ => 1
  end.


End DuplicatesStop.

Module DuplicateRun.

Definition english_file : list str :=
  [ln "- name: default";
   ln "  tag: mi";
   ln "  replace: [t: `x`]";
   ln "- name: default";
   ln "  tag: mi";
   ln "  replace: [t: `y`]"].

Definition rule (text : String.string) : value :=
  VDict [(lit "name", VStr (lit "default")); (lit "tag", VStr (lit "mi"));
         (lit "replace", VList [VDict [(lit "t", VStr (lit text))]])].

Definition translated_file : list str :=
  [ln "- name: default";
   ln "  tag: mi";
   ln "  replace: [t: `x`]"].

Definition yaml : str -> result value :=
  parser_of [(concat english_file, VList [rule "x"; rule "y"]);
             (concat translated_file, VList [rule "x"])].

Definition the_args : args :=
  {| english_rules := lit "en/default.yaml";
     translated_rules := lit "sv/default.yaml";
     mode := mode_new_version;
     unicode := unicode_auto |}.

Definition the_world : world :=
  {| disk := [(lit "en/default.yaml", english_file);
              (lit "sv/default.yaml", translated_file)];
     temp_file_name := lit "sv/default.yamlq0";
     stdout_is_open := true |}.

Example duplicate_run :
  main yaml the_args the_world
  = {| stdout :=
         [[Txt ([10%N] ++ lit "Processing 2 items in Non-Unicode mode." ++ [10%N])];
          [Txt (lit "Warning: Duplicate key 'default:mi' in english file.")];
          [Txt (lit "Rule 'default:mi' still contains 1 key(s) needing translating.")];
          [Txt ([10%N] ++ lit "Stopping: Duplicate keys in the English or translated file may cause incorrect results.")]];
       status := Raise (SystemExit 1);
       disk_after := disk the_world |}.
Proof. vm_compute. reflexivity. Qed.

End DuplicateRun.


(* ================================================================== *)
(** * More about the diff *)
(* ================================================================== *)

Section DiffMore.

Local Abbreviation compare := dictionaries_are_the_same_besides_translations.

Lemma In_keys_dict_get (k : str) (d : list (str * value)) :
  In k (keys d) -> exists v, dict_get k d = Some v.
Proof.
  induction d as [|[k' v'] r IH]; simpl; [tauto|].
  intros H. destruct (str_eqb_spec k k') as [->|Hne]; [now exists v'|].
  destruct H as [H|H]; [congruence|now apply IH].
Qed.

(** Once the key sets agree, every key of the first mapping that is not
    ignored is a key of the second. *)
Lemma keyset_eqb_present (d1 d2 : list (str * value)) (k : str) :
  keyset_eqb (minus_ignored (keys d1)) (minus_ignored (keys d2)) = true ->
  In k (keys d1) -> is_ignored k = false ->
  exists v, dict_get k d2 = Some v.
Proof.
  unfold keyset_eqb. intros H Hin Hk.
  apply andb_true_iff in H as [H _]. rewrite forallb_forall in H.
  assert (Hk1 : In k (minus_ignored (keys d1))).
  { unfold minus_ignored. apply filter_In. split; [exact Hin|]. now rewrite Hk. }
  apply H in Hk1. apply mem_In in Hk1.
  unfold minus_ignored in Hk1. apply filter_In in Hk1 as [Hk1 _].
  now apply In_keys_dict_get.
Qed.

Definition raises_attribute_error (v : value) : Prop :=
  forall b path e, compare v b path = Raise e -> e = AttributeError.

Lemma lists_loop_raises_attribute_error (l1 : list value) :
  Forall raises_attribute_error l1 ->
  forall l2 path index msgs e,
    lists_loop l1 l2 path index msgs = Raise e -> e = AttributeError.
Proof.
  unfold lists_loop.
  induction 1 as [|item1 r1 Hitem _ IH]; intros [|item2 r2] path index msgs e H;
    try discriminate.
  cbn [lists_loop_with] in H.
  destruct (is_dict item1 && is_dict item2).
  - destruct (compare item1 item2 _) as [[w same]|e'] eqn:E.
    + cbn [bind] in H. destruct same; cbn [negb] in H; [eauto|discriminate].
    + cbn [bind] in H. inversion H; subst. eapply Hitem; eauto.
  - destruct (negb (py_eq item1 item2)); [discriminate|eauto].
Qed.

Lemma keys_loop_raises_attribute_error (fields2 : list (str * value))
  (items : list (str * value)) :
  Forall (fun kv => raises_attribute_error (snd kv) /\
                    forall l, snd kv = VList l -> Forall raises_attribute_error l)
    items ->
  (forall k, In k (keys items) -> is_ignored k = false ->
             exists v, dict_get k fields2 = Some v) ->
  forall path msgs e,
    keys_loop fields2 path items msgs = Raise e -> e = AttributeError.
Proof.
  unfold keys_loop.
  induction 1 as [|[k v1] rest [Hv Hl] _ IH]; intros Hpresent path msgs e H;
    [discriminate|].
  assert (Hrest : forall k0, In k0 (keys rest) -> is_ignored k0 = false ->
                             exists v, dict_get k0 fields2 = Some v).
  { intros k0 Hin. apply Hpresent. now right. }
  cbn [keys_loop_with] in H. cbn [snd] in *.
  destruct (is_ignored k) eqn:Ek; [eauto|].
  destruct (Hpresent k (or_introl eq_refl) Ek) as [v2 Hv2]. rewrite Hv2 in H.
  destruct v1 as [|b0|z0|s0|list1|sub];
    try (destruct (negb (py_eq _ v2)); [discriminate|eauto]).
  - destruct v2 as [|b2|z2|s2|list2|sub2]; try discriminate.
    destruct (negb (Nat.eqb (length list1) (length list2))); [discriminate|].
    unfold lists_are_the_same_with in H.
    destruct (negb (Nat.eqb (length list1) (length list2))).
    + cbn [bind negb] in H. discriminate.
    + destruct (lists_loop_with compare list1 list2 (path_key path k) 0 [])
        as [[w same]|e'] eqn:E.
      * cbn [bind] in H. destruct same; cbn [negb] in H; [eauto|discriminate].
      * cbn [bind] in H. inversion H; subst.
        eapply (lists_loop_raises_attribute_error (Hl list1 eq_refl)). exact E.
  - destruct (compare (VDict sub) v2 _) as [[w same]|e'] eqn:E.
    + cbn [bind] in H. destruct same; cbn [negb] in H; [eauto|discriminate].
    + cbn [bind] in H. inversion H; subst. eapply Hv; eauto.
Qed.

Lemma diff_raises_attribute_error (v : value) :
  raises_attribute_error v /\
  forall l, v = VList l -> Forall raises_attribute_error l.
Proof.
  induction v as [|b0|z0|s0|l IH|d IH] using value_ind';
    try (split; [intros b path e H; simpl in H; now inversion H
                |intros l Hl; discriminate]).
  - split; [intros b path e H; simpl in H; now inversion H|].
    intros l' [= <-]. eapply Forall_impl; [|exact IH]. now intros x [Hx _].
  - split; [|intros l Hl; discriminate].
    intros b path e H.
    destruct b as [|b2|z2|s2|l2|fields2]; try (simpl in H; now inversion H).
    rewrite dictionaries_unfold in H.
    destruct (keyset_eqb _ _) eqn:Eks; cbn [negb] in H; [|discriminate].
    eapply keys_loop_raises_attribute_error; [exact IH| |exact H].
    intros k Hin Hk. eapply keyset_eqb_present; eauto.
Qed.

(** X1: whatever the two values are, the only exception the diff raises is
    [AttributeError] (a mapping compared with something that is not one);
    in particular [dict2[k]] never fails, because the key sets have been
    compared first. *)
Theorem diff_only_raises_attribute_error (dict1 dict2 : value) (path : str) (e : exn) :
  dictionaries_are_the_same_besides_translations dict1 dict2 path = Raise e ->
  e = AttributeError.
Proof. intros H. destruct (diff_raises_attribute_error dict1) as [Hr _]. eauto. Qed.

Lemma diff_only_raises_attribute_error_witness :
  dictionaries_are_the_same_besides_translations
    (VDict [(lit "test", VDict [])]) (VDict [(lit "test", VInt 1)]) (lit "R")
  = Raise AttributeError /\ AttributeError = AttributeError.
Proof.
  split; [reflexivity|].
  apply (@diff_only_raises_attribute_error
           (VDict [(lit "test", VDict [])]) (VDict [(lit "test", VInt 1)]) (lit "R")).
  reflexivity.
Defined.

(** ** Warnings and verdict *)

Definition verdict_has_warnings (msgs w : list msg) (same : bool) : Prop :=
  (same = true -> w = msgs) /\
  (same = false -> exists more, more <> [] /\ w = msgs ++ more).

Definition warns_when_different (v : value) : Prop :=
  forall b path w same,
    compare v b path = Ok (w, same) -> verdict_has_warnings [] w same.

Lemma verdict_after (msgs w1 w : list msg) (same1 same : bool) :
  verdict_has_warnings [] w1 same1 ->
  (same1 = true -> verdict_has_warnings (msgs ++ w1) w same) ->
  (same1 = false -> w = msgs ++ w1 /\ same = false) ->
  verdict_has_warnings msgs w same.
Proof.
  intros [H1t H1f] Ht Hf. destruct same1.
  - rewrite (H1t eq_refl), app_nil_r in Ht. now apply Ht.
  - destruct (Hf eq_refl) as [-> ->]. destruct (H1f eq_refl) as (more & Hne & ->).
    split; [discriminate|]. intros _. exists more. now split.
Qed.

Lemma verdict_mismatch (msgs more : list msg) :
  more <> [] -> verdict_has_warnings msgs (msgs ++ more) false.
Proof. intros H. split; [discriminate|]. intros _. now exists more. Qed.

Lemma lists_loop_warns (l1 : list value) :
  Forall warns_when_different l1 ->
  forall l2 path index msgs w same,
    lists_loop l1 l2 path index msgs = Ok (w, same) ->
    verdict_has_warnings msgs w same.
Proof.
  unfold lists_loop.
  induction 1 as [|item1 r1 Hitem _ IH]; intros l2 path index msgs w same H.
  - simpl in H. inversion H; subst. split; [reflexivity|discriminate].
  - destruct l2 as [|item2 r2].
    { simpl in H. inversion H; subst. split; [reflexivity|discriminate]. }
    cbn [lists_loop_with] in H.
    destruct (is_dict item1 && is_dict item2).
    + destruct (compare item1 item2 _) as [[w1 same1]|e'] eqn:E; [|discriminate].
      cbn [bind] in H.
      apply (@verdict_after msgs w1 w same1 same).
      * eapply Hitem; eauto.
      * intros ->. cbn [negb] in H. eauto.
      * intros ->. cbn [negb] in H. inversion H; subst. now split.
    + destruct (negb (py_eq item1 item2)).
      * inversion H; subst. apply verdict_mismatch. discriminate.
      * eauto.
Qed.

Lemma keys_loop_warns (items : list (str * value)) :
  Forall (fun kv => warns_when_different (snd kv) /\
                    forall l, snd kv = VList l -> Forall warns_when_different l)
    items ->
  forall fields2 path msgs w same,
    keys_loop fields2 path items msgs = Ok (w, same) ->
    verdict_has_warnings msgs w same.
Proof.
  unfold keys_loop.
  induction 1 as [|[k v1] rest [Hv Hl] _ IH]; intros fields2 path msgs w same H.
  - simpl in H. inversion H; subst. split; [reflexivity|discriminate].
  - cbn [keys_loop_with] in H. cbn [snd] in *.
    destruct (is_ignored k); [eauto|].
    destruct (dict_get k fields2) as [v2|]; [|discriminate].
    destruct v1 as [|b0|z0|s0|list1|sub];
      try (destruct (negb (py_eq _ v2));
           [inversion H; subst; apply verdict_mismatch; discriminate|eauto]).
    + destruct v2 as [|b2|z2|s2|list2|sub2];
        try (inversion H; subst; apply verdict_mismatch; discriminate).
      destruct (negb (Nat.eqb (length list1) (length list2))) eqn:Elen;
        [inversion H; subst; apply verdict_mismatch; discriminate|].
      unfold lists_are_the_same_with in H. rewrite Elen in H.
      destruct (lists_loop_with compare list1 list2 (path_key path k) 0 [])
        as [[w1 same1]|e'] eqn:E; [|discriminate].
      cbn [bind] in H.
      apply (@verdict_after msgs w1 w same1 same).
      * eapply (lists_loop_warns (Hl list1 eq_refl)). exact E.
      * intros ->. cbn [negb] in H. eauto.
      * intros ->. cbn [negb] in H. inversion H; subst. now split.
    + destruct (compare (VDict sub) v2 _) as [[w1 same1]|e'] eqn:E; [|discriminate].
      cbn [bind] in H.
      apply (@verdict_after msgs w1 w same1 same).
      * eapply Hv; eauto.
      * intros ->. cbn [negb] in H. eauto.
      * intros ->. cbn [negb] in H. inversion H; subst. now split.
Qed.

Lemma diff_warns (v : value) :
  warns_when_different v /\ forall l, v = VList l -> Forall warns_when_different l.
Proof.
  induction v as [|b0|z0|s0|l IH|d IH] using value_ind';
    try (split; [intros b path w same H; simpl in H; discriminate
                |intros l Hl; discriminate]).
  - split; [intros b path w same H; simpl in H; discriminate|].
    intros l' [= <-]. eapply Forall_impl; [|exact IH]. now intros x [Hx _].
  - split; [|intros l Hl; discriminate].
    intros b path w same H.
    destruct b as [|b2|z2|s2|l2|fields2]; try (simpl in H; discriminate).
    rewrite dictionaries_unfold in H.
    destruct (negb _).
    + inversion H; subst.
      apply (@verdict_mismatch [] (key_mismatch_msgs (keys d) (keys fields2) path)).
      discriminate.
    + eapply keys_loop_warns; [exact IH|exact H].
Qed.

(** X2: when the diff returns, it returns no warning exactly when it
    returns match = true: a match comes without warnings, a mismatch with
    at least one. *)
Theorem diff_warns_exactly_on_mismatch (dict1 dict2 : value) (path : str)
  (warning_msgs : list msg) (same : bool) :
  dictionaries_are_the_same_besides_translations dict1 dict2 path
  = Ok (warning_msgs, same) ->
  (same = true <-> warning_msgs = []).
Proof.
  intros H. destruct (diff_warns dict1) as [Hw _].
  destruct (Hw _ _ _ _ H) as [Ht Hf].
  split; [exact Ht|].
  intros ->. destruct same; [reflexivity|].
  destruct (Hf eq_refl) as (more & Hne & Heq). simpl in Heq. congruence.
Qed.

Lemma diff_warns_exactly_on_mismatch_witness :
  dictionaries_are_the_same_besides_translations
    (VDict [(lit "a", VInt 1)]) (VDict [(lit "a", VInt 1)]) (lit "R") = Ok ([], true) /\
  (true = true <-> @nil msg = []).
Proof.
  split; [reflexivity|].
  apply (@diff_warns_exactly_on_mismatch
           (VDict [(lit "a", VInt 1)]) (VDict [(lit "a", VInt 1)]) (lit "R")).
  reflexivity.
Defined.

End DiffMore.

Section DiffSound.

Local Abbreviation compare := dictionaries_are_the_same_besides_translations.

Definition sound (v : value) : Prop :=
  forall b path w,
    wf v -> wf b ->
    compare v b path = Ok (w, true) ->
    py_eq (erase_reached v) (erase_reached b) = true.

Lemma py_eq_same_shape (a b : value) :
  py_eq a b = true -> is_dict a = is_dict b /\ is_list a = is_list b.
Proof. destruct a, b; simpl; intros H; try discriminate; now split. Qed.

Lemma dict_get_wf (k : str) (d : list (str * value)) (v : value) :
  Forall (fun kv => wf (snd kv)) d -> dict_get k d = Some v -> wf v.
Proof.
  induction 1 as [|[k' v'] r Hv _ IH]; simpl; [discriminate|].
  destruct (str_eqb k k'); [intros [= <-]; exact Hv|exact IH].
Qed.

Lemma wf_list_inv (l : list value) : wf (VList l) -> Forall wf l.
Proof. intros H. now inversion H. Qed.

Lemma wf_dict_inv (d : list (str * value)) :
  wf (VDict d) -> NoDup (keys d) /\ Forall (fun kv => wf (snd kv)) d.
Proof. intros H. inversion H. now split. Qed.

Lemma lists_loop_sound (l1 : list value) :
  Forall sound l1 ->
  forall l2 path index msgs w,
    Forall wf l1 -> Forall wf l2 -> length l1 = length l2 ->
    lists_loop l1 l2 path index msgs = Ok (w, true) ->
    list_eq (map erase_item l1) (map erase_item l2) = true.
Proof.
  unfold lists_loop.
  induction 1 as [|item1 r1 Hitem _ IH]; intros [|item2 r2] path index msgs w
    Hwf1 Hwf2 Hlen H; try discriminate; [reflexivity|].
  inversion Hwf1 as [|? ? Hw1 Hwr1]; subst.
  inversion Hwf2 as [|? ? Hw2 Hwr2]; subst.
  injection Hlen as Hlen.
  cbn [lists_loop_with] in H. cbn [map list_eq].
  destruct (is_dict item1) eqn:E1; destruct (is_dict item2) eqn:E2; cbn [andb] in H.
  - destruct (compare item1 item2 _) as [[w1 same1]|e'] eqn:E; [|discriminate].
    cbn [bind] in H. destruct same1; cbn [negb] in H; [|discriminate].
    apply andb_true_iff. split; [|eauto].
    destruct item1; try discriminate. destruct item2; try discriminate.
    eapply Hitem; eauto.
  - destruct (negb (py_eq item1 item2)) eqn:Eq; [discriminate|].
    apply negb_false_iff in Eq. apply py_eq_same_shape in Eq as [Hd _]. congruence.
  - destruct (negb (py_eq item1 item2)) eqn:Eq; [discriminate|].
    apply negb_false_iff in Eq. apply py_eq_same_shape in Eq as [Hd _]. congruence.
  - destruct (negb (py_eq item1 item2)) eqn:Eq; [discriminate|].
    apply negb_false_iff in Eq.
    rewrite (erase_item_not_dict _ E1), (erase_item_not_dict _ E2), Eq.
    cbn [andb]. eauto.
Qed.

Lemma keys_loop_sound (items : list (str * value)) :
  Forall (fun kv => sound (snd kv) /\
                    forall l, snd kv = VList l -> Forall sound l) items ->
  forall fields2 path msgs w,
    Forall (fun kv => wf (snd kv)) items ->
    Forall (fun kv => wf (snd kv)) fields2 ->
    keys_loop fields2 path items msgs = Ok (w, true) ->
    fields_in (fields_without_ignored erase_field items)
              (fields_without_ignored erase_field fields2) = true.
Proof.
  unfold keys_loop.
  induction 1 as [|[k v1] rest [Hv Hl] _ IH]; intros fields2 path msgs w Hwf1 Hwf2 H;
    [reflexivity|].
  inversion Hwf1 as [|? ? Hw1 Hwr1]; subst. cbn [snd] in *.
  cbn [keys_loop_with] in H. cbn [fields_without_ignored].
  destruct (is_ignored k) eqn:Ek; [eauto|].
  cbn [fields_in].
  rewrite (dict_get_fields_without_ignored _ _ fields2 Ek).
  destruct (dict_get k fields2) as [v2|] eqn:Eget; [|discriminate].
  pose proof (dict_get_wf _ Hwf2 Eget) as Hw2.
  cbn [option_map]. apply andb_true_iff.
  destruct v1 as [|b0|z0|s0|list1|sub].
  - destruct (negb (py_eq VNone v2)) eqn:Eq; [discriminate|].
    apply negb_false_iff in Eq. split; [|eauto].
    destruct v2; try discriminate. reflexivity.
  - destruct (negb (py_eq (VBool b0) v2)) eqn:Eq; [discriminate|].
    apply negb_false_iff in Eq. split; [|eauto].
    destruct v2; try discriminate; exact Eq.
  - destruct (negb (py_eq (VInt z0) v2)) eqn:Eq; [discriminate|].
    apply negb_false_iff in Eq. split; [|eauto].
    destruct v2; try discriminate; exact Eq.
  - destruct (negb (py_eq (VStr s0) v2)) eqn:Eq; [discriminate|].
    apply negb_false_iff in Eq. split; [|eauto].
    destruct v2; try discriminate; exact Eq.
  - destruct v2 as [|b2|z2|s2|list2|sub2]; try discriminate.
    destruct (Nat.eqb (length list1) (length list2)) eqn:Elen;
      cbn [negb] in H; [|discriminate].
    apply Nat.eqb_eq in Elen.
    unfold lists_are_the_same_with in H.
    rewrite (proj2 (Nat.eqb_eq _ _) Elen) in H. cbn [negb] in H.
    destruct (lists_loop_with compare list1 list2 (path_key path k) 0 [])
      as [[w1 same1]|e'] eqn:E; [|discriminate].
    cbn [bind] in H. destruct same1; cbn [negb] in H; [|discriminate].
    split; [|eauto].
    change (list_eq (map erase_item list1) (map erase_item list2) = true).
    eapply (lists_loop_sound (Hl list1 eq_refl));
      [now apply wf_list_inv|now apply wf_list_inv|exact Elen|exact E].
  - destruct (compare (VDict sub) v2 _) as [[w1 same1]|e'] eqn:E; [|discriminate].
    cbn [bind] in H. destruct same1; cbn [negb] in H; [|discriminate].
    split; [|eauto].
    destruct v2 as [|b2|z2|s2|list2|sub2]; try discriminate.
    eapply Hv; eauto.
Qed.

Lemma keyset_eqb_true (a b : list str) :
  keyset_eqb a b = true -> incl a b /\ incl b a.
Proof.
  unfold keyset_eqb. intros H. apply andb_true_iff in H as [H1 H2].
  rewrite forallb_forall in H1, H2.
  split; intros x Hx; apply mem_In; auto.
Qed.

Lemma diff_sound (v : value) :
  sound v /\ forall l, v = VList l -> Forall sound l.
Proof.
  induction v as [|b0|z0|s0|l IH|d IH] using value_ind';
    try (split; [intros b path w _ _ H; simpl in H; discriminate
                |intros l Hl; discriminate]).
  - split; [intros b path w _ _ H; simpl in H; discriminate|].
    intros l' [= <-]. eapply Forall_impl; [|exact IH]. now intros x [Hx _].
  - split; [|intros l Hl; discriminate].
    intros b path w Hwf1 Hwf2 H.
    destruct b as [|b2|z2|s2|l2|fields2]; try (simpl in H; discriminate).
    rewrite dictionaries_unfold in H.
    destruct (keyset_eqb _ _) eqn:Eks; cbn [negb] in H; [|discriminate].
    apply wf_dict_inv in Hwf1 as [Hnd1 Hv1].
    apply wf_dict_inv in Hwf2 as [Hnd2 Hv2].
    cbn [erase_reached]. rewrite py_eq_dict. apply andb_true_iff. split.
    + apply Nat.eqb_eq.
      apply keyset_eqb_true in Eks as [H12 H21].
      apply NoDup_minus_ignored in Hnd1. apply NoDup_minus_ignored in Hnd2.
      pose proof (NoDup_incl_length Hnd1 H12) as Hle1.
      pose proof (NoDup_incl_length Hnd2 H21) as Hle2.
      rewrite <- !(keys_fields_without_ignored (reached_field erase_reached)) in Hle1, Hle2.
      unfold keys in Hle1, Hle2. rewrite !length_map in Hle1, Hle2. lia.
    + eapply keys_loop_sound; eauto.
Qed.

(** X3: the diff has no false match.  When it returns match = true for two
    well-formed records, the records are equal once the fields with an
    ignored key are removed from the mappings the diff walks into. *)
Theorem match_means_equal_besides_translations (dict1 dict2 : value) (path : str)
  (warning_msgs : list msg) :
  wf dict1 -> wf dict2 ->
  dictionaries_are_the_same_besides_translations dict1 dict2 path
  = Ok (warning_msgs, true) ->
  py_eq (erase_reached dict1) (erase_reached dict2) = true.
Proof. intros H1 H2 H. destruct (diff_sound dict1) as [Hs _]. eauto. Qed.

End DiffSound.

Lemma match_means_equal_besides_translations_witness :
  wf reference_without_oc /\ wf derived_with_oc /\
  py_eq (erase_reached reference_without_oc) (erase_reached derived_with_oc) = true.
Proof.
  split; [apply wfb_wf; reflexivity|]. split; [apply wfb_wf; reflexivity|].
  apply (@match_means_equal_besides_translations
           reference_without_oc derived_with_oc (lit "X:t1") []).
  - apply wfb_wf; reflexivity.
  - apply wfb_wf; reflexivity.
  - reflexivity.
Defined.

(* ================================================================== *)
(** * More about lines *)
(* ================================================================== *)

Section LinesMore.

Lemma lstrip_spaces (n : nat) (s : str) : lstrip (repeat_char 32%N n ++ s) = lstrip s.
Proof. induction n as [|n IH]; [reflexivity|exact IH]. Qed.

Lemma audit_prefix_is_audit (n : nat) (rest : str) :
  line_is_a_translation_audit_comment (audit_prefix n ++ rest) = true.
Proof.
  unfold line_is_a_translation_audit_comment, audit_prefix.
  rewrite <- app_assoc, lstrip_spaces. reflexivity.
Qed.


Lemma span_not_stops (c : char) (g rest : str) :
  ~ In c g -> span_not c (g ++ c :: rest) = (g, c :: rest).
Proof.
  induction g as [|x g IH]; intros Hnin; simpl.
  - now rewrite N.eqb_refl.
  - destruct (N.eqb_spec x c) as [->|Hne]; [exfalso; apply Hnin; now left|].
    rewrite IH; [reflexivity|]. intros Hin. apply Hnin. now right.
Qed.

(** X5: a line made of [n] spaces, a dash, a space, the key between double
    quotes, a colon and anything at all is a sequence item at indentation
    [n], and [get_key_from_line] gives back the key, provided the key has
    no double quote in it. *)
Theorem double_quoted_key_round_trip (n : nat) (k rest : str) :
  ~ In 34%N k ->
  get_key_from_line (repeat_char 32%N n ++ lit "- " ++ [34%N] ++ k ++ [34%N]
                     ++ lit ":" ++ rest) = Some k /\
  starts_sequence_item (repeat_char 32%N n ++ lit "- " ++ [34%N] ++ k ++ [34%N]
                        ++ lit ":" ++ rest) = true /\
  indent_of (repeat_char 32%N n ++ lit "- " ++ [34%N] ++ k ++ [34%N]
             ++ lit ":" ++ rest) = n.
Proof.
  intros Hk. split; [|split].
  - unfold get_key_from_line, double_quoted_key.
    rewrite lstrip_spaces.
    change (lit "- " ++ [34%N] ++ k ++ [34%N] ++ lit ":" ++ rest)
      with (45%N :: 32%N :: 34%N :: (k ++ 34%N :: 58%N :: rest)).
    cbn [lstrip is_space expect N.eqb Pos.eqb N.leb N.compare Pos.compare
         Pos.compare_cont andb orb].
    change (lstrip (32%N :: 34%N :: k ++ 34%N :: 58%N :: rest))
      with (34%N :: k ++ 34%N :: 58%N :: rest).
    cbn [expect N.eqb Pos.eqb].
    rewrite span_not_stops by exact Hk.
    cbn [expect N.eqb Pos.eqb].
    change (lstrip (58%N :: rest)) with (58%N :: rest).
    cbn [expect N.eqb Pos.eqb]. reflexivity.
  - unfold starts_sequence_item. rewrite lstrip_spaces. reflexivity.
  - unfold indent_of. rewrite lstrip_spaces.
    change (lstrip (lit "- " ++ [34%N] ++ k ++ [34%N] ++ lit ":" ++ rest))
      with (lit "- " ++ [34%N] ++ k ++ [34%N] ++ lit ":" ++ rest).
    rewrite length_app. unfold repeat_char. rewrite repeat_length. lia.
Qed.

Lemma double_quoted_key_round_trip_witness :
  ~ In 34%N (lit "a") /\
  get_key_from_line (repeat_char 32%N 1 ++ lit "- " ++ [34%N] ++ lit "a" ++ [34%N]
                     ++ lit ":" ++ lit " [t: x]") = Some (lit "a").
Proof.
  assert (H : ~ In 34%N (lit "a")) by (simpl; intros [H|[]]; discriminate H).
  split; [exact H|].
  exact (proj1 (@double_quoted_key_round_trip 1 (lit "a") (lit " [t: x]") H)).
Defined.

End LinesMore.

(* ================================================================== *)
(** * More about the extractor *)
(* ================================================================== *)

Section GrabMore.

Variable safe_load : str -> result value.
Variable missing_rule_key : str.
Variable is_a_unicode_file : bool.
Variable file : list str.

Definition content_line (l : str) : Prop :=
  line_is_blank l = false /\ line_is_a_normal_comment l = false.

(** The index of the last content line does point at a content line. *)
Definition last_is_content (st : grab_state) : Prop :=
  forall n,
    g_last_buffered_non_blank_non_comment_line st = Some n ->
    exists front l,
      firstn n (g_buffered_lines st) = front ++ [l] /\ content_line l.

Lemma grab_boundary_last (st st' : grab_state) (line : str) (stop : bool) :
  grab_boundary missing_rule_key st line = (stop, st') ->
  last_is_content st -> last_is_content st'.
Proof.
  intros Hb H. unfold grab_boundary in Hb.
  destruct (starts_sequence_item line); [|now inversion Hb; subst].
  destruct (option_nat_eqb _ _); [|now inversion Hb; subst].
  destruct (option_str_eqb _ _); inversion Hb; subst; [exact H|].
  intros n Hn. discriminate.
Qed.

Lemma grab_buffer_content (st : grab_state) (line : str) :
  grab_inv safe_load is_a_unicode_file file st ->
  last_is_content st -> last_is_content (grab_buffer st line).
Proof.
  intros [_ Hlast _] H n Hn. simpl in Hn. simpl.
  destruct (negb (line_is_blank line) && negb (line_is_a_normal_comment line)) eqn:E.
  - injection Hn as <-. rewrite firstn_all.
    exists (g_buffered_lines st), line. split; [reflexivity|].
    apply andb_true_iff in E as [E1 E2].
    split; now apply negb_true_iff.
  - destruct (H n Hn) as (front & l & Hf & Hc).
    exists front, l. split; [|exact Hc].
    rewrite firstn_app. pose proof (Hlast n Hn) as Hle.
    replace (n - length (g_buffered_lines st)) with 0 by lia.
    simpl. now rewrite app_nil_r.
Qed.

Lemma grab_detect_last (st st' : grab_state) (line : str) :
  grab_detect safe_load is_a_unicode_file st line = Ok st' ->
  last_is_content st -> last_is_content st'.
Proof.
  intros Hd H. unfold grab_detect in Hd.
  destruct (is_some _ && is_none _); [|now inversion Hd; subst].
  destruct (_ && line_has_tag_key line).
  - destruct (get_rule_key_from_buffered_lines _ _); [|discriminate].
    simpl in Hd. inversion Hd; subst. exact H.
  - inversion Hd; subst. exact H.
Qed.

Lemma grab_step_both (st st' : grab_state) (line : str) (stop : bool) :
  In line file ->
  grab_step safe_load missing_rule_key is_a_unicode_file st line = Ok (stop, st') ->
  grab_inv safe_load is_a_unicode_file file st /\ last_is_content st ->
  grab_inv safe_load is_a_unicode_file file st' /\ last_is_content st'.
Proof.
  intros Hin Hs [Hinv Hc].
  split; [eapply grab_step_inv; eauto|].
  unfold grab_step in Hs.
  assert (Hc0 : last_is_content (grab_document_start st line)).
  { unfold grab_document_start.
    destruct (negb (g_past_start_of_document st)
              && negb (line_is_a_normal_comment line)
              && negb (line_is_start_of_document line)); [|exact Hc].
    intros n Hn. exact (Hc n Hn). }
  assert (Hinv0 : grab_inv safe_load is_a_unicode_file file (grab_document_start st line))
    by now apply grab_document_start_inv.
  destruct (g_past_start_of_document _ && negb _) eqn:E;
    [|now inversion Hs; subst].
  apply andb_true_iff in E as [_ Haudit]. apply negb_true_iff in Haudit.
  destruct (grab_boundary missing_rule_key (grab_document_start st line) line)
    as [stop1 st1] eqn:Eb.
  assert (Hc1 : last_is_content st1) by (eapply grab_boundary_last; eauto).
  assert (Hinv1 : grab_inv safe_load is_a_unicode_file file st1)
    by (eapply grab_boundary_inv; eauto).
  destruct stop1; [now inversion Hs; subst|].
  destruct (grab_detect safe_load is_a_unicode_file (grab_buffer st1 line) line)
    as [st2|e] eqn:Ed; [|discriminate].
  simpl in Hs. inversion Hs; subst.
  eapply grab_detect_last; [exact Ed|].
  eapply grab_buffer_content; [exact Hinv1|exact Hc1].
Qed.

Lemma grab_loop_both (lines : list str) :
  forall st st',
    incl lines file ->
    grab_loop safe_load missing_rule_key is_a_unicode_file lines st = Ok st' ->
    grab_inv safe_load is_a_unicode_file file st /\ last_is_content st ->
    grab_inv safe_load is_a_unicode_file file st' /\ last_is_content st'.
Proof.
  induction lines as [|line rest IH]; intros st st' Hincl Hl Hinv.
  - simpl in Hl. now inversion Hl; subst.
  - simpl in Hl.
    destruct (grab_step safe_load missing_rule_key is_a_unicode_file st line)
      as [[stop st1]|e] eqn:Es; [|discriminate].
    simpl in Hl.
    assert (Hinv1 : grab_inv safe_load is_a_unicode_file file st1 /\ last_is_content st1).
    { eapply grab_step_both; [|exact Es|exact Hinv]. apply Hincl. now left. }
    destruct stop; [now inversion Hl; subst|].
    eapply IH; [|exact Hl|exact Hinv1].
    intros x Hx. apply Hincl. now right.
Qed.

(** X6: when the extractor returns lines, the last of them is a line of
    the file that is neither blank, nor an ordinary comment, nor an audit
    comment: the comments and blank lines after the record are left to
    the record that follows. *)
Theorem extracted_block_ends_with_content (block : list str) :
  grab_missing_rule_lines safe_load missing_rule_key is_a_unicode_file file = Ok block ->
  block <> [] ->
  exists front l,
    block = front ++ [l] /\
    In l file /\
    line_is_blank l = false /\
    line_is_a_normal_comment l = false /\
    line_is_a_translation_audit_comment l = false.
Proof.
  intros H Hne.
  pose proof (grab_lines_kept _ _ _ _ H) as Hkept.
  unfold grab_missing_rule_lines in H.
  destruct (grab_loop safe_load missing_rule_key is_a_unicode_file file grab_init)
    as [st|e] eqn:El; [|discriminate].
  simpl in H. inversion H; subst; clear H.
  assert (Hfinal : grab_inv safe_load is_a_unicode_file file st /\ last_is_content st).
  { eapply grab_loop_both; [apply incl_refl|exact El|].
    split; [apply grab_inv_init|]. intros n Hn. discriminate. }
  destruct Hfinal as [_ Hc].
  unfold grab_result in *.
  destruct (Nat.ltb 0 _ && option_str_eqb _ _); [|congruence].
  destruct (g_last_buffered_non_blank_non_comment_line st) as [n|] eqn:En;
    [|simpl in Hne; congruence].
  destruct (Hc n En) as (front & l & Hf & Hb & Hcm).
  simpl in *. exists front, l. split; [exact Hf|].
  rewrite Hf in Hkept. apply Forall_app in Hkept as [_ Hl].
  inversion Hl as [|? ? [Hin Ha] _]; subst. auto.
Qed.


End GrabMore.

Lemma extracted_block_ends_with_content_witness :
  grab_missing_rule_lines no_parser (lit "b") true greek_reference
  = Ok [ln ""; ln " # about beta"; ln " - `b`:"; ln "     - t: `beta`"] /\
  exists front l,
    [ln ""; ln " # about beta"; ln " - `b`:"; ln "     - t: `beta`"] = front ++ [l] /\
    In l greek_reference /\
    line_is_blank l = false /\
    line_is_a_normal_comment l = false /\
    line_is_a_translation_audit_comment l = false.
Proof.
  split; [reflexivity|].
  apply (@extracted_block_ends_with_content no_parser (lit "b") true greek_reference).
  - reflexivity.
  - discriminate.
Defined.


(* ================================================================== *)
(** * More about the back-up *)
(* ================================================================== *)

Section BackupMore.

Lemma backup_search_first_free (fs : files) (filename : str) :
  exists j,
    backup_search (length fs) fs filename (filename ++ lit ".bak") 2
    = candidate filename j /\
    path_exists (candidate filename j) fs = false /\
    forall t, t < j -> path_exists (candidate filename t) fs = true.
Proof.
  destruct (backup_search_spec fs filename (length fs) 0)
    as (j & _ & Hj & Hall & Hlast).
  exists j. split; [exact Hj|].
  split; [|intros t Ht; apply Hall; lia].
  destruct Hlast as [Hf|[-> He]]; [exact Hf|].
  exfalso.
  assert (Hincl : incl (map (candidate filename) (seq 0 (S (length fs)))) (map fst fs)).
  { intros p Hp. apply in_map_iff in Hp as (t & <- & Ht). apply in_seq in Ht.
    apply path_exists_In.
    destruct (Nat.eq_dec t (length fs)) as [->|Hne]; [exact He|].
    apply Hall. lia. }
  apply NoDup_incl_length in Hincl; [|apply NoDup_candidates].
  rewrite !length_map, length_seq in Hincl. lia.
Qed.

(** X8: [backup_file] never overwrites a file.  On a disk that holds the
    file, it renames it to the first name among [f.bak], [f-2.bak],
    [f-3.bak], ... that no file has; afterwards that name holds the
    content, the old name is gone, and every other file is as it was. *)
Theorem backup_file_takes_first_free_name (filename : str) (fs : files)
  (content : list str) :
  NoDup (map fst fs) ->
  dict_find str_eqb filename fs = Some content ->
  exists j fs',
    backup_file filename fs = Ok (candidate filename j, fs') /\
    path_exists (candidate filename j) fs = false /\
    (forall t, t < j -> path_exists (candidate filename t) fs = true) /\
    dict_find str_eqb (candidate filename j) fs' = Some content /\
    dict_find str_eqb filename fs' = None /\
    (forall p, p <> filename -> p <> candidate filename j ->
               dict_find str_eqb p fs' = dict_find str_eqb p fs).
Proof.
  intros Hnd Hfile.
  destruct (backup_search_first_free fs filename) as (j & Hj & Hfresh & Hfirst).
  exists j, (dict_set str_eqb (candidate filename j) content
               (dict_del str_eqb filename fs)).
  unfold backup_file. rewrite Hj. unfold os_rename. rewrite Hfile.
  split; [reflexivity|]. split; [exact Hfresh|]. split; [exact Hfirst|].
  apply path_exists_find in Hfresh.
  assert (Hne : filename <> candidate filename j).
  { intros Heq. rewrite <- Heq in Hfresh. congruence. }
  split; [apply find_set_same|]. split.
  - rewrite find_set_other by exact Hne. now apply find_del_same.
  - intros p Hp1 Hp2.
    rewrite find_set_other by exact Hp2. now apply find_del_other.
Qed.

End BackupMore.

Lemma backup_file_takes_first_free_name_witness :
  NoDup (map fst [(lit "f", [ln "x"]); (lit "f.bak", [ln "old"])]) /\
  exists j fs',
    backup_file (lit "f") [(lit "f", [ln "x"]); (lit "f.bak", [ln "old"])]
    = Ok (candidate (lit "f") j, fs') /\
    path_exists (candidate (lit "f") j) [(lit "f", [ln "x"]); (lit "f.bak", [ln "old"])]
    = false.
Proof.
  assert (Hnd : NoDup (map fst [(lit "f", [ln "x"]); (lit "f.bak", [ln "old"])]))
    by (apply nodupb_NoDup; reflexivity).
  split; [exact Hnd|].
  destruct (@backup_file_takes_first_free_name (lit "f")
              [(lit "f", [ln "x"]); (lit "f.bak", [ln "old"])] [ln "x"] Hnd eq_refl)
    as (j & fs' & H1 & H2 & _).
  exists j, fs'. split; assumption.
Defined.

Example backup_file_second_name :
  backup_file (lit "f") [(lit "f", [ln "x"]); (lit "f.bak", [ln "old"])]
  = Ok (lit "f-2.bak", [(lit "f.bak", [ln "old"]); (lit "f-2.bak", [ln "x"])]).
Proof. reflexivity. Qed.

(* ================================================================== *)
(** * What the pass carries over *)
(* ================================================================== *)

(** [a] is [b] with some elements left out. *)
Inductive subseq : list str -> list str -> Prop :=
| subseq_nil : subseq [] []
| subseq_skip x a b : subseq a b -> subseq a (x :: b)
| subseq_take x a b : subseq a b -> subseq (x :: a) (x :: b).

Lemma subseq_refl (l : list str) : subseq l l.
Proof. induction l; constructor; assumption. Qed.

Lemma subseq_nil_l (l : list str) : subseq [] l.
Proof. induction l; constructor; assumption. Qed.

Lemma subseq_app_same (a b l : list str) : subseq a b -> subseq (a ++ l) (b ++ l).
Proof. induction 1; simpl; [apply subseq_refl|now constructor|now constructor]. Qed.

Lemma subseq_app_more (a b ins : list str) : subseq a b -> subseq a (b ++ ins).
Proof. induction 1; simpl; [apply subseq_nil_l|now constructor|now constructor]. Qed.

(** The lines of a file that are not audit comments, in order. *)
Definition kept_of (lines : list str) : list str :=
  filter (fun l => negb (line_is_a_translation_audit_comment l)) lines.

Definition has_audit_comment (lines : list str) : bool :=
  existsb line_is_a_translation_audit_comment lines.

Section Carries.

Variable safe_load : str -> result value.
Variable unicode_yaml_file : bool.
Variable english_lines : list str.
Variable untranslated : list (str * nat).
Variable extra : list str.
Variable differences : list str.

(** How the written lines relate to the lines taken from the translated
    file: [subseq] in general, equality when the pass has nothing to say. *)
Variable R : list str -> list str -> Prop.
Hypothesis R_app : forall a b l, R a b -> R (a ++ l) (b ++ l).

Definition absorbs : Prop := forall a b ins, R a b -> R a (b ++ ins).

Definition quiet (st : rw_state) : Prop :=
  rule_missing_in_translated_file_after st = [] /\
  untranslated = [] /\ extra = [] /\ differences = [] /\
  total_new_comments st = 0.

Definition carries (st : rw_state) (kept : list str) (flag : bool) : Prop :=
  contains_audit_comments st = flag /\
  (exists o, R o (out_file st) /\ o ++ buffered_lines st = kept) /\
  (absorbs \/ quiet st).

Definition run_carries (r : run) (kept : list str) (flag : bool) : Prop :=
  match r with
  | Done st => carries st kept flag
  | Failed _ _ => True
  end.

Lemma and_then_carries (r : run) (f : rw_state -> run) (kept kept' : list str)
  (flag flag' : bool) :
  run_carries r kept flag ->
  (forall st, carries st kept flag -> run_carries (f st) kept' flag') ->
  run_carries (and_then r f) kept' flag'.
Proof. destruct r; simpl; auto. Qed.

Lemma carries_same (st st' : rw_state) (kept : list str) (flag : bool) :
  contains_audit_comments st' = contains_audit_comments st ->
  out_file st' = out_file st ->
  buffered_lines st' = buffered_lines st ->
  rule_missing_in_translated_file_after st' = rule_missing_in_translated_file_after st ->
  total_new_comments st' = total_new_comments st ->
  carries st kept flag -> carries st' kept flag.
Proof.
  intros Ha Ho Hb Hm Hc (Hflag & (o & HR & Hk) & Hmode).
  split; [congruence|]. split.
  - exists o. rewrite Ho, Hb. now split.
  - destruct Hmode as [Habs|(Hq1 & Hq2 & Hq3 & Hq4 & Hq5)]; [now left|right].
    unfold quiet. rewrite Hm, Hc. auto.
Qed.

Lemma carries_absorbs_same (st st' : rw_state) (kept : list str) (flag : bool) :
  absorbs ->
  contains_audit_comments st' = contains_audit_comments st ->
  out_file st' = out_file st ->
  buffered_lines st' = buffered_lines st ->
  carries st kept flag -> carries st' kept flag.
Proof.
  intros Habs Ha Ho Hb (Hflag & (o & HR & Hk) & _).
  split; [congruence|]. split; [|now left].
  exists o. rewrite Ho, Hb. now split.
Qed.

(** Lines leave the buffer for the file. *)
Lemma carries_move (st : rw_state) (ls rest kept : list str) (flag : bool) :
  buffered_lines st = ls ++ rest ->
  carries st kept flag ->
  carries (set_buffered_lines rest (write ls st)) kept flag.
Proof.
  intros Hbuf (Hflag & (o & HR & Hk) & Hmode).
  split; [exact Hflag|]. split.
  - exists (o ++ ls). simpl. split; [now apply R_app|].
    rewrite <- app_assoc, <- Hbuf. exact Hk.
  - destruct Hmode as [Habs|Hq]; [now left|right]. exact Hq.
Qed.

(** A line of the translated file enters the buffer. *)
Lemma carries_append (st : rw_state) (line : str) (kept : list str) (flag : bool) :
  carries st kept flag ->
  carries (set_buffered_lines (buffered_lines st ++ [line]) st) (kept ++ [line]) flag.
Proof.
  intros (Hflag & (o & HR & Hk) & Hmode).
  split; [exact Hflag|]. split.
  - exists o. simpl. split; [exact HR|]. now rewrite app_assoc, Hk.
  - destruct Hmode as [Habs|Hq]; [now left|right]. exact Hq.
Qed.

(** Lines that do not come from the translated file are written. *)
Lemma carries_insert (st : rw_state) (ins kept : list str) (flag : bool) :
  absorbs -> carries st kept flag -> carries (write ins st) kept flag.
Proof.
  intros Habs (Hflag & (o & HR & Hk) & _).
  split; [exact Hflag|]. split; [|now left].
  exists o. simpl. split; [now apply Habs|exact Hk].
Qed.

Lemma write_any_leading_blank_lines_carries (st : rw_state) (kept : list str)
  (flag : bool) :
  carries st kept flag -> carries (write_any_leading_blank_lines st) kept flag.
Proof.
  intros H. unfold write_any_leading_blank_lines.
  pose proof (leading_blank_lines_split (buffered_lines st)) as Hsplit.
  destruct (leading_blank_lines (buffered_lines st)) as [blank rest].
  simpl in Hsplit. now apply carries_move.
Qed.

Lemma slice_del_upto (n : option nat) (l : list str) :
  l = slice_upto n l ++ del_upto n l.
Proof.
  destruct n as [n|]; simpl; [now rewrite firstn_skipn|now rewrite app_nil_r].
Qed.

Lemma flush_previous_rule_carries (st : rw_state) (kept : list str) (flag : bool) :
  carries st kept flag -> carries (flush_previous_rule st) kept flag.
Proof.
  intros H. unfold flush_previous_rule.
  destruct (_ && _); [|exact H].
  eapply carries_same; [| | | | |eapply carries_move; [apply slice_del_upto|exact H]];
    reflexivity.
Qed.

Lemma write_missing_lines_carries (k : str) (missing_lines : list str) :
  absorbs ->
  forall comment_added st kept flag,
    carries st kept flag ->
    run_carries (write_missing_lines unicode_yaml_file k missing_lines comment_added st)
      kept flag.
Proof.
  intros Habs.
  induction missing_lines as [|l rest IH]; intros comment_added st kept flag H;
    [exact H|].
  cbn [write_missing_lines].
  destruct (negb comment_added && _).
  - assert (H1 : carries (if is_none (current_rule_key st)
                          then write [[10%N]] st else st) kept flag).
    { destruct (is_none _); [now apply carries_insert|exact H]. }
    destruct (indentation _) as [n|]; [|exact I].
    apply IH. apply carries_insert; [exact Habs|].
    eapply carries_absorbs_same;
      [exact Habs| | | |apply (carries_insert [new_rule_comment n k] Habs H1)];
      reflexivity.
  - apply IH. now apply carries_insert.
Qed.

Lemma insert_missing_rules_carries (fuel : nat) :
  forall st kept flag,
    carries st kept flag ->
    run_carries (insert_missing_rules safe_load unicode_yaml_file english_lines fuel st)
      kept flag.
Proof.
  induction fuel as [|fuel IH]; intros st kept flag H; simpl.
  - destruct (dict_find _ _ _); exact H.
  - destruct (dict_find option_str_eqb (current_rule_key st)
                (rule_missing_in_translated_file_after st)) as [k|] eqn:Ef;
      [|exact H].
    pose proof H as (_ & _ & [Habs|(Hq & _)]).
    + destruct (grab_missing_rule_lines _ _ _ _) as [missing_lines|e]; [|exact I].
      apply and_then_carries with (kept := kept) (flag := flag).
      * now apply write_missing_lines_carries.
      * intros st' H'. apply IH.
        eapply carries_absorbs_same; [exact Habs| | | |exact H']; reflexivity.
    + rewrite Hq in Ef. discriminate.
Qed.

Lemma rw_boundary_carries (st : rw_state) (line : str) (kept : list str) (flag : bool) :
  carries st kept flag ->
  run_carries (rw_boundary safe_load unicode_yaml_file english_lines st line) kept flag.
Proof.
  intros H. unfold rw_boundary.
  destruct (starts_sequence_item line); [|exact H].
  assert (H1 : carries (if is_none (indentation st)
                        then set_indentation (Some (indent_of line)) st else st)
                 kept flag).
  { destruct (is_none _); [|exact H].
    eapply carries_same; [| | | | |exact H]; reflexivity. }
  destruct (option_nat_eqb _ _); [|exact H1].
  apply and_then_carries with (kept := kept) (flag := flag).
  - unfold follow_insertion_chain.
    apply insert_missing_rules_carries. now apply flush_previous_rule_carries.
  - intros st' H'. simpl.
    eapply carries_same; [| | | | |exact H']; reflexivity.
Qed.

Lemma rw_buffer_carries (st : rw_state) (line : str) (kept : list str) (flag : bool) :
  carries st kept flag -> carries (rw_buffer st line) (kept ++ [line]) flag.
Proof.
  intros H. unfold rw_buffer.
  pose proof (carries_append line H) as H1.
  destruct (_ && _); [|exact H1].
  eapply carries_same; [| | | | |exact H1]; reflexivity.
Qed.

Lemma annotation_carries (st : rw_state) (kept : list str) (flag : bool) (line : str) :
  absorbs -> carries st kept flag ->
  carries (write [line] (write_any_leading_blank_lines st)) kept flag.
Proof.
  intros Habs H. apply carries_insert; [exact Habs|].
  now apply write_any_leading_blank_lines_carries.
Qed.

Lemma rw_annotate_carries (n : nat) (st : rw_state) (kept : list str) (flag : bool) :
  carries st kept flag ->
  carries (rw_annotate untranslated extra differences n st) kept flag.
Proof.
  intros Hinv. unfold rw_annotate.
  set (st1 := match buffered_line_containing_name_key st with
              | Some i => if Nat.ltb 1 i
                          then set_buffered_lines (skipn (i - 1) (buffered_lines st))
                                 (write (firstn (i - 1) (buffered_lines st)) st)
                          else st
              | None => st
              end).
  assert (H1 : carries st1 kept flag).
  { subst st1.
    destruct (buffered_line_containing_name_key st) as [i|]; [|exact Hinv].
    destruct (Nat.ltb 1 i); [|exact Hinv].
    apply carries_move; [|exact Hinv]. now rewrite firstn_skipn. }
  set (st2 := set_buffered_line_containing_name_key None st1).
  assert (H2 : carries st2 kept flag).
  { eapply carries_same; [| | | | |exact H1]; reflexivity. }
  clearbody st2. clear H1 st1 Hinv.
  set (st3 := match current_rule_key st2 with
              | Some k =>
                  match dict_find str_eqb k untranslated with
                  | Some count =>
                      set_count_of_needs_translation_comments
                        (S (count_of_needs_translation_comments
                              (write_any_leading_blank_lines st2)))
                        (write [needs_translation_comment n k count]
                           (write_any_leading_blank_lines st2))
                  | None => st2
                  end
              | None => st2
              end).
  assert (H3 : carries st3 kept flag).
  { subst st3. destruct (current_rule_key st2) as [k|]; [|exact H2].
    destruct (dict_find str_eqb k untranslated) as [count|] eqn:Ef; [|exact H2].
    pose proof H2 as (_ & _ & [Habs|(_ & Hu & _)]).
    - apply carries_absorbs_same
        with (st := write [needs_translation_comment n k count] (write_any_leading_blank_lines st2));
        [exact Habs|reflexivity|reflexivity|reflexivity|
         now apply annotation_carries].
    - rewrite Hu in Ef. discriminate. }
  clearbody st3. clear H2 st2.
  set (st4 := match current_rule_key st3 with
              | Some k =>
                  if mem k extra then
                    set_count_of_rule_not_in_english_file_comments
                      (S (count_of_rule_not_in_english_file_comments
                            (write_any_leading_blank_lines st3)))
                      (write [not_in_english_comment n k]
                         (write_any_leading_blank_lines st3))
                  else st3
              | None => st3
              end).
  assert (H4 : carries st4 kept flag).
  { subst st4. destruct (current_rule_key st3) as [k|]; [|exact H3].
    destruct (mem k extra) eqn:Em; [|exact H3].
    pose proof H3 as (_ & _ & [Habs|(_ & _ & He & _)]).
    - apply carries_absorbs_same
        with (st := write [not_in_english_comment n k] (write_any_leading_blank_lines st3));
        [exact Habs|reflexivity|reflexivity|reflexivity|
         now apply annotation_carries].
    - rewrite He in Em. discriminate. }
  clearbody st4. clear H3 st3.
  destruct (current_rule_key st4) as [k|]; [|exact H4].
  destruct (mem k differences) eqn:Em; [|exact H4].
  pose proof H4 as (_ & _ & [Habs|(_ & _ & _ & Hd & _)]).
  - apply carries_absorbs_same
        with (st := write [has_differences_comment n k] (write_any_leading_blank_lines st4));
        [exact Habs|reflexivity|reflexivity|reflexivity|
         now apply annotation_carries].
  - rewrite Hd in Em. discriminate.
Qed.

Lemma rw_detect_carries (st : rw_state) (line : str) (kept : list str) (flag : bool) :
  carries st kept flag ->
  run_carries (rw_detect safe_load unicode_yaml_file untranslated extra differences
                 st line) kept flag.
Proof.
  intros H. unfold rw_detect.
  destruct (indentation st) as [n|]; [|exact H].
  destruct (is_none _); [|exact H].
  destruct unicode_yaml_file.
  - cbn [found_name_key set_current_rule_key].
    destruct (found_name_key st && line_has_tag_key line).
    + destruct (get_rule_key_from_buffered_lines _ _) as [k|e]; [|exact I].
      apply rw_annotate_carries.
      eapply carries_same; [| | | | |exact H]; reflexivity.
    + apply rw_annotate_carries.
      eapply carries_same; [| | | | |exact H]; reflexivity.
  - destruct (line_has_name_key line).
    + cbn [found_name_key set_found_name_key set_buffered_line_containing_name_key andb].
      destruct (line_has_tag_key line).
      * destruct (get_rule_key_from_buffered_lines _ _) as [k|e]; [|exact I].
        apply rw_annotate_carries.
        eapply carries_same; [| | | | |exact H]; reflexivity.
      * eapply carries_same; [| | | | |exact H]; reflexivity.
    + destruct (found_name_key st && line_has_tag_key line).
      * destruct (get_rule_key_from_buffered_lines _ _) as [k|e]; [|exact I].
        apply rw_annotate_carries.
        eapply carries_same; [| | | | |exact H]; reflexivity.
      * exact H.
Qed.

Lemma rw_step_carries (st : rw_state) (line : str) (kept : list str) (flag : bool) :
  carries st kept flag ->
  run_carries (rw_step safe_load unicode_yaml_file english_lines
                 untranslated extra differences st line)
    (kept ++ kept_of [line]) (flag || line_is_a_translation_audit_comment line).
Proof.
  intros H. unfold rw_step, kept_of. cbn [filter].
  destruct (line_is_a_translation_audit_comment line) eqn:Ea; cbn [negb].
  - rewrite app_nil_r, orb_true_r. simpl.
    destruct H as (Hflag & Hrest & Hmode). split; [reflexivity|]. split; assumption.
  - rewrite orb_false_r. unfold rw_document_start.
    destruct (past_start_of_document st) eqn:Ep; cbn [negb].
    + rewrite Ep. cbn [andb].
      apply and_then_carries with (kept := kept) (flag := flag);
        [now apply rw_boundary_carries|].
      intros st' H'. apply rw_detect_carries. now apply rw_buffer_carries.
    + destruct (negb (line_is_a_normal_comment line)
                && negb (line_is_start_of_document line)).
      * cbn [past_start_of_document set_buffered_lines set_past_start_of_document andb].
        apply and_then_carries with (kept := kept) (flag := flag).
        -- apply rw_boundary_carries.
           eapply carries_same;
             [| | | | |apply (@carries_move st (buffered_lines st) [] kept flag);
                        [now rewrite app_nil_r|exact H]]; reflexivity.
        -- intros st' H'. apply rw_detect_carries. now apply rw_buffer_carries.
      * cbn [past_start_of_document set_buffered_lines]. rewrite Ep. cbn [andb].
        now apply carries_append.
Qed.

Lemma rw_loop_carries (lines : list str) :
  forall st processed,
    carries st (kept_of processed) (has_audit_comment processed) ->
    run_carries (rw_loop safe_load unicode_yaml_file english_lines
                   untranslated extra differences lines st)
      (kept_of (processed ++ lines)) (has_audit_comment (processed ++ lines)).
Proof.
  induction lines as [|line rest IH]; intros st processed H.
  - rewrite app_nil_r. exact H.
  - simpl. eapply and_then_carries; [apply rw_step_carries; exact H|].
    intros st' H'.
    replace (processed ++ line :: rest) with ((processed ++ [line]) ++ rest)
      by now rewrite <- app_assoc.
    apply IH.
    unfold kept_of, has_audit_comment in *.
    rewrite filter_app, existsb_app. cbn [existsb]. now rewrite orb_false_r.
Qed.

Lemma rw_end_of_file_carries (st st' : rw_state) (kept : list str) (flag : bool) :
  carries st kept flag ->
  rw_end_of_file safe_load unicode_yaml_file english_lines st = Done st' ->
  R kept (out_file st') /\ contains_audit_comments st' = flag /\
  (absorbs \/ quiet st').
Proof.
  intros H Hend. unfold rw_end_of_file in Hend.
  set (r := if dict_has option_str_eqb (current_rule_key st)
                 (rule_missing_in_translated_file_after st)
            then _ else Done st) in Hend.
  assert (Hr : run_carries r kept flag).
  { subst r. destruct (dict_has _ _ _); [|exact H].
    unfold follow_insertion_chain. apply insert_missing_rules_carries.
    eapply carries_same;
      [| | | | |eapply carries_move; [apply slice_del_upto|exact H]]; reflexivity. }
  destruct r as [st1|st1 e]; [|discriminate].
  simpl in Hend, Hr. inversion Hend; subst; clear Hend.
  destruct Hr as (Hflag & (o & HR & Hk) & Hmode).
  destruct (Nat.ltb 0 (length (buffered_lines st1))) eqn:El.
  - simpl. split; [|split; [exact Hflag|]].
    + rewrite <- Hk. now apply R_app.
    + destruct Hmode as [Habs|Hq]; [now left|right; exact Hq].
  - apply Nat.ltb_ge in El.
    destruct (buffered_lines st1); [|simpl in El; lia].
    rewrite app_nil_r in Hk. subst o. auto.
Qed.

Lemma rewrite_pass_carries (missing : list (option str * str))
  (translated_lines : list str) (st : rw_state) :
  absorbs \/ (missing = [] /\ untranslated = [] /\ extra = [] /\ differences = []) ->
  R [] [] ->
  rewrite_pass safe_load unicode_yaml_file english_lines untranslated extra
    differences missing translated_lines = Done st ->
  R (kept_of translated_lines) (out_file st) /\
  contains_audit_comments st = has_audit_comment translated_lines /\
  (absorbs \/ quiet st).
Proof.
  intros Hmode Hnil Hpass. unfold rewrite_pass in Hpass.
  assert (Hinit : carries (rw_init missing) (kept_of []) (has_audit_comment [])).
  { split; [reflexivity|]. split; [exists []; now split|].
    destruct Hmode as [Habs|(Hm & Hu & He & Hd)]; [now left|right].
    unfold quiet. simpl. auto. }
  pose proof (@rw_loop_carries translated_lines (rw_init missing) [] Hinit) as Hloop.
  destruct (rw_loop _ _ _ _ _ _ _ _) as [st1|st1 e]; [|discriminate].
  simpl in Hloop, Hpass.
  eapply rw_end_of_file_carries; eauto.
Qed.

End Carries.


(** X10: a pass with nothing to say (no rule untranslated, missing, extra
    or different) that ends normally writes the translated file without
    its audit comments, line for line, and counts no new comment. *)
Theorem quiet_pass_only_drops_audit_comments
  (safe_load : str -> result value) (unicode : bool)
  (english_lines translated_lines : list str) (st : rw_state) :
  rewrite_pass safe_load unicode english_lines [] [] [] [] translated_lines = Done st ->
  out_file st = kept_of translated_lines /\
  total_new_comments st = 0 /\
  contains_audit_comments st = has_audit_comment translated_lines.
Proof.
  intros H.
  destruct (@rewrite_pass_carries safe_load unicode english_lines [] [] []
              (fun a b => b = a) (fun a b l Hab => f_equal (fun x => x ++ l) Hab)
              [] translated_lines st)
    as (H1 & H2 & Hmode).
  - right. auto.
  - reflexivity.
  - exact H.
  - split; [exact H1|]. split; [|exact H2].
    destruct Hmode as [Habs|(_ & _ & _ & _ & Hc)]; [|exact Hc].
    exfalso. specialize (Habs [] [] [[10%N]] eq_refl). discriminate.
Qed.


Lemma quiet_pass_only_drops_audit_comments_witness :
  out_file (final_state
              (rewrite_pass no_parser true [] [] [] [] []
                 [ln "---"; ln " # [AUDIT] RULE 'a' NEEDS TRANSLATION OF 1 KEYS";
                  ln " - `a`: [T: `alfa`]"]))
  = kept_of [ln "---"; ln " # [AUDIT] RULE 'a' NEEDS TRANSLATION OF 1 KEYS";
             ln " - `a`: [T: `alfa`]"].
Proof.
  refine (proj1 (@quiet_pass_only_drops_audit_comments no_parser true []
                   [ln "---"; ln " # [AUDIT] RULE 'a' NEEDS TRANSLATION OF 1 KEYS";
                    ln " - `a`: [T: `alfa`]"]
                   (final_state
                      (rewrite_pass no_parser true [] [] [] [] []
                         [ln "---"; ln " # [AUDIT] RULE 'a' NEEDS TRANSLATION OF 1 KEYS";
                          ln " - `a`: [T: `alfa`]"]))
                   _)).
  vm_compute. reflexivity.
Defined.

Example quiet_pass_drops_the_annotation :
  kept_of [ln "---"; ln " # [AUDIT] RULE 'a' NEEDS TRANSLATION OF 1 KEYS";
           ln " - `a`: [T: `alfa`]"]
  = [ln "---"; ln " - `a`: [T: `alfa`]"].
Proof. vm_compute. reflexivity. Qed.

(* ================================================================== *)
(** * What a run leaves on the disk *)
(* ================================================================== *)

Section DiskAfter.

Variable safe_load : str -> result value.

Lemma backup_name_is_new (filename : str) (fs : files) (p : str) (c : list str) :
  dict_find str_eqb p fs = Some c ->
  p <> backup_search (length fs) fs filename (filename ++ lit ".bak") 2.
Proof.
  intros Hp Heq.
  destruct (backup_search_fresh fs filename) as (j & Hj & Hfresh).
  rewrite Hj in Heq. apply path_exists_find in Hfresh.
  rewrite <- Heq in Hfresh. congruence.
Qed.

Lemma replace_or_discard_keeps (a : args) (w : world) (fs : files) (st : rw_state)
  (p : str) (c : list str) :
  p <> translated_rules a ->
  p <> temp_file_name w ->
  dict_find str_eqb p fs = Some c ->
  dict_find str_eqb p (disk_after (replace_or_discard a w fs st)) = Some c.
Proof.
  intros Htr Htemp Hp. unfold replace_or_discard. cbv zeta.
  pose proof (backup_name_is_new (translated_rules a) fs Hp) as Hbak.
  destruct (_ || _).
  - unfold backup_file, os_rename.
    destruct (dict_find str_eqb (translated_rules a) fs) as [original|];
      [|exact Hp].
    destruct (dict_find str_eqb (temp_file_name w) _) as [content|];
      cbn [disk_after].
    + rewrite find_set_other by exact Htr.
      rewrite find_del_other by exact Htemp.
      rewrite find_set_other by exact Hbak.
      rewrite find_del_other by exact Htr. exact Hp.
    + rewrite find_set_other by exact Hbak.
      rewrite find_del_other by exact Htr. exact Hp.
  - destruct (match temp_file_name w with [] => false | _ => _ end);
      [|exact Hp].
    unfold os_remove. destruct (path_exists _ _); cbn [disk_after]; [|exact Hp].
    rewrite find_del_other by exact Htemp. exact Hp.
Qed.

Lemma create_new_version_keeps (a : args) (w : world)
  (english_lines translated_lines : list str) (v : verdicts) (p : str) (c : list str) :
  p <> translated_rules a ->
  p <> temp_file_name w ->
  dict_find str_eqb p (disk w) = Some c ->
  dict_find str_eqb p
    (disk_after (create_new_version safe_load a w english_lines translated_lines v))
  = Some c.
Proof.
  intros Htr Htemp Hp. unfold create_new_version. cbv zeta.
  destruct (rewrite_pass _ _ _ _ _ _ _ _) as [st|st e]; cbn [disk_after].
  - apply replace_or_discard_keeps; [exact Htr|exact Htemp|].
    now rewrite !find_set_other by exact Htemp.
  - now rewrite !find_set_other by exact Htemp.
Qed.

Lemma main_disk_cases (a : args) (w : world) :
  disk_after (main safe_load a w) = disk w \/
  exists english_lines translated_lines v,
    dict_find str_eqb (translated_rules a) (disk w) = Some translated_lines /\
    disk_after (main safe_load a w)
    = disk_after (create_new_version safe_load a w english_lines translated_lines v).
Proof.
  unfold main, load_both, open_file.
  destruct (dict_find str_eqb (english_rules a) (disk w)) as [english_lines|];
    [|now left].
  destruct (dict_find str_eqb (translated_rules a) (disk w)) as [translated_lines|];
    [|now left].
  cbn [bind].
  destruct (parse_rules safe_load english_lines) as [english|e]; [|now left].
  cbn [bind].
  destruct (parse_rules safe_load translated_lines) as [translated|e]; [|now left].
  cbn [bind].
  destruct (audit _ _ _) as [printed [v|e]]; [|now left].
  destruct (mode a); [now left|].
  right. exists english_lines, translated_lines, v. now split.
Qed.

End DiskAfter.

(** X11: whatever a run does and however it ends, a file that was on the
    disk under a name other than the translated file's and the temporary
    file's is on the disk afterwards with the same lines: the back-up never
    takes the name of an existing file, and the English file is only
    read. *)
Theorem run_keeps_other_files
  (safe_load : str -> result value) (a : args) (w : world) (p : str) (c : list str) :
  p <> translated_rules a ->
  p <> temp_file_name w ->
  dict_find str_eqb p (disk w) = Some c ->
  dict_find str_eqb p (disk_after (main safe_load a w)) = Some c.
Proof.
  intros Htr Htemp Hp.
  destruct (main_disk_cases safe_load a w)
    as [->|(english_lines & translated_lines & v & _ & ->)]; [exact Hp|].
  now apply create_new_version_keeps.
Qed.

Lemma run_keeps_other_files_witness :
  dict_find str_eqb (lit "en/unicode.yaml")
    (disk_after (main GreekRun.yaml GreekRun.the_args GreekRun.the_world))
  = Some GreekRun.english_file.
Proof.
  apply (@run_keeps_other_files GreekRun.yaml GreekRun.the_args GreekRun.the_world
           (lit "en/unicode.yaml") GreekRun.english_file).
  - vm_compute. discriminate.
  - vm_compute. discriminate.
  - reflexivity.
Defined.

Section OriginalKept.

Variable safe_load : str -> result value.

Lemma replace_or_discard_keeps_original (a : args) (w : world) (fs : files)
  (st : rw_state) (original : list str) :
  temp_file_name w <> translated_rules a ->
  dict_find str_eqb (translated_rules a) fs = Some original ->
  (exists content, dict_find str_eqb (temp_file_name w) fs = Some content) ->
  exists q, dict_find str_eqb q (disk_after (replace_or_discard a w fs st))
            = Some original.
Proof.
  intros Hne Htr (content & Htemp). unfold replace_or_discard. cbv zeta.
  pose proof (backup_name_is_new (translated_rules a) fs Htr) as Hbak_tr.
  pose proof (backup_name_is_new (translated_rules a) fs Htemp) as Hbak_temp.
  destruct (_ || _).
  - unfold backup_file, os_rename. rewrite Htr.
    exists (backup_search (length fs) fs (translated_rules a)
              (translated_rules a ++ lit ".bak") 2).
    assert (Hfs1 : dict_find str_eqb (temp_file_name w)
                     (dict_set str_eqb
                        (backup_search (length fs) fs (translated_rules a)
                           (translated_rules a ++ lit ".bak") 2)
                        original (dict_del str_eqb (translated_rules a) fs))
                   = Some content).
    { rewrite find_set_other by exact Hbak_temp.
      rewrite find_del_other by exact Hne. exact Htemp. }
    rewrite Hfs1. cbn [disk_after].
    rewrite find_set_other by congruence.
    rewrite find_del_other by congruence.
    apply find_set_same.
  - exists (translated_rules a).
    destruct (match temp_file_name w with [] => false | _ => _ end);
      [|exact Htr].
    unfold os_remove. destruct (path_exists _ _); cbn [disk_after]; [|exact Htr].
    rewrite find_del_other by congruence. exact Htr.
Qed.

End OriginalKept.

(** X12: the lines of the translated file are never lost.  When the
    temporary name differs from the translated file's name, then however
    the run ends (normally, on an exception of the parser or of the pass,
    on the stop for duplicate keys), the disk it leaves has a file with
    the lines the translated file had before the run. *)
Theorem original_is_never_lost
  (safe_load : str -> result value) (a : args) (w : world) (original : list str) :
  temp_file_name w <> translated_rules a ->
  dict_find str_eqb (translated_rules a) (disk w) = Some original ->
  exists q, dict_find str_eqb q (disk_after (main safe_load a w)) = Some original.
Proof.
  intros Hne Htr.
  destruct (main_disk_cases safe_load a w)
    as [->|(english_lines & translated_lines & v & _ & ->)];
    [now exists (translated_rules a)|].
  unfold create_new_version. cbv zeta.
  destruct (rewrite_pass _ _ _ _ _ _ _ _) as [st|st e]; cbn [disk_after].
  - apply replace_or_discard_keeps_original; [exact Hne| |].
    + now rewrite !find_set_other by congruence.
    + eexists. apply find_set_same.
  - exists (translated_rules a). now rewrite !find_set_other by congruence.
Qed.

Lemma original_is_never_lost_witness :
  exists q,
    dict_find str_eqb q
      (disk_after (main GreekRun.yaml GreekRun.the_args GreekRun.the_world))
    = Some GreekRun.translated_file.
Proof.
  apply (@original_is_never_lost GreekRun.yaml GreekRun.the_args GreekRun.the_world
           GreekRun.translated_file).
  - vm_compute. discriminate.
  - reflexivity.
Defined.

(* ================================================================== *)
(** * The registries and the reports on files without duplicate keys *)
(* ================================================================== *)

Section Registry.

Local Open Scope py_scope.

Variable unicode_yaml_file : bool.

(** The rules of a file that have a key, each with its key, in file
    order. *)
Fixpoint keyed_rules (rules : list value) : result (list (str * value)) :=
  match rules with
  | [] => Ok []
  | rule :: rest =>
      key <- derive_key unicode_yaml_file rule ;;
      kr <- keyed_rules rest ;;
      Ok (match key with Some k => (k, rule) :: kr | None => kr end)
  end.

(** Each key with the key before it, [prev] before the first. *)
Fixpoint after_each (prev : option str) (ks : list str) : list (str * option str) :=
  match ks with
  | [] => []
  | k :: r => (k, prev) :: after_each (Some k) r
  end.

Definition last_key (prev : option str) (ks : list str) : option str :=
  last (map Some ks) prev.

Definition empty_registry : english_registry :=
  {| english_dict := []; english_dict_occurs_after := [];
     previous_rule_key := None; duplicate_keys_in_english_file := false |}.

Lemma last_cons (A : Type) (l : list A) : forall x d, last (x :: l) d = last l x.
Proof.
  induction l as [|a l IH]; intros x d; [reflexivity|].
  change (last (x :: a :: l) d) with (last (a :: l) d). now rewrite !IH.
Qed.

Lemma after_each_keys (ks : list str) : forall prev, map fst (after_each prev ks) = ks.
Proof. induction ks as [|k r IH]; intros prev; simpl; [reflexivity|now rewrite IH]. Qed.

Lemma register_english_distinct (rules : list value) :
  forall kr r,
    keyed_rules rules = Ok kr ->
    NoDup (keys (english_dict r) ++ map fst kr) ->
    map fst (english_dict_occurs_after r) = keys (english_dict r) ->
    register_english unicode_yaml_file rules r
    = ([], Ok {| english_dict := english_dict r ++ kr;
                 english_dict_occurs_after :=
                   english_dict_occurs_after r
                   ++ after_each (previous_rule_key r) (map fst kr);
                 previous_rule_key := last_key (previous_rule_key r) (map fst kr);
                 duplicate_keys_in_english_file := duplicate_keys_in_english_file r |}).
Proof.
  induction rules as [|rule rest IH]; intros kr r Hk Hnd Hocc.
  - simpl in Hk. inversion Hk; subst. destruct r. simpl. now rewrite !app_nil_r.
  - simpl in Hk. cbn [register_english].
    destruct (derive_key unicode_yaml_file rule) as [key|e]; [|discriminate].
    destruct (keyed_rules rest) as [kr'|e] eqn:Erest; [|discriminate].
    simpl in Hk. inversion Hk; subst; clear Hk.
    unfold lift. cbn [then_ app].
    destruct key as [k|].
    + cbn [map fst] in Hnd.
      assert (Hfresh : ~ In k (keys (english_dict r))).
      { intros Hin. apply NoDup_remove_2 in Hnd. apply Hnd.
        apply in_or_app. now left. }
      assert (Hfind : dict_find str_eqb k (english_dict r) = None)
        by now apply find_none_iff.
      assert (Hfind' : dict_find str_eqb k (english_dict_occurs_after r) = None).
      { apply find_none_iff. now rewrite Hocc. }
      unfold dict_has. rewrite Hfind.
      rewrite (set_fresh _ _ _ Hfind), (set_fresh _ _ _ Hfind').
      rewrite (IH kr' _ eq_refl).
      * cbn [english_dict english_dict_occurs_after previous_rule_key
               duplicate_keys_in_english_file after_each map fst].
        unfold last_key. cbn [map]. rewrite last_cons.
        now rewrite <- !app_assoc.
      * cbn [english_dict]. unfold keys in *. rewrite map_app, <- app_assoc. exact Hnd.
      * cbn [english_dict english_dict_occurs_after]. unfold keys in *.
        rewrite !map_app, Hocc. reflexivity.
    + now rewrite (IH kr' r eq_refl Hnd Hocc).
Qed.

Lemma register_english_from_empty (rules : list value) (kr : list (str * value)) :
  keyed_rules rules = Ok kr ->
  NoDup (map fst kr) ->
  register_english unicode_yaml_file rules empty_registry
  = ([], Ok {| english_dict := kr;
               english_dict_occurs_after := after_each None (map fst kr);
               previous_rule_key := last_key None (map fst kr);
               duplicate_keys_in_english_file := false |}).
Proof.
  intros Hk Hnd.
  now rewrite (@register_english_distinct rules kr empty_registry Hk Hnd eq_refl).
Qed.

Lemma register_translated_distinct (rules : list value) :
  forall kr translated_dict flag,
    keyed_rules rules = Ok kr ->
    NoDup (keys translated_dict ++ map fst kr) ->
    register_translated unicode_yaml_file rules translated_dict flag
    = ([], Ok (translated_dict ++ kr, flag)).
Proof.
  induction rules as [|rule rest IH]; intros kr translated_dict flag Hk Hnd.
  - simpl in Hk. inversion Hk; subst. simpl. now rewrite app_nil_r.
  - simpl in Hk. cbn [register_translated].
    destruct (derive_key unicode_yaml_file rule) as [key|e]; [|discriminate].
    destruct (keyed_rules rest) as [kr'|e] eqn:Erest; [|discriminate].
    simpl in Hk. inversion Hk; subst; clear Hk.
    unfold lift. cbn [then_ app].
    destruct key as [k|].
    + cbn [map fst] in Hnd.
      assert (Hfresh : ~ In k (keys translated_dict)).
      { intros Hin. apply NoDup_remove_2 in Hnd. apply Hnd.
        apply in_or_app. now left. }
      assert (Hfind : dict_find str_eqb k translated_dict = None)
        by now apply find_none_iff.
      unfold dict_has. rewrite Hfind.
      rewrite (set_fresh _ _ _ Hfind).
      rewrite (IH kr' _ _ eq_refl).
      * now rewrite <- app_assoc.
      * unfold keys in *. rewrite map_app, <- app_assoc. exact Hnd.
    + now rewrite (IH kr' translated_dict flag eq_refl Hnd).
Qed.

End Registry.

(** X13: on a file whose rules have pairwise distinct keys, the two
    registration loops print nothing and set no duplicate flag; the
    registries hold the rules under their keys in file order, and the
    English registry records for each key the key of the rule before it
    ([None] for the first). *)
Theorem registries_of_distinct_keys
  (unicode_yaml_file : bool) (rules : list value) (kr : list (str * value)) :
  keyed_rules unicode_yaml_file rules = Ok kr ->
  NoDup (map fst kr) ->
  register_english unicode_yaml_file rules empty_registry
  = ([], Ok {| english_dict := kr;
               english_dict_occurs_after := after_each None (map fst kr);
               previous_rule_key := last_key None (map fst kr);
               duplicate_keys_in_english_file := false |}) /\
  register_translated unicode_yaml_file rules [] false = ([], Ok (kr, false)).
Proof.
  intros Hk Hnd. split.
  - now apply register_english_from_empty.
  - now rewrite (@register_translated_distinct unicode_yaml_file rules kr [] false Hk Hnd).
Qed.

Lemma registries_of_distinct_keys_witness :
  register_english true
    [letter "a" "alpha"; letter "b" "beta"; letter "c" "gamma"] empty_registry
  = ([], Ok {| english_dict := [(lit "a", letter "a" "alpha");
                                (lit "b", letter "b" "beta");
                                (lit "c", letter "c" "gamma")];
               english_dict_occurs_after :=
                 after_each None
                   (map fst [(lit "a", letter "a" "alpha");
                             (lit "b", letter "b" "beta");
                             (lit "c", letter "c" "gamma")]);
               previous_rule_key :=
                 last_key None
                   (map fst [(lit "a", letter "a" "alpha");
                             (lit "b", letter "b" "beta");
                             (lit "c", letter "c" "gamma")]);
               duplicate_keys_in_english_file := false |}) /\
  register_translated true
    [letter "a" "alpha"; letter "b" "beta"; letter "c" "gamma"] [] false
  = ([], Ok ([(lit "a", letter "a" "alpha");
              (lit "b", letter "b" "beta");
              (lit "c", letter "c" "gamma")], false)).
Proof.
  apply (@registries_of_distinct_keys true
           [letter "a" "alpha"; letter "b" "beta"; letter "c" "gamma"]).
  - reflexivity.
  - apply nodupb_NoDup. reflexivity.
Defined.

Example predecessors_of_three_keys :
  after_each None [lit "a"; lit "b"; lit "c"]
  = [(lit "a", None); (lit "b", Some (lit "a")); (lit "c", Some (lit "b"))].
Proof. reflexivity. Qed.

Section Reports.

Lemma option_find_none (p : option str) (V : Type) (d : list (option str * V)) :
  ~ In p (map fst d) -> dict_find option_str_eqb p d = None.
Proof.
  induction d as [|[p0 v0] r IH]; simpl; intros H; [reflexivity|].
  destruct (option_str_eqb p p0) eqn:E.
  - apply option_str_eqb_eq in E. subst. exfalso. apply H. now left.
  - apply IH. tauto.
Qed.

Lemma option_set_fresh (p : option str) (V : Type) (v : V) (d : list (option str * V)) :
  ~ In p (map fst d) -> dict_set option_str_eqb p v d = d ++ [(p, v)].
Proof.
  induction d as [|[p0 v0] r IH]; simpl; intros H; [reflexivity|].
  destruct (option_str_eqb p p0) eqn:E.
  - apply option_str_eqb_eq in E. subst. exfalso. apply H. now left.
  - rewrite IH by tauto. reflexivity.
Qed.

Lemma find_In (V : Type) (k : str) (v : V) (d : list (str * V)) :
  NoDup (map fst d) -> In (k, v) d -> dict_find str_eqb k d = Some v.
Proof.
  induction d as [|[k0 v0] r IH]; simpl; intros Hnd Hin; [destruct Hin|].
  inversion Hnd as [|? ? Hnotin Hnd']; subst.
  destruct Hin as [Heq|Hin].
  - inversion Heq; subst. now rewrite str_eqb_refl.
  - destruct (str_eqb_spec k k0) as [->|Hne]; [|now apply IH].
    exfalso. apply Hnotin. change k0 with (fst (k0, v)). now apply in_map.
Qed.

Definition missing_line (rule_key : str) : msg :=
  [Txt (lit "Rule " ++ format_rule_key_for_display rule_key
        ++ lit " is missing in the translated file.")].

Definition extra_line (rule_key : str) : msg :=
  [Txt (lit "Warning: Rule " ++ format_rule_key_for_display rule_key
        ++ lit " in translated file is not in the English file.")].

Definition untranslated_line (rule_key : str) (n : nat) : msg :=
  [Txt (lit "Rule " ++ format_rule_key_for_display rule_key
        ++ lit " still contains " ++ dec_nat n ++ lit " key(s) needing translating.")].

(** The rules of the English file that the translated file lacks, each
    with the key before it in the English file. *)
Definition absent_from (translated_dict : list (str * value))
  (ps : list (str * option str)) : list (str * option str) :=
  filter (fun kp => negb (dict_has str_eqb (fst kp) translated_dict)) ps.

Definition after_to_missing (kp : str * option str) : option str * str :=
  (snd kp, fst kp).

Lemma report_missing_distinct (occurs_after : list (str * option str))
  (translated_dict : list (str * value)) (ps : list (str * option str)) :
  NoDup (map fst occurs_after) ->
  incl ps occurs_after ->
  forall missing,
    NoDup (map fst missing ++ map snd ps) ->
    report_missing (map fst ps) occurs_after translated_dict missing
    = (map (fun kp => missing_line (fst kp)) (absent_from translated_dict ps),
       Ok (missing ++ map after_to_missing (absent_from translated_dict ps))).
Proof.
  intros Hocc. induction ps as [|[k p] ps IH]; intros Hincl missing Hnd.
  - simpl. now rewrite app_nil_r.
  - cbn [map fst report_missing absent_from filter].
    assert (Hincl' : incl ps occurs_after)
      by (intros x Hx; apply Hincl; now right).
    cbn [map snd] in Hnd.
    destruct (dict_has str_eqb k translated_dict); cbn [negb].
    + apply IH; [exact Hincl'|]. now apply NoDup_remove_1 in Hnd.
    + rewrite (@find_In _ k p occurs_after Hocc) by (apply Hincl; now left).
      unfold print. cbn [then_ app].
      rewrite option_set_fresh.
      * fold (absent_from translated_dict ps).
        rewrite IH; [|exact Hincl'|].
        -- cbn [map fst after_to_missing snd]. unfold missing_line.
           now rewrite <- app_assoc.
        -- rewrite map_app, <- app_assoc. exact Hnd.
      * intros Hin. apply NoDup_remove_2 in Hnd. apply Hnd.
        apply in_or_app. now left.
Qed.

Lemma after_each_before (ks : list str) :
  forall prev,
    NoDup ks -> ~ In prev (map Some ks) ->
    NoDup (map snd (after_each prev ks)) /\
    forall q, In q (map snd (after_each prev ks)) -> q = prev \/ In q (map Some ks).
Proof.
  induction ks as [|k r IH]; intros prev Hnd Hprev; simpl;
    [split; [constructor|tauto]|].
  inversion Hnd as [|? ? Hnotin Hnd']; subst.
  assert (Hk : ~ In (Some k) (map Some r)).
  { intros Hin. apply in_map_iff in Hin as (x & Hx & Hin).
    inversion Hx; subst. contradiction. }
  destruct (IH (Some k) Hnd' Hk) as [Htail Hin_tail].
  split.
  - constructor; [|exact Htail].
    intros Hin. apply Hprev. simpl.
    destruct (Hin_tail _ Hin) as [->|Hr]; [now left|now right].
  - intros q [<-|Hq]; [now left|].
    right. destruct (Hin_tail _ Hq) as [->|Hr]; [now left|now right].
Qed.

Lemma report_missing_of_registry (ks : list str) (translated_dict : list (str * value)) :
  NoDup ks ->
  report_missing ks (after_each None ks) translated_dict []
  = (map (fun kp => missing_line (fst kp))
       (absent_from translated_dict (after_each None ks)),
     Ok (map after_to_missing (absent_from translated_dict (after_each None ks)))).
Proof.
  intros Hnd.
  rewrite <- (after_each_keys ks None) at 1.
  apply (@report_missing_distinct (after_each None ks) translated_dict
           (after_each None ks)).
  - now rewrite after_each_keys.
  - apply incl_refl.
  - simpl. apply after_each_before; [exact Hnd|].
    intros Hin. apply in_map_iff in Hin as (x & Hx & _). discriminate.
Qed.

Lemma report_extra_distinct (english_dict : list (str * value)) (tks : list str) :
  forall extra,
    NoDup (extra ++ tks) ->
    report_extra tks english_dict extra
    = (map extra_line
         (filter (fun k => negb (dict_has str_eqb k english_dict)) tks),
       Ok (extra ++ filter (fun k => negb (dict_has str_eqb k english_dict)) tks)).
Proof.
  induction tks as [|k r IH]; intros extra Hnd.
  - simpl. now rewrite app_nil_r.
  - cbn [report_extra filter].
    destruct (dict_has str_eqb k english_dict); cbn [negb].
    + apply IH. now apply NoDup_remove_1 in Hnd.
    + unfold print. cbn [then_ app].
      assert (Hk : mem k extra = false).
      { destruct (mem k extra) eqn:E; [|reflexivity].
        apply mem_In in E. apply NoDup_remove_2 in Hnd.
        exfalso. apply Hnd. apply in_or_app. now left. }
      rewrite Hk, IH.
      * cbn [map]. unfold extra_line. now rewrite <- app_assoc.
      * rewrite <- app_assoc. exact Hnd.
Qed.

(** The rules of the translated file that are mappings with a marker of a
    missing translation, each with its count. *)
Definition with_markers (items : list (str * value)) : list (str * nat) :=
  map (fun kv => (fst kv, count_untranslated (snd kv)))
    (filter (fun kv => is_dict (snd kv) && Nat.ltb 0 (count_untranslated (snd kv)))
       items).

Lemma with_markers_keys (items : list (str * value)) :
  incl (map fst (with_markers items)) (map fst items).
Proof.
  unfold with_markers. induction items as [|[k v] r IH]; simpl; [apply incl_refl|].
  destruct (_ && _); simpl.
  - intros x [<-|Hx]; [now left|right; now apply IH].
  - now apply incl_tl.
Qed.

Lemma report_untranslated_distinct (items : list (str * value)) :
  forall acc,
    NoDup (map fst acc ++ map fst items) ->
    report_untranslated items acc
    = (map (fun kn => untranslated_line (fst kn) (snd kn)) (with_markers items),
       Ok (acc ++ with_markers items)).
Proof.
  induction items as [|[k v] r IH]; intros acc Hnd.
  - simpl. now rewrite app_nil_r.
  - cbn [report_untranslated with_markers filter map fst snd] in *.
    destruct (is_dict v && Nat.ltb 0 (count_untranslated v)).
    + unfold print. cbn [then_ app].
      rewrite set_fresh.
      * fold (with_markers r). rewrite IH.
        -- cbn [map fst snd]. unfold untranslated_line. now rewrite <- app_assoc.
        -- rewrite map_app, <- app_assoc. exact Hnd.
      * apply find_none_iff. intros Hin. apply NoDup_remove_2 in Hnd. apply Hnd.
        apply in_or_app. now left.
    + fold (with_markers r). apply IH. now apply NoDup_remove_1 in Hnd.
Qed.

End Reports.

(** X14: for an English file whose rules have pairwise distinct keys, the
    report of missing rules raises no [KeyError] and loses no rule: it
    prints one line for each English rule that the translated file lacks,
    in file order, and records each such rule under the key of the rule
    before it in the English file ([None] for the first rule). *)
Theorem missing_rules_follow_their_predecessor
  (unicode_yaml_file : bool) (rules : list value) (kr : list (str * value))
  (translated_dict : list (str * value)) (printed : list msg) (reg : english_registry) :
  keyed_rules unicode_yaml_file rules = Ok kr ->
  NoDup (map fst kr) ->
  register_english unicode_yaml_file rules empty_registry = (printed, Ok reg) ->
  report_missing (keys (english_dict reg)) (english_dict_occurs_after reg)
    translated_dict []
  = (map (fun kp => missing_line (fst kp))
       (absent_from translated_dict (after_each None (map fst kr))),
     Ok (map after_to_missing
           (absent_from translated_dict (after_each None (map fst kr))))).
Proof.
  intros Hk Hnd Hreg.
  rewrite (register_english_from_empty unicode_yaml_file rules Hk Hnd) in Hreg.
  inversion Hreg; subst; clear Hreg.
  cbn [english_dict english_dict_occurs_after]. unfold keys.
  now apply report_missing_of_registry.
Qed.

Definition greek_registry : english_registry :=
  {| english_dict := [(lit "a", letter "a" "alpha"); (lit "b", letter "b" "beta");
                      (lit "c", letter "c" "gamma"); (lit "d", letter "d" "delta")];
     english_dict_occurs_after :=
       [(lit "a", None); (lit "b", Some (lit "a")); (lit "c", Some (lit "b"));
        (lit "d", Some (lit "c"))];
     previous_rule_key := Some (lit "d");
     duplicate_keys_in_english_file := false |}.

Lemma missing_rules_follow_their_predecessor_witness :
  report_missing (keys (english_dict greek_registry))
    (english_dict_occurs_after greek_registry)
    [(lit "a", letter "a" "alfa"); (lit "d", letter "d" "delta")] []
  = (map (fun kp => missing_line (fst kp))
       (absent_from [(lit "a", letter "a" "alfa"); (lit "d", letter "d" "delta")]
          (after_each None
             (map fst [(lit "a", letter "a" "alpha"); (lit "b", letter "b" "beta");
                       (lit "c", letter "c" "gamma"); (lit "d", letter "d" "delta")]))),
     Ok (map after_to_missing
           (absent_from [(lit "a", letter "a" "alfa"); (lit "d", letter "d" "delta")]
              (after_each None
                 (map fst [(lit "a", letter "a" "alpha"); (lit "b", letter "b" "beta");
                           (lit "c", letter "c" "gamma");
                           (lit "d", letter "d" "delta")]))))).
Proof.
  apply (@missing_rules_follow_their_predecessor true
           [letter "a" "alpha"; letter "b" "beta"; letter "c" "gamma";
            letter "d" "delta"]
           [(lit "a", letter "a" "alpha"); (lit "b", letter "b" "beta");
            (lit "c", letter "c" "gamma"); (lit "d", letter "d" "delta")]
           [(lit "a", letter "a" "alfa"); (lit "d", letter "d" "delta")]
           [] greek_registry).
  - reflexivity.
  - apply nodupb_NoDup. reflexivity.
  - reflexivity.
Defined.

Example greek_missing_map :
  map after_to_missing
    (absent_from [(lit "a", letter "a" "alfa"); (lit "d", letter "d" "delta")]
       (after_each None [lit "a"; lit "b"; lit "c"; lit "d"]))
  = [(Some (lit "a"), lit "b"); (Some (lit "b"), lit "c")].
Proof. vm_compute. reflexivity. Qed.

(** X15: for a translated registry with pairwise distinct keys, the
    report of extra rules lists, once each and in file order, exactly the
    rules of the translated file whose key the English file lacks, and
    the report of untranslated rules lists exactly the rules that are
    mappings holding at least one marker, each with its count. *)
Theorem reports_list_each_rule_once
  (english_dict translated_dict : list (str * value)) :
  NoDup (keys translated_dict) ->
  report_extra (keys translated_dict) english_dict []
  = (map extra_line
       (filter (fun k => negb (dict_has str_eqb k english_dict)) (keys translated_dict)),
     Ok (filter (fun k => negb (dict_has str_eqb k english_dict)) (keys translated_dict)))
  /\
  report_untranslated translated_dict []
  = (map (fun kn => untranslated_line (fst kn) (snd kn)) (with_markers translated_dict),
     Ok (with_markers translated_dict)).
Proof.
  intros Hnd. split.
  - now rewrite (@report_extra_distinct english_dict (keys translated_dict) [] Hnd).
  - now rewrite (@report_untranslated_distinct translated_dict [] Hnd).
Qed.

Lemma reports_list_each_rule_once_witness :
  report_extra (keys [(lit "a", letter "a" "alfa"); (lit "z", letter "z" "zeta")])
    [(lit "a", letter "a" "alpha")] []
  = (map extra_line
       (filter (fun k => negb (dict_has str_eqb k [(lit "a", letter "a" "alpha")]))
          (keys [(lit "a", letter "a" "alfa"); (lit "z", letter "z" "zeta")])),
     Ok (filter (fun k => negb (dict_has str_eqb k [(lit "a", letter "a" "alpha")]))
           (keys [(lit "a", letter "a" "alfa"); (lit "z", letter "z" "zeta")])))
  /\
  report_untranslated [(lit "a", letter "a" "alfa"); (lit "z", letter "z" "zeta")] []
  = (map (fun kn => untranslated_line (fst kn) (snd kn))
       (with_markers [(lit "a", letter "a" "alfa"); (lit "z", letter "z" "zeta")]),
     Ok (with_markers [(lit "a", letter "a" "alfa"); (lit "z", letter "z" "zeta")])).
Proof.
  apply (@reports_list_each_rule_once [(lit "a", letter "a" "alpha")]
           [(lit "a", letter "a" "alfa"); (lit "z", letter "z" "zeta")]).
  apply nodupb_NoDup. reflexivity.
Defined.

Example reports_of_two_letters :
  filter (fun k => negb (dict_has str_eqb k [(lit "a", letter "a" "alpha")]))
    (keys [(lit "a", letter "a" "alfa"); (lit "z", letter "z" "zeta")])
  = [lit "z"] /\
  with_markers [(lit "a", letter "a" "alfa"); (lit "z", letter "z" "zeta")]
  = [(lit "a", 1); (lit "z", 1)].
Proof. split; vm_compute; reflexivity. Qed.

(* ================================================================== *)
(** * The key of a rule and the order of its tags *)
(* ================================================================== *)

Section TagOrder.

Import Permutation Sorted.

Definition str_le (a b : str) : Prop := str_leb a b = true.

Lemma str_leb_total (a : str) : forall b, str_leb a b = true \/ str_leb b a = true.
Proof.
  induction a as [|x a IH]; intros [|y b]; simpl; auto.
  destruct (N.ltb_spec x y), (N.ltb_spec y x); auto; lia.
Qed.

Lemma str_leb_trans (a : str) :
  forall b c, str_leb a b = true -> str_leb b c = true -> str_leb a c = true.
Proof.
  induction a as [|x a IH]; intros [|y b] [|z c]; simpl; auto; try discriminate.
  destruct (N.ltb_spec x y), (N.ltb_spec y x), (N.ltb_spec y z), (N.ltb_spec z y),
    (N.ltb_spec x z), (N.ltb_spec z x);
    try discriminate; try reflexivity; try lia.
  apply IH.
Qed.

Lemma str_leb_antisym (a : str) :
  forall b, str_leb a b = true -> str_leb b a = true -> a = b.
Proof.
  induction a as [|x a IH]; intros [|y b]; simpl; auto; try discriminate.
  destruct (N.ltb_spec x y), (N.ltb_spec y x); try discriminate; try lia.
  intros H1 H2. assert (x = y) by lia. subst. f_equal. now apply IH.
Qed.

Lemma insert_sorted_perm (x : str) (l : list str) :
  Permutation (insert_sorted x l) (x :: l).
Proof.
  induction l as [|y r IH]; simpl; [apply Permutation_refl|].
  destruct (str_leb x y); [apply Permutation_refl|].
  eapply Permutation_trans; [apply perm_skip, IH|apply perm_swap].
Qed.

Lemma insert_sorted_sorted (x : str) (l : list str) :
  StronglySorted str_le l -> StronglySorted str_le (insert_sorted x l).
Proof.
  induction 1 as [|y r Hr IH Hy]; simpl; [repeat constructor|].
  destruct (str_leb x y) eqn:E.
  - constructor; [now constructor|].
    constructor; [exact E|].
    eapply Forall_impl; [|exact Hy].
    intros z Hz. unfold str_le in *. eapply str_leb_trans; eauto.
  - constructor; [exact IH|].
    eapply Permutation_Forall; [apply Permutation_sym, insert_sorted_perm|].
    constructor; [|exact Hy].
    destruct (str_leb_total x y) as [H|H]; [congruence|exact H].
Qed.

Lemma fold_insert_spec (l : list str) :
  forall acc,
    StronglySorted str_le acc ->
    StronglySorted str_le (fold_left (fun acc x => insert_sorted x acc) l acc) /\
    Permutation (fold_left (fun acc x => insert_sorted x acc) l acc) (acc ++ l).
Proof.
  induction l as [|x l IH]; intros acc Hacc; simpl.
  - split; [exact Hacc|]. rewrite app_nil_r. apply Permutation_refl.
  - destruct (IH (insert_sorted x acc) (insert_sorted_sorted x Hacc)) as [Hs Hp].
    split; [exact Hs|].
    eapply Permutation_trans; [exact Hp|].
    eapply Permutation_trans;
      [apply Permutation_app_tail, insert_sorted_perm|].
    simpl. apply Permutation_middle.
Qed.

Lemma sorted_unique (a : list str) :
  forall b,
    StronglySorted str_le a -> StronglySorted str_le b -> Permutation a b -> a = b.
Proof.
  induction a as [|x a IH]; intros b Ha Hb Hp.
  - apply Permutation_nil in Hp. now subst.
  - destruct b as [|y b].
    { apply Permutation_sym, Permutation_nil in Hp. discriminate. }
    inversion Ha as [|? ? Ha' Hx]; subst.
    inversion Hb as [|? ? Hb' Hy]; subst.
    assert (Hxy : x = y).
    { assert (Hin_x : In x (y :: b))
        by (eapply Permutation_in; [exact Hp|now left]).
      assert (Hin_y : In y (x :: a))
        by (eapply Permutation_in; [apply Permutation_sym; exact Hp|now left]).
      destruct Hin_x as [->|Hin_x]; [reflexivity|].
      destruct Hin_y as [->|Hin_y]; [reflexivity|].
      rewrite Forall_forall in Hx, Hy.
      apply str_leb_antisym; [now apply Hx|now apply Hy]. }
    subst. f_equal. apply IH; [exact Ha'|exact Hb'|].
    eapply Permutation_cons_inv; exact Hp.
Qed.

Lemma sorted_of_permutation (l l' : list str) :
  Permutation l l' -> sorted l = sorted l'.
Proof.
  intros Hp. unfold sorted.
  destruct (fold_insert_spec l (SSorted_nil _)) as [Hs Hperm].
  destruct (fold_insert_spec l' (SSorted_nil _)) as [Hs' Hperm'].
  apply sorted_unique; [exact Hs|exact Hs'|].
  eapply Permutation_trans; [exact Hperm|].
  eapply Permutation_trans; [exact Hp|].
  apply Permutation_sym. exact Hperm'.
Qed.

Lemma all_strings_of_strings (l : list str) : all_strings (map VStr l) = Ok l.
Proof. induction l as [|s l IH]; simpl; [reflexivity|now rewrite IH]. Qed.

End TagOrder.

(** X16: the key of a rule does not depend on the order of its tags: two
    rules with the same [name] whose [tag] fields are lists of strings
    and rearrangements of each other get the same key. *)
Theorem rule_key_ignores_tag_order (rule rule' : value) (tags tags' : list str) :
  py_getitem rule (lit "name") = py_getitem rule' (lit "name") ->
  py_getitem rule (lit "tag") = Ok (VList (map VStr tags)) ->
  py_getitem rule' (lit "tag") = Ok (VList (map VStr tags')) ->
  Permutation.Permutation tags tags' ->
  format_rule_key_from_dict rule = format_rule_key_from_dict rule'.
Proof.
  intros Hname Htag Htag' Hp. unfold format_rule_key_from_dict.
  rewrite Htag, Htag', Hname. cbn [bind].
  rewrite !all_strings_of_strings. cbn [bind].
  now rewrite (sorted_of_permutation Hp).
Qed.

Lemma rule_key_ignores_tag_order_witness :
  format_rule_key_from_dict
    (VDict [(lit "name", VStr (lit "default"));
            (lit "tag", VList (map VStr [lit "mo"; lit "mi"]))])
  = format_rule_key_from_dict
      (VDict [(lit "tag", VList (map VStr [lit "mi"; lit "mo"]));
              (lit "name", VStr (lit "default"))]).
Proof.
  apply (@rule_key_ignores_tag_order
           (VDict [(lit "name", VStr (lit "default"));
                   (lit "tag", VList (map VStr [lit "mo"; lit "mi"]))])
           (VDict [(lit "tag", VList (map VStr [lit "mi"; lit "mo"]));
                   (lit "name", VStr (lit "default"))])
           [lit "mo"; lit "mi"] [lit "mi"; lit "mo"]).
  - reflexivity.
  - reflexivity.
  - reflexivity.
  - apply Permutation.perm_swap.
Defined.

Example key_of_two_tags :
  format_rule_key_from_dict
    (VDict [(lit "name", VStr (lit "default"));
            (lit "tag", VList (map VStr [lit "mo"; lit "mi"]))])
  = Ok (lit "default:[mi, mo]").
Proof. vm_compute. reflexivity. Qed.

(* ================================================================== *)
(** * The classes of lines *)
(* ================================================================== *)

Section LineClasses.

Lemma lstrip_chars_suffix (chars s : str) : exists t, s = t ++ lstrip_chars chars s.
Proof.
  induction s as [|c r IH]; simpl; [now exists []|].
  destruct (existsb (N.eqb c) chars); [|now exists []].
  destruct IH as [t Ht]. exists (c :: t). simpl. now f_equal.
Qed.

Lemma rstrip_chars_prefix (chars s : str) : exists t, s = rstrip_chars chars s ++ t.
Proof.
  unfold rstrip_chars.
  destruct (lstrip_chars_suffix chars (rev s)) as [t Ht].
  exists (rev t). rewrite <- rev_app_distr, <- Ht. now rewrite rev_involutive.
Qed.

Lemma start_of_document_head (line : str) :
  line_is_start_of_document line = true -> exists r, lstrip line = 45%N :: r.
Proof.
  unfold line_is_start_of_document, startswith.
  destruct (rstrip_chars_prefix [13; 10]%N line) as [t Ht].
  destruct (rstrip_chars [13; 10]%N line) as [|c r]; [discriminate|].
  change (lit "---") with [45; 45; 45]%N. cbn [strip_prefix].
  destruct (N.eqb_spec 45 c) as [<-|]; [|discriminate].
  intros _. rewrite Ht. simpl. eauto.
Qed.

(** How many of the four tests a line passes. *)
Definition classes_of (line : str) : nat :=
  length (filter (fun b : bool => b)
            [line_is_blank line; line_is_start_of_document line;
             line_is_a_translation_audit_comment line;
             line_is_a_normal_comment line]).

End LineClasses.

(** X17: the four tests on lines exclude each other: no line is at once
    blank, a start of document, an audit comment or a normal comment in
    two of these ways. *)
Theorem line_classes_exclude_each_other (line : str) : classes_of line <= 1.
Proof.
  unfold classes_of.
  destruct (line_is_start_of_document line) eqn:Es.
  - destruct (start_of_document_head _ Es) as [r Hr].
    rewrite (not_blank_of_lstrip _ Hr).
    rewrite (not_audit_of_lstrip _ Hr) by discriminate.
    rewrite (not_comment_of_lstrip _ Hr) by discriminate.
    simpl. lia.
  - unfold line_is_a_normal_comment, starts_with_hash.
    destruct (expect 35%N (lstrip line)) as [r|] eqn:Eh.
    + rewrite (not_blank_of_lstrip _ (expect_lstrip _ _ Eh)).
      destruct (line_is_a_translation_audit_comment line); simpl; lia.
    + unfold line_is_a_translation_audit_comment. rewrite Eh.
      destruct (line_is_blank line); simpl; lia.
Qed.

(* ================================================================== *)
(** * The counts of the summary and the file *)
(* ================================================================== *)

Section Counts.

Variable safe_load : str -> result value.
Variable unicode_yaml_file : bool.
Variable english_lines : list str.
Variable untranslated : list (str * nat).
Variable extra : list str.
Variable differences : list str.

(** The number of audit comments among some lines. *)
Definition audit_lines (ls : list str) : nat :=
  length (filter line_is_a_translation_audit_comment ls).

Definition plain (l : str) : Prop := line_is_a_translation_audit_comment l = false.

Definition counted (st : rw_state) : Prop :=
  audit_lines (out_file st) = total_new_comments st /\
  Forall plain (buffered_lines st).

Definition run_counted (r : run) : Prop := counted (final_state r).

Lemma audit_lines_app (a b : list str) :
  audit_lines (a ++ b) = audit_lines a + audit_lines b.
Proof. unfold audit_lines. now rewrite filter_app, length_app. Qed.

Lemma audit_lines_plain (ls : list str) : Forall plain ls -> audit_lines ls = 0.
Proof.
  unfold audit_lines, plain. induction 1 as [|l r Hl _ IH]; simpl; [reflexivity|].
  now rewrite Hl.
Qed.

Lemma and_then_counted (r : run) (f : rw_state -> run) :
  run_counted r -> (forall st, counted st -> run_counted (f st)) ->
  run_counted (and_then r f).
Proof. destruct r; simpl; auto. Qed.

Lemma counted_same (st st' : rw_state) :
  out_file st' = out_file st ->
  buffered_lines st' = buffered_lines st ->
  total_new_comments st' = total_new_comments st ->
  counted st -> counted st'.
Proof. intros Ho Hb Hc [H1 H2]. split; [now rewrite Ho, Hc|now rewrite Hb]. Qed.

Lemma counted_write (ls : list str) (st : rw_state) :
  Forall plain ls -> counted st -> counted (write ls st).
Proof.
  intros Hls [H1 H2]. split; [|exact H2]. simpl.
  rewrite audit_lines_app, (audit_lines_plain Hls). unfold total_new_comments in *.
  simpl. lia.
Qed.

Lemma counted_move (st : rw_state) (ls rest : list str) :
  buffered_lines st = ls ++ rest ->
  counted st -> counted (set_buffered_lines rest (write ls st)).
Proof.
  intros Hbuf [H1 H2]. rewrite Hbuf in H2. apply Forall_app in H2 as [Hls Hrest].
  split; [|exact Hrest]. simpl.
  rewrite audit_lines_app, (audit_lines_plain Hls). unfold total_new_comments in *.
  simpl. lia.
Qed.

(** An annotation is written and counted. *)
Lemma counted_annotation (st st' : rw_state) (line : str) :
  line_is_a_translation_audit_comment line = true ->
  out_file st' = out_file st ++ [line] ->
  buffered_lines st' = buffered_lines st ->
  total_new_comments st' = S (total_new_comments st) ->
  counted st -> counted st'.
Proof.
  intros Hline Ho Hb Hc [H1 H2]. split; [|now rewrite Hb].
  rewrite Ho, Hc, audit_lines_app, H1. unfold audit_lines. simpl.
  rewrite Hline. simpl. lia.
Qed.

Lemma write_any_leading_blank_lines_counted (st : rw_state) :
  counted st -> counted (write_any_leading_blank_lines st).
Proof.
  intros H. unfold write_any_leading_blank_lines.
  pose proof (leading_blank_lines_split (buffered_lines st)) as Hsplit.
  destruct (leading_blank_lines (buffered_lines st)) as [blank rest].
  simpl in Hsplit. now apply counted_move.
Qed.

Lemma flush_previous_rule_counted (st : rw_state) :
  counted st -> counted (flush_previous_rule st).
Proof.
  intros H. unfold flush_previous_rule.
  destruct (_ && _); [|exact H].
  eapply counted_same; [| | |eapply counted_move; [apply slice_del_upto|exact H]];
    reflexivity.
Qed.

Lemma new_rule_comment_is_audit (n : nat) (k : str) :
  line_is_a_translation_audit_comment (new_rule_comment n k) = true.
Proof. apply audit_prefix_is_audit. Qed.

Lemma write_missing_lines_counted (k : str) (missing_lines : list str) :
  Forall plain missing_lines ->
  forall comment_added st,
    counted st ->
    run_counted (write_missing_lines unicode_yaml_file k missing_lines comment_added st).
Proof.
  induction 1 as [|l rest Hl _ IH]; intros comment_added st H; [exact H|].
  cbn [write_missing_lines].
  assert (Hline : Forall plain [l]) by now constructor.
  destruct (negb comment_added && _).
  - assert (H1 : counted (if is_none (current_rule_key st)
                          then write [[10%N]] st else st)).
    { destruct (is_none _); [|exact H].
      apply counted_write; [|exact H]. now repeat constructor. }
    destruct (indentation _) as [n|]; [|exact H1].
    apply IH. apply counted_write; [exact Hline|].
    eapply counted_annotation; [apply (new_rule_comment_is_audit n k)| | | |exact H1].
    + reflexivity.
    + reflexivity.
    + unfold total_new_comments. simpl. lia.
  - apply IH. now apply counted_write.
Qed.

Lemma grabbed_lines_plain (k : str) (block : list str) :
  grab_missing_rule_lines safe_load k unicode_yaml_file english_lines = Ok block ->
  Forall plain block.
Proof.
  intros H. apply grab_lines_kept in H.
  eapply Forall_impl; [|exact H]. now intros l [_ Hl].
Qed.

Lemma insert_missing_rules_counted (fuel : nat) :
  forall st,
    counted st ->
    run_counted (insert_missing_rules safe_load unicode_yaml_file english_lines fuel st).
Proof.
  induction fuel as [|fuel IH]; intros st H; simpl.
  - destruct (dict_find _ _ _); exact H.
  - destruct (dict_find option_str_eqb (current_rule_key st)
                (rule_missing_in_translated_file_after st)) as [k|]; [|exact H].
    destruct (grab_missing_rule_lines _ _ _ _) as [missing_lines|e] eqn:Eg;
      [|exact H].
    apply and_then_counted.
    + apply write_missing_lines_counted; [|exact H].
      now apply grabbed_lines_plain in Eg.
    + intros st' H'. apply IH.
      eapply counted_same; [| | |exact H']; reflexivity.
Qed.

Lemma rw_boundary_counted (st : rw_state) (line : str) :
  counted st ->
  run_counted (rw_boundary safe_load unicode_yaml_file english_lines st line).
Proof.
  intros H. unfold rw_boundary.
  destruct (starts_sequence_item line); [|exact H].
  assert (H1 : counted (if is_none (indentation st)
                        then set_indentation (Some (indent_of line)) st else st)).
  { destruct (is_none _); [|exact H].
    eapply counted_same; [| | |exact H]; reflexivity. }
  destruct (option_nat_eqb _ _); [|exact H1].
  apply and_then_counted.
  - unfold follow_insertion_chain.
    apply insert_missing_rules_counted. now apply flush_previous_rule_counted.
  - intros st' H'. simpl.
    eapply counted_same; [| | |exact H']; reflexivity.
Qed.

Lemma rw_buffer_counted (st : rw_state) (line : str) :
  plain line -> counted st -> counted (rw_buffer st line).
Proof.
  intros Hline [H1 H2]. unfold rw_buffer.
  assert (H3 : counted (set_buffered_lines (buffered_lines st ++ [line]) st)).
  { split; [exact H1|]. simpl. apply Forall_app. split; [exact H2|now constructor]. }
  destruct (_ && _); [|exact H3].
  eapply counted_same; [| | |exact H3]; reflexivity.
Qed.

Lemma rw_annotate_counted (n : nat) (st : rw_state) :
  counted st -> counted (rw_annotate untranslated extra differences n st).
Proof.
  intros Hinv. unfold rw_annotate.
  set (st1 := match buffered_line_containing_name_key st with
              | Some i => if Nat.ltb 1 i
                          then set_buffered_lines (skipn (i - 1) (buffered_lines st))
                                 (write (firstn (i - 1) (buffered_lines st)) st)
                          else st
              | None => st
              end).
  assert (H1 : counted st1).
  { subst st1.
    destruct (buffered_line_containing_name_key st) as [i|]; [|exact Hinv].
    destruct (Nat.ltb 1 i); [|exact Hinv].
    apply counted_move; [|exact Hinv]. now rewrite firstn_skipn. }
  set (st2 := set_buffered_line_containing_name_key None st1).
  assert (H2 : counted st2).
  { eapply counted_same; [| | |exact H1]; reflexivity. }
  clearbody st2. clear H1 st1 Hinv.
  set (st3 := match current_rule_key st2 with
              | Some k =>
                  match dict_find str_eqb k untranslated with
                  | Some count =>
                      set_count_of_needs_translation_comments
                        (S (count_of_needs_translation_comments
                              (write_any_leading_blank_lines st2)))
                        (write [needs_translation_comment n k count]
                           (write_any_leading_blank_lines st2))
                  | None => st2
                  end
              | None => st2
              end).
  assert (H3 : counted st3).
  { subst st3. destruct (current_rule_key st2) as [k|]; [|exact H2].
    destruct (dict_find str_eqb k untranslated) as [count|]; [|exact H2].
    eapply counted_annotation;
      [apply (audit_prefix_is_audit n)| | |
       |apply (write_any_leading_blank_lines_counted H2)].
    - reflexivity.
    - reflexivity.
    - unfold total_new_comments. simpl. lia. }
  clearbody st3. clear H2 st2.
  set (st4 := match current_rule_key st3 with
              | Some k =>
                  if mem k extra then
                    set_count_of_rule_not_in_english_file_comments
                      (S (count_of_rule_not_in_english_file_comments
                            (write_any_leading_blank_lines st3)))
                      (write [not_in_english_comment n k]
                         (write_any_leading_blank_lines st3))
                  else st3
              | None => st3
              end).
  assert (H4 : counted st4).
  { subst st4. destruct (current_rule_key st3) as [k|]; [|exact H3].
    destruct (mem k extra); [|exact H3].
    eapply counted_annotation;
      [apply (audit_prefix_is_audit n)| | |
       |apply (write_any_leading_blank_lines_counted H3)].
    - reflexivity.
    - reflexivity.
    - unfold total_new_comments. simpl. lia. }
  clearbody st4. clear H3 st3.
  destruct (current_rule_key st4) as [k|]; [|exact H4].
  destruct (mem k differences); [|exact H4].
  eapply counted_annotation;
    [apply (audit_prefix_is_audit n)| | |
     |apply (write_any_leading_blank_lines_counted H4)].
  - reflexivity.
  - reflexivity.
  - unfold total_new_comments. simpl. lia.
Qed.

Lemma rw_detect_counted (st : rw_state) (line : str) :
  counted st ->
  run_counted (rw_detect safe_load unicode_yaml_file untranslated extra differences
                 st line).
Proof.
  intros H. unfold rw_detect.
  destruct (indentation st) as [n|]; [|exact H].
  destruct (is_none _); [|exact H].
  destruct unicode_yaml_file.
  - cbn [found_name_key set_current_rule_key].
    destruct (found_name_key st && line_has_tag_key line).
    + destruct (get_rule_key_from_buffered_lines _ _) as [k|e].
      * apply rw_annotate_counted.
        eapply counted_same; [| | |exact H]; reflexivity.
      * eapply counted_same; [| | |exact H]; reflexivity.
    + apply rw_annotate_counted.
      eapply counted_same; [| | |exact H]; reflexivity.
  - destruct (line_has_name_key line).
    + cbn [found_name_key set_found_name_key set_buffered_line_containing_name_key andb].
      destruct (line_has_tag_key line).
      * destruct (get_rule_key_from_buffered_lines _ _) as [k|e].
        -- apply rw_annotate_counted.
           eapply counted_same; [| | |exact H]; reflexivity.
        -- eapply counted_same; [| | |exact H]; reflexivity.
      * eapply counted_same; [| | |exact H]; reflexivity.
    + destruct (found_name_key st && line_has_tag_key line).
      * destruct (get_rule_key_from_buffered_lines _ _) as [k|e]; [|exact H].
        apply rw_annotate_counted.
        eapply counted_same; [| | |exact H]; reflexivity.
      * exact H.
Qed.

Lemma rw_step_counted (st : rw_state) (line : str) :
  counted st ->
  run_counted (rw_step safe_load unicode_yaml_file english_lines
                 untranslated extra differences st line).
Proof.
  intros H. unfold rw_step.
  destruct (line_is_a_translation_audit_comment line) eqn:Ea.
  - eapply counted_same; [| | |exact H]; reflexivity.
  - unfold rw_document_start.
    destruct (past_start_of_document st) eqn:Ep; cbn [negb].
    + rewrite Ep. cbn [andb].
      apply and_then_counted; [now apply rw_boundary_counted|].
      intros st' H'. apply rw_detect_counted. now apply rw_buffer_counted.
    + destruct (negb (line_is_a_normal_comment line)
                && negb (line_is_start_of_document line)).
      * cbn [past_start_of_document set_buffered_lines set_past_start_of_document andb].
        apply and_then_counted.
        -- apply rw_boundary_counted.
           eapply counted_same;
             [| | |apply (@counted_move st (buffered_lines st) []);
                   [now rewrite app_nil_r|exact H]]; reflexivity.
        -- intros st' H'. apply rw_detect_counted. now apply rw_buffer_counted.
      * cbn [past_start_of_document set_buffered_lines]. rewrite Ep. cbn [andb].
        destruct H as [H1 H2]. split; [exact H1|]. simpl.
        apply Forall_app. split; [exact H2|now constructor].
Qed.

Lemma rw_loop_counted (lines : list str) :
  forall st, counted st ->
    run_counted (rw_loop safe_load unicode_yaml_file english_lines
                   untranslated extra differences lines st).
Proof.
  induction lines as [|line rest IH]; intros st H; [exact H|].
  simpl. apply and_then_counted; [now apply rw_step_counted|exact IH].
Qed.

Lemma rw_end_of_file_counted (st : rw_state) :
  counted st ->
  run_counted (rw_end_of_file safe_load unicode_yaml_file english_lines st).
Proof.
  intros H. unfold rw_end_of_file.
  apply and_then_counted.
  - destruct (dict_has _ _ _); [|exact H].
    unfold follow_insertion_chain. apply insert_missing_rules_counted.
    eapply counted_same;
      [| | |eapply counted_move; [apply slice_del_upto|exact H]]; reflexivity.
  - intros st' H'. simpl.
    destruct (Nat.ltb 0 (length (buffered_lines st'))); [|exact H'].
    apply counted_write; [|exact H']. now destruct H'.
Qed.

Lemma rewrite_pass_counted (missing : list (option str * str))
  (translated_lines : list str) :
  run_counted (rewrite_pass safe_load unicode_yaml_file english_lines
                 untranslated extra differences missing translated_lines).
Proof.
  unfold rewrite_pass. apply and_then_counted.
  - apply rw_loop_counted. split; [reflexivity|constructor].
  - intros st H. now apply rw_end_of_file_counted.
Qed.

End Counts.


Example greek_run_counts :
  audit_lines GreekRun.rewritten = 2.
Proof. vm_compute. reflexivity. Qed.

(* ================================================================== *)
(** * The rules inserted after a rule, in single-key files *)
(* ================================================================== *)

Section Chain.

Variable safe_load : str -> result value.
Variable english_lines : list str.
Variable translated_dict : list (str * value).

(** The map the report of missing rules hands to the pass, for an English
    file with the keys [ks]. *)
Definition missing_map (ks : list str) : list (option str * str) :=
  map after_to_missing (absent_from translated_dict (after_each None ks)).

(** The keys at the head of [post] that the translated file lacks. *)
Fixpoint run_after (post : list str) : list str :=
  match post with
  | [] => []
  | k :: r => if dict_has str_eqb k translated_dict then [] else k :: run_after r
  end.

(** What the loop writes for one missing rule. *)
Definition inserted (n : nat) (k : str) (block : list str) : list str :=
  match block with
  | [] => []
  | _ :: _ => new_rule_comment n k :: block
  end.

Definition has_lines (block : list str) : bool :=
  match block with [] => false | _ :: _ => true end.

(** The entry that [x] has in the map, [x] being [c] or one of [post]. *)
Fixpoint next_in (c : str) (post : list str) (x : str) : option str :=
  match post with
  | [] => None
  | y :: r =>
      if str_eqb x c
      then (if dict_has str_eqb y translated_dict then None else Some y)
      else next_in y r x
  end.

Lemma option_find_del_other (V : Type) (q q' : option str) (d : list (option str * V)) :
  q <> q' ->
  dict_find option_str_eqb q (dict_del option_str_eqb q' d)
  = dict_find option_str_eqb q d.
Proof.
  intros Hne. induction d as [|[q0 v0] r IH]; simpl; [reflexivity|].
  destruct (option_str_eqb q' q0) eqn:E'.
  - apply option_str_eqb_eq in E'. subst q0.
    destruct (option_str_eqb q q') eqn:E; [|reflexivity].
    apply option_str_eqb_eq in E. contradiction.
  - simpl. destruct (option_str_eqb q q0); [reflexivity|exact IH].
Qed.

Lemma option_str_eqb_refl (q : option str) : option_str_eqb q q = true.
Proof. now apply option_str_eqb_eq. Qed.

Lemma find_link_none (f : str * option str -> bool) (L : list (str * option str))
  (q : option str) :
  ~ In q (map snd L) ->
  dict_find option_str_eqb q (map after_to_missing (filter f L)) = None.
Proof.
  intros H. apply option_find_none. intros Hin. apply H.
  rewrite map_map in Hin. apply in_map_iff in Hin as (kp & <- & Hkp).
  apply filter_In in Hkp as [Hkp _]. simpl. now apply in_map.
Qed.

Lemma find_link (f : str * option str -> bool) (L : list (str * option str))
  (k : str) (q : option str) :
  NoDup (map snd L) -> In (k, q) L ->
  dict_find option_str_eqb q (map after_to_missing (filter f L))
  = if f (k, q) then Some k else None.
Proof.
  induction L as [|[k0 q0] r IH]; intros Hnd Hin; [destruct Hin|].
  simpl in Hnd. inversion Hnd as [|? ? Hnotin Hnd']; subst.
  destruct Hin as [Heq|Hin].
  - inversion Heq; subst. cbn [filter].
    destruct (f (k, q)); cbn [map after_to_missing dict_find fst snd].
    + now rewrite option_str_eqb_refl.
    + now apply find_link_none.
  - assert (Hne : q <> q0).
    { intros ->. apply Hnotin. change q0 with (snd (k, q0)). now apply in_map. }
    cbn [filter]. rewrite <- (IH Hnd' Hin).
    destruct (f (k0, q0)); [|reflexivity].
    cbn [map after_to_missing dict_find fst snd].
    destruct (option_str_eqb q q0) eqn:E; [|reflexivity].
    apply option_str_eqb_eq in E. contradiction.
Qed.

Lemma after_each_app (pre : list str) :
  forall prev c post,
    after_each prev (pre ++ c :: post)
    = after_each prev pre ++ (c, last_key prev pre) :: after_each (Some c) post.
Proof.
  induction pre as [|x pre IH]; intros prev c post; [reflexivity|].
  simpl. rewrite IH. unfold last_key. cbn [map]. now rewrite last_cons.
Qed.

Lemma after_each_before_last (pre : list str) :
  forall prev c q,
    In q (map snd (after_each prev (pre ++ [c]))) -> q = prev \/ In q (map Some pre).
Proof.
  induction pre as [|x pre IH]; intros prev c q; simpl.
  - intros [<-|[]]. now left.
  - intros [<-|Hin]; [now left|].
    right. destruct (IH _ _ _ Hin) as [->|H]; [now left|now right].
Qed.

Lemma missing_map_links (post : list str) :
  forall ks pre c,
    NoDup ks -> ks = pre ++ c :: post ->
    forall x, In x (c :: post) ->
      dict_find option_str_eqb (Some x) (missing_map ks) = next_in c post x.
Proof.
  induction post as [|k r IH]; intros ks pre c Hnd Hks x Hx.
  - destruct Hx as [<-|[]]. simpl. unfold missing_map, absent_from.
    apply find_link_none. subst ks. intros Hin.
    apply after_each_before_last in Hin as [Hin|Hin]; [discriminate|].
    apply in_map_iff in Hin as (y & Hy & Hin). inversion Hy; subst.
    apply NoDup_remove_2 in Hnd. apply Hnd. rewrite app_nil_r. exact Hin.
  - cbn [next_in]. destruct (str_eqb_spec x c) as [->|Hne].
    + unfold missing_map, absent_from.
      rewrite (@find_link _ (after_each None ks) k (Some c)).
      * cbn [fst]. now destruct (dict_has str_eqb k translated_dict).
      * apply after_each_before; [exact Hnd|].
        intros Hin. apply in_map_iff in Hin as (y & Hy & _). discriminate.
      * subst ks. rewrite after_each_app. apply in_or_app. right. right. now left.
    + destruct Hx as [Hx|Hx]; [congruence|].
      apply (IH ks (pre ++ [c]) k Hnd); [|exact Hx].
      rewrite Hks, <- app_assoc. reflexivity.
Qed.

(** The fields the insertion of a block leaves alone. *)
Definition same_frame (st st' : rw_state) : Prop :=
  current_rule_key st' = current_rule_key st /\
  rule_missing_in_translated_file_after st'
  = rule_missing_in_translated_file_after st /\
  indentation st' = indentation st /\
  buffered_lines st' = buffered_lines st.

Lemma write_missing_lines_after_comment (k : str) (block : list str) :
  forall st,
    exists st',
      write_missing_lines true k block true st = Done st' /\
      out_file st' = out_file st ++ block /\
      count_of_new_rule_comments st' = count_of_new_rule_comments st /\
      same_frame st st'.
Proof.
  induction block as [|l rest IH]; intros st.
  - exists st. simpl. rewrite app_nil_r. repeat split.
  - cbn [write_missing_lines negb andb].
    destruct (IH (write [l] st)) as (st' & Hw & Ho & Hc & Hf).
    exists st'. split; [exact Hw|]. split; [|split; [exact Hc|exact Hf]].
    rewrite Ho. simpl. now rewrite <- app_assoc.
Qed.

Lemma write_missing_lines_single_key (k : str) (block : list str) (n : nat)
  (st : rw_state) :
  indentation st = Some n ->
  current_rule_key st <> None ->
  exists st',
    write_missing_lines true k block false st = Done st' /\
    out_file st' = out_file st ++ inserted n k block /\
    count_of_new_rule_comments st'
    = count_of_new_rule_comments st + (if has_lines block then 1 else 0) /\
    same_frame st st'.
Proof.
  intros Hind Hcur. destruct block as [|l rest].
  - exists st. simpl. rewrite app_nil_r, Nat.add_0_r. repeat split.
  - cbn [write_missing_lines negb andb orb].
    destruct (current_rule_key st) as [c|] eqn:Ec; [|contradiction].
    cbn [is_none]. rewrite Hind.
    destruct (write_missing_lines_after_comment k rest
                (write [l]
                   (set_count_of_new_rule_comments
                      (S (count_of_new_rule_comments
                            (write [new_rule_comment n k] st)))
                      (write [new_rule_comment n k] st))))
      as (st' & Hw & Ho & Hc & Hf).
    exists st'. split; [exact Hw|]. split; [|split].
    + rewrite Ho. simpl. rewrite <- !app_assoc. reflexivity.
    + rewrite Hc. simpl. lia.
    + destruct Hf as (H1 & H2 & H3 & H4). repeat split.
      * rewrite H1. reflexivity.
      * rewrite H2. reflexivity.
      * rewrite H3. reflexivity.
      * rewrite H4. reflexivity.
Qed.

Variable n : nat.
Variable block : str -> list str.

Definition inserted_blocks (run : list str) : list str :=
  concat (map (fun k => inserted n k (block k)) run).

Lemma chain_run (post : list str) :
  forall c st fuel,
    NoDup (c :: post) ->
    current_rule_key st = Some c ->
    indentation st = Some n ->
    (forall x, In x (c :: post) ->
       dict_find option_str_eqb (Some x) (rule_missing_in_translated_file_after st)
       = next_in c post x) ->
    (forall k, In k (run_after post) ->
       grab_missing_rule_lines safe_load k true english_lines = Ok (block k)) ->
    length (run_after post) <= fuel ->
    exists st',
      insert_missing_rules safe_load true english_lines fuel st = Done st' /\
      out_file st' = out_file st ++ inserted_blocks (run_after post) /\
      current_rule_key st' = last (map Some (run_after post)) (Some c) /\
      buffered_lines st' = buffered_lines st /\
      count_of_new_rule_comments st'
      = count_of_new_rule_comments st
        + length (filter (fun k => has_lines (block k)) (run_after post)).
Proof.
  induction post as [|k r IH]; intros c st fuel Hnd Hcur Hind Hlinks Hgrab Hfuel.
  - exists st. split.
    + destruct fuel; simpl; rewrite Hcur, (Hlinks c (or_introl eq_refl));
        reflexivity.
    + simpl. unfold inserted_blocks. simpl. rewrite app_nil_r, Nat.add_0_r.
      repeat split. exact Hcur.
  - pose proof (Hlinks c (or_introl eq_refl)) as Hc.
    cbn [next_in] in Hc. rewrite str_eqb_refl in Hc.
    cbn [run_after] in *.
    destruct (dict_has str_eqb k translated_dict) eqn:Ek.
    + exists st. split.
      * destruct fuel; simpl; rewrite Hcur, Hc; reflexivity.
      * unfold inserted_blocks. simpl. rewrite app_nil_r, Nat.add_0_r.
        repeat split. exact Hcur.
    + destruct fuel as [|fuel]; [simpl in Hfuel; lia|].
      cbn [insert_missing_rules]. rewrite Hcur, Hc.
      rewrite (Hgrab k (or_introl eq_refl)).
      destruct (@write_missing_lines_single_key k (block k) n st Hind)
        as (st1 & Hw & Ho & Hcount & Hc1 & Hm1 & Hi1 & Hb1);
        [rewrite Hcur; discriminate|].
      rewrite Hw. cbn [and_then].
      inversion Hnd as [|? ? Hnotin Hnd']; subst.
      destruct (IH k
                  (set_current_rule_key (Some k)
                     (set_rule_missing_in_translated_file_after
                        (dict_del option_str_eqb (current_rule_key st1)
                           (rule_missing_in_translated_file_after st1)) st1))
                  fuel Hnd')
        as (st' & Hrun & Ho' & Hc' & Hb' & Hcount').
      * reflexivity.
      * simpl. congruence.
      * intros x Hx. simpl. rewrite Hc1, Hm1, Hcur.
        rewrite option_find_del_other.
        -- rewrite (Hlinks x (or_intror Hx)). cbn [next_in].
           destruct (str_eqb_spec x c) as [->|Hne]; [contradiction|reflexivity].
        -- intros Heq. inversion Heq; subst. contradiction.
      * intros k' Hk'. apply Hgrab. now right.
      * simpl in Hfuel. lia.
      * exists st'. split; [exact Hrun|]. split; [|split; [|split]].
        -- rewrite Ho'. simpl. rewrite Ho. unfold inserted_blocks. simpl.
           now rewrite <- app_assoc.
        -- rewrite Hc'. cbn [map]. now rewrite last_cons.
        -- rewrite Hb'. simpl. exact Hb1.
        -- rewrite Hcount'. simpl. rewrite Hcount.
           destruct (has_lines (block k)); simpl; lia.
Qed.

End Chain.

(** X19: in a single-key file, the rules inserted after a rule are the
    English rules that follow it and that the translated file lacks, up
    to the first one it has, in the order of the English file.  The
    English file has the distinct keys [pre ++ c :: post], [c] is the key
    of the current rule, and the map still has the entries of the report
    for [c] and the keys after it.  Then the loop ends normally, writes
    for each such rule the NEW RULE comment and the lines extracted from
    the English file (nothing for a rule whose extraction is empty),
    counts one comment for each block written, leaves the buffer as it
    is, and makes the last rule inserted the current one. *)
Theorem missing_rules_are_inserted_in_english_order
  (safe_load : str -> result value) (english_lines : list str)
  (translated_dict : list (str * value)) (ks pre post : list str) (c : str)
  (n : nat) (block : str -> list str) (st : rw_state) :
  NoDup ks ->
  ks = pre ++ c :: post ->
  current_rule_key st = Some c ->
  indentation st = Some n ->
  (forall x, In x (c :: post) ->
     dict_find option_str_eqb (Some x) (rule_missing_in_translated_file_after st)
     = dict_find option_str_eqb (Some x) (missing_map translated_dict ks)) ->
  (forall k, In k (run_after translated_dict post) ->
     grab_missing_rule_lines safe_load k true english_lines = Ok (block k)) ->
  exists st',
    follow_insertion_chain safe_load true english_lines st = Done st' /\
    out_file st'
    = out_file st ++ inserted_blocks n block (run_after translated_dict post) /\
    current_rule_key st' = last (map Some (run_after translated_dict post)) (Some c) /\
    buffered_lines st' = buffered_lines st /\
    count_of_new_rule_comments st'
    = count_of_new_rule_comments st
      + length (filter (fun k => has_lines (block k))
                  (run_after translated_dict post)).
Proof.
  intros Hnd Hks Hcur Hind Hmap Hgrab.
  rewrite <- (@insert_missing_rules_fuel safe_load true english_lines
                (length (rule_missing_in_translated_file_after st)
                 + length (run_after translated_dict post)) st) by lia.
  apply chain_run.
  - subst ks. now apply NoDup_app_remove_l in Hnd.
  - exact Hcur.
  - exact Hind.
  - intros x Hx. rewrite (Hmap x Hx).
    now apply (@missing_map_links translated_dict post ks pre c).
  - exact Hgrab.
  - lia.
Qed.

Module GreekChain.

Definition translated_dict : list (str * value) :=
  [(lit "a", letter "a" "alfa"); (lit "d", letter "d" "delta")].

Definition english_keys : list str := [lit "a"; lit "b"; lit "c"; lit "d"].

Definition block (k : str) : list str :=
  if str_eqb k (lit "b") then [ln " - `b`: [t: `beta`]"]
  else if str_eqb k (lit "c") then [ln " - `c`: [t: `gamma`]"]
  else [].

(** The pass has just met the rule [a] of the translated file. *)
Definition at_a : rw_state :=
  set_current_rule_key (Some (lit "a"))
    (set_indentation (Some 1)
       (write [ln "---"] (rw_init (missing_map translated_dict english_keys)))).

Example inserted_after_a :
  inserted_blocks 1 block (run_after translated_dict [lit "b"; lit "c"; lit "d"])
  = [ln " # [AUDIT] NEW RULE 'b' THAT NEEDS TRANSLATION";
     ln " - `b`: [t: `beta`]";
     ln " # [AUDIT] NEW RULE 'c' THAT NEEDS TRANSLATION";
     ln " - `c`: [t: `gamma`]"].
Proof. vm_compute. reflexivity. Qed.

End GreekChain.

Lemma missing_rules_are_inserted_in_english_order_witness :
  exists st',
    follow_insertion_chain no_parser true GreekRun.english_file GreekChain.at_a
    = Done st' /\
    out_file st'
    = out_file GreekChain.at_a
      ++ inserted_blocks 1 GreekChain.block
           (run_after GreekChain.translated_dict [lit "b"; lit "c"; lit "d"]) /\
    current_rule_key st'
    = last (map Some (run_after GreekChain.translated_dict
                        [lit "b"; lit "c"; lit "d"])) (Some (lit "a")) /\
    buffered_lines st' = buffered_lines GreekChain.at_a /\
    count_of_new_rule_comments st'
    = count_of_new_rule_comments GreekChain.at_a
      + length (filter (fun k => has_lines (GreekChain.block k))
                  (run_after GreekChain.translated_dict
                     [lit "b"; lit "c"; lit "d"])).
Proof.
  apply (@missing_rules_are_inserted_in_english_order no_parser GreekRun.english_file
           GreekChain.translated_dict GreekChain.english_keys []
           [lit "b"; lit "c"; lit "d"] (lit "a") 1 GreekChain.block GreekChain.at_a).
  - apply nodupb_NoDup. reflexivity.
  - reflexivity.
  - reflexivity.
  - reflexivity.
  - intros x _. reflexivity.
  - intros k Hk. vm_compute in Hk.
    destruct Hk as [<-|[<-|[]]]; vm_compute; reflexivity.
Defined.

(* ================================================================== *)
(** * Single-quoted keys, and the choice of the mode *)
(* ================================================================== *)

Section KeysMore.

Lemma lazy_group_stops (rest : str) (k : str) :
  k <> [] -> ~ In 39%N k -> ~ In 10%N k ->
  lazy_group (k ++ 39%N :: 58%N :: rest) = Some k.
Proof.
  induction k as [|c k IH]; intros Hne Hq Hnl; [contradiction|].
  cbn [app lazy_group].
  destruct (N.eqb_spec c 10) as [->|_]; [exfalso; apply Hnl; now left|].
  destruct k as [|c' k].
  - reflexivity.
  - assert (Hc' : c' <> 39%N) by (intros ->; apply Hq; right; now left).
    assert (IH' : lazy_group ((c' :: k) ++ 39%N :: 58%N :: rest) = Some (c' :: k)).
    { apply IH; [discriminate| |].
      - intros Hin. apply Hq. now right.
      - intros Hin. apply Hnl. now right. }
    rewrite IH'. unfold closes_single_quoted. cbn [app expect].
    destruct (N.eqb_spec c' 39) as [|_]; [contradiction|reflexivity].
Qed.

(** [c] folded to lower case, for the letters of ASCII. *)
Definition ascii_lower (c : char) : char :=
  if ((65 <=? c) && (c <=? 90))%N then (c + 32)%N else c.

Lemma matches_ascii_lower (p c : char) :
  ascii_lower c = p -> (97 <= p <= 122)%N -> matches_ignoring_case p c = true.
Proof.
  unfold ascii_lower, matches_ignoring_case. intros H Hp.
  destruct ((65 <=? c) && (c <=? 90))%N.
  - assert (Hc : c = (p - 32)%N) by lia. rewrite Hc, (N.eqb_refl (p - 32)).
    now rewrite orb_true_r.
  - subst. now rewrite N.eqb_refl.
Qed.

Lemma starts_ascii_lower (p : str) :
  forall mid post,
    map ascii_lower mid = p ->
    Forall (fun x => 97 <= x <= 122)%N p ->
    starts_ignoring_case p (mid ++ post) = true.
Proof.
  induction p as [|x p IH]; intros mid post Hmid Hp; [reflexivity|].
  destruct mid as [|c mid]; [discriminate|].
  simpl in Hmid. inversion Hmid as [[Hc Hrest]].
  inversion Hp as [|? ? Hx Hp']; subst.
  cbn [app starts_ignoring_case].
  rewrite matches_ascii_lower by (reflexivity || exact Hx).
  now apply IH.
Qed.

Lemma search_after (p pre s : str) :
  starts_ignoring_case p s = true -> search_ignoring_case p (pre ++ s) = true.
Proof.
  intros H. induction pre as [|c pre IH]; simpl.
  - destruct s; simpl; now rewrite H.
  - rewrite IH. apply orb_true_r.
Qed.

End KeysMore.

(** X20: a line made of [n] spaces, a dash, a space, and a key between
    single quotes followed by a colon gives back its key, provided the
    key is not empty and has neither a single quote nor a newline in it:
    the first pattern fails on the single quote and the lazy group of the
    second one stops at the closing quote. *)
Theorem single_quoted_key_round_trip (n : nat) (k rest : str) :
  k <> [] -> ~ In 39%N k -> ~ In 10%N k ->
  get_key_from_line (repeat_char 32%N n ++ lit "- '" ++ k ++ lit "':" ++ rest)
  = Some k.
Proof.
  intros Hne Hq Hnl.
  unfold get_key_from_line, double_quoted_key, single_quoted_key.
  rewrite lstrip_spaces.
  change (lit "- '" ++ k ++ lit "':" ++ rest)
    with (45%N :: 32%N :: 39%N :: (k ++ 39%N :: 58%N :: rest)).
  change (lstrip (45%N :: 32%N :: 39%N :: k ++ 39%N :: 58%N :: rest))
    with (45%N :: 32%N :: 39%N :: k ++ 39%N :: 58%N :: rest).
  cbn [expect N.eqb Pos.eqb].
  change (lstrip (32%N :: 39%N :: k ++ 39%N :: 58%N :: rest))
    with (39%N :: k ++ 39%N :: 58%N :: rest).
  cbn [expect N.eqb Pos.eqb].
  change (is_space 32%N) with true. cbn [expect N.eqb Pos.eqb].
  now apply lazy_group_stops.
Qed.

Lemma single_quoted_key_round_trip_witness :
  get_key_from_line (repeat_char 32%N 1 ++ lit "- '" ++ lit "a" ++ lit "':"
                     ++ lit " [t: 'alpha']")
  = Some (lit "a").
Proof.
  apply (@single_quoted_key_round_trip 1 (lit "a") (lit " [t: 'alpha']")).
  - discriminate.
  - vm_compute. intros [H|[]]. discriminate.
  - vm_compute. intros [H|[]]. discriminate.
Defined.

(** X21: with [--unicode auto], a translated file whose path has the word
    [unicode] in it, in any mix of upper and lower case, is audited as a
    single-key file. *)
Theorem unicode_in_the_path_selects_single_key_mode (a : args) (pre mid post : str) :
  unicode a = unicode_auto ->
  translated_rules a = pre ++ mid ++ post ->
  map ascii_lower mid = lit "unicode" ->
  is_unicode_yaml_file a = true.
Proof.
  intros Hauto Hpath Hmid. unfold is_unicode_yaml_file. rewrite Hauto, Hpath.
  apply search_after. apply starts_ascii_lower; [exact Hmid|].
  repeat constructor; discriminate.
Qed.

Lemma unicode_in_the_path_selects_single_key_mode_witness :
  is_unicode_yaml_file
    {| english_rules := lit "en/unicode.yaml";
       translated_rules := lit "sv/Unicode-Full.yaml";
       mode := mode_warnings;
       unicode := unicode_auto |} = true.
Proof.
  apply (@unicode_in_the_path_selects_single_key_mode
           {| english_rules := lit "en/unicode.yaml";
              translated_rules := lit "sv/Unicode-Full.yaml";
              mode := mode_warnings;
              unicode := unicode_auto |}
           (lit "sv/") (lit "Unicode") (lit "-Full.yaml")).
  - reflexivity.
  - reflexivity.
  - reflexivity.
Defined.

(* ================================================================== *)
(** * The lines of the written file *)
(* ================================================================== *)

Section WrittenText.

Definition no_newline (s : str) : Prop := ~ In 10%N s.

(** A string that ends with a newline. *)
Definition terminated (l : str) : Prop := exists body, l = body ++ [10%N].

(** A string that is one line of a text file: no newline but the last
    character. *)
Definition proper_line (l : str) : Prop :=
  exists body, l = body ++ [10%N] /\ no_newline body.

Lemma proper_terminated (l : str) : proper_line l -> terminated l.
Proof. intros (body & -> & _). now exists body. Qed.

Lemma lines_from_body (body : str) :
  forall current rest,
    no_newline body ->
    lines_from current (body ++ 10%N :: rest)
    = (current ++ body ++ [10%N]) :: lines_from [] rest.
Proof.
  induction body as [|c body IH]; intros current rest Hb; [reflexivity|].
  cbn [app lines_from].
  destruct (N.eqb_spec c 10) as [->|_]; [exfalso; apply Hb; now left|].
  rewrite IH by (intros Hin; apply Hb; now right).
  now rewrite <- app_assoc.
Qed.

Lemma file_lines_proper (l rest : str) :
  proper_line l -> file_lines (l ++ rest) = l :: file_lines rest.
Proof.
  intros (body & -> & Hb). unfold file_lines.
  rewrite <- app_assoc. cbn [app]. now rewrite lines_from_body.
Qed.


Lemma lines_from_terminated (text : str) :
  forall current rest,
    lines_from current (text ++ 10%N :: rest)
    = lines_from current (text ++ [10%N]) ++ lines_from [] rest.
Proof.
  induction text as [|c text IH]; intros current rest; [reflexivity|].
  cbn [app lines_from].
  destruct (N.eqb c 10); [|apply IH].
  cbn [app]. now rewrite IH.
Qed.

Lemma file_lines_terminated (l rest : str) :
  terminated l -> file_lines (l ++ rest) = file_lines l ++ file_lines rest.
Proof.
  intros (body & ->). unfold file_lines.
  rewrite <- app_assoc. cbn [app]. apply lines_from_terminated.
Qed.

Lemma subseq_app_before (a b c : list str) : subseq a b -> subseq a (c ++ b).
Proof. intros H. induction c as [|x c IH]; [exact H|]. now constructor. Qed.

(** Lines that are in what was written, in order, are in the file, in
    order, when they are proper lines and every string written ends with
    a newline. *)
Lemma subseq_written (kept out : list str) :
  subseq kept out ->
  Forall proper_line kept ->
  Forall terminated out ->
  subseq kept (file_lines (concat out)).
Proof.
  induction 1 as [|x a b _ IH|x a b _ IH]; intros Hkept Hout.
  - constructor.
  - inversion Hout as [|? ? Hx Hb]; subst. cbn [concat].
    rewrite file_lines_terminated by exact Hx.
    apply subseq_app_before. now apply IH.
  - inversion Hout as [|? ? Hx Hb]; subst.
    inversion Hkept as [|? ? Hp Ha]; subst. cbn [concat].
    rewrite file_lines_proper by exact Hp.
    apply subseq_take. now apply IH.
Qed.

Lemma annotation_terminated (a b c d : str) : terminated (a ++ b ++ c ++ d ++ [10%N]).
Proof. exists (a ++ b ++ c ++ d). now rewrite <- !app_assoc. Qed.

Lemma generated_terminated (l : str) : generated l -> terminated l.
Proof.
  intros [->|(n & k & [->|[(count & ->)|[->| ->]]])].
  - now exists [].
  - apply annotation_terminated.
  - unfold needs_translation_comment.
    exists (audit_prefix n ++ lit "RULE '" ++ k ++ lit "' NEEDS TRANSLATION OF "
            ++ dec_nat count ++ lit " KEYS").
    now rewrite <- !app_assoc.
  - apply annotation_terminated.
  - apply annotation_terminated.
Qed.

Lemma written_strings_terminated
  (safe_load : str -> result value) (unicode : bool)
  (english_lines translated_lines : list str)
  (untranslated : list (str * nat)) (extra differences : list str)
  (missing : list (option str * str)) :
  Forall terminated translated_lines ->
  Forall terminated english_lines ->
  Forall terminated
    (out_file (final_state
                 (rewrite_pass safe_load unicode english_lines untranslated extra
                    differences missing translated_lines))).
Proof.
  intros Ht He.
  destruct (rewrite_pass_inv safe_load unicode english_lines untranslated extra
              differences translated_lines missing) as [Hout _].
  eapply Forall_impl; [|exact Hout].
  rewrite Forall_forall in Ht, He.
  intros l [[Hin _]|[[Hin _]|Hg]]; [now apply Ht|now apply He|].
  now apply generated_terminated.
Qed.

End WrittenText.

(** X9: a pass that ends normally loses no line of the translated file.
    When every line of the translated file is a proper line (it ends with
    a newline and has no other) and every line of the English file ends
    with a newline, the lines of the translated file that are not audit
    comments are all lines of the file written, in their order, with
    other lines (annotations, inserted rules) in between.  The pass has
    noted an audit comment exactly when the translated file has one. *)
Theorem pass_keeps_every_line
  (safe_load : str -> result value) (unicode : bool)
  (english_lines translated_lines : list str)
  (untranslated : list (str * nat)) (extra differences : list str)
  (missing : list (option str * str)) (st : rw_state) :
  Forall proper_line translated_lines ->
  Forall terminated english_lines ->
  rewrite_pass safe_load unicode english_lines untranslated extra differences
    missing translated_lines = Done st ->
  subseq (kept_of translated_lines) (written_lines st) /\
  contains_audit_comments st = has_audit_comment translated_lines.
Proof.
  intros Ht He H.
  destruct (@rewrite_pass_carries safe_load unicode english_lines untranslated
              extra differences subseq subseq_app_same missing translated_lines st)
    as (H1 & H2 & _).
  - left. intros a b ins Hab. now apply subseq_app_more.
  - constructor.
  - exact H.
  - split; [|exact H2].
    unfold written_lines. apply subseq_written; [exact H1| |].
    + unfold kept_of. apply Forall_forall. intros l Hl.
      apply filter_In in Hl as [Hl _]. rewrite Forall_forall in Ht. now apply Ht.
    + pose proof (@written_strings_terminated safe_load unicode english_lines
                    translated_lines untranslated extra differences missing) as Hw.
      rewrite H in Hw. apply Hw; [|exact He].
      eapply Forall_impl; [|exact Ht]. apply proper_terminated.
Qed.

Lemma proper_ln (s : str) :
  forallb (fun c => negb (N.eqb c 10%N)) s = true -> proper_line (s ++ [10%N]).
Proof.
  intros H. exists s. split; [reflexivity|].
  intros Hin. rewrite forallb_forall in H. specialize (H _ Hin). discriminate.
Qed.

Lemma pass_keeps_every_line_witness :
  subseq (kept_of GreekRun.translated_file)
    (written_lines
       (final_state
          (rewrite_pass GreekRun.yaml true GreekRun.english_file [] [] []
             [(Some (lit "a"), lit "b"); (Some (lit "b"), lit "c")]
             GreekRun.translated_file))).
Proof.
  refine (proj1 (@pass_keeps_every_line GreekRun.yaml true GreekRun.english_file
                   GreekRun.translated_file [] [] []
                   [(Some (lit "a"), lit "b"); (Some (lit "b"), lit "c")]
                   (final_state
                      (rewrite_pass GreekRun.yaml true GreekRun.english_file [] [] []
                         [(Some (lit "a"), lit "b"); (Some (lit "b"), lit "c")]
                         GreekRun.translated_file))
                   _ _ _)).
  - repeat constructor; apply proper_ln; reflexivity.
  - repeat constructor; apply proper_terminated, proper_ln; reflexivity.
  - vm_compute. reflexivity.
Defined.

(** A last line without a newline is joined to what is written next: the
    file then has a line that neither input file has. *)
Example unterminated_last_line_is_joined :
  written_lines
    (final_state
       (rewrite_pass no_parser true [ln "- `a`: 1"; ln "- `b`: 2"] [] [] []
          [(Some (lit "a"), lit "b")] [litq "- `a`: 1"]))
  = [litq "- `a`: 1" ++ ln "# [AUDIT] NEW RULE 'b' THAT NEEDS TRANSLATION";
     ln "- `b`: 2"].
Proof. vm_compute. reflexivity. Qed.

(* ================================================================== *)
(** * Replacing the translated file *)
(* ================================================================== *)

(** C9: after a pass that ended normally, on a disk where the translated
    file exists and the temporary name is new, with standard output open:
    if the translated file had an audit comment, or the pass wrote at
    least one annotation, the translated file is renamed to a name among
    [f.bak], [f-2.bak], [f-3.bak], ... that no file had, and the temporary
    file, with the lines written, takes its place; otherwise
    [No changes needed] is printed, the temporary file is removed, and the
    disk is as it was before the run. *)
Theorem replace_only_when_annotated
  (safe_load : str -> result value)
  (a : args) (w : world) (english_lines translated_lines : list str)
  (v : verdicts) (st : rw_state) :
  NoDup (map fst (disk w)) ->
  dict_find str_eqb (translated_rules a) (disk w) = Some translated_lines ->
  path_exists (temp_file_name w) (disk w) = false ->
  temp_file_name w <> [] ->
  stdout_is_open w = true ->
  rewrite_pass safe_load (is_unicode_yaml_file a) english_lines
    (rules_with_untranslated_keys v) (rules_extra_in_translated_file v)
    (rules_with_differences v) (rule_missing_after v) translated_lines = Done st ->
  status (create_new_version safe_load a w english_lines translated_lines v) = Ok tt /\
  if has_audit_comment translated_lines || Nat.ltb 0 (audit_lines (out_file st)) then
    exists j,
      path_exists (candidate (translated_rules a) j) (disk w) = false /\
      dict_find str_eqb (candidate (translated_rules a) j)
        (disk_after (create_new_version safe_load a w english_lines translated_lines v))
      = Some translated_lines /\
      dict_find str_eqb (translated_rules a)
        (disk_after (create_new_version safe_load a w english_lines translated_lines v))
      = Some (written_lines st) /\
      dict_find str_eqb (temp_file_name w)
        (disk_after (create_new_version safe_load a w english_lines translated_lines v))
      = None
  else
    disk_after (create_new_version safe_load a w english_lines translated_lines v)
    = disk w /\
    In [Txt (lit "No changes needed to " ++ translated_rules a ++ lit ".")]
       (stdout (create_new_version safe_load a w english_lines translated_lines v)).
Proof.
  intros Hnd Htr Htemp Hname Hout Hpass.
  (* the flag and the counters of the pass say what the claim says *)
  assert (Hflag_in : contains_audit_comments st = has_audit_comment translated_lines).
  { destruct (@rewrite_pass_carries safe_load (is_unicode_yaml_file a) english_lines
                (rules_with_untranslated_keys v) (rules_extra_in_translated_file v)
                (rules_with_differences v) subseq subseq_app_same
                (rule_missing_after v) translated_lines st) as (_ & H2 & _);
      [left; intros x y ins Hxy; now apply subseq_app_more|constructor|exact Hpass|].
    exact H2. }
  assert (Hcount : audit_lines (out_file st) = total_new_comments st).
  { pose proof (rewrite_pass_counted safe_load (is_unicode_yaml_file a) english_lines
                  (rules_with_untranslated_keys v) (rules_extra_in_translated_file v)
                  (rules_with_differences v) (rule_missing_after v) translated_lines)
      as Hc.
    unfold run_counted in Hc. rewrite Hpass in Hc. exact (proj1 Hc). }
  rewrite <- Hflag_in, Hcount.
  unfold create_new_version. rewrite Hpass.
  rewrite set_set.
  apply path_exists_find in Htemp.
  assert (Hne : temp_file_name w <> translated_rules a).
  { intros Heq. rewrite Heq in Htemp. congruence. }
  set (fs := dict_set str_eqb (temp_file_name w) (written_lines st) (disk w)).
  assert (Hfs_tr : dict_find str_eqb (translated_rules a) fs = Some translated_lines).
  { subst fs. rewrite find_set_other by congruence. exact Htr. }
  assert (Hfs_temp : dict_find str_eqb (temp_file_name w) fs = Some (written_lines st)).
  { subst fs. apply find_set_same. }
  assert (Hfs_nd : NoDup (map fst fs)) by (subst fs; now apply NoDup_set).
  destruct (contains_audit_comments st || Nat.ltb 0 (total_new_comments st)) eqn:Hflag.
  - (* the file is replaced *)
    destruct (@replace_or_discard_replaces a w fs st translated_lines
                (written_lines st) Hflag Hfs_tr Hfs_temp Hne)
      as (j & Hfresh & ->).
    cbn [status disk_after].
    split; [reflexivity|].
    exists j.
    apply path_exists_find in Hfresh.
    assert (Hb_tr : candidate (translated_rules a) j <> translated_rules a)
      by (intros Heq; rewrite Heq in Hfresh; congruence).
    assert (Hb_temp : candidate (translated_rules a) j <> temp_file_name w)
      by (intros Heq; rewrite Heq in Hfresh; congruence).
    split.
    { apply path_exists_find. subst fs.
      rewrite find_set_other in Hfresh by congruence. exact Hfresh. }
    split.
    { rewrite find_set_other by congruence.
      rewrite find_del_other by congruence.
      apply find_set_same. }
    split; [apply find_set_same|].
    rewrite find_set_other by congruence.
    apply find_del_same. apply NoDup_set. now apply NoDup_del.
  - (* nothing to say: the temporary file goes *)
    rewrite (@replace_or_discard_discards a w fs st (written_lines st)
               Hflag Hfs_temp Hne Hname Hout).
    cbn [status disk_after stdout].
    split; [reflexivity|].
    split.
    + subst fs. now apply del_set_fresh.
    + apply in_or_app. right. now left.
Qed.

Lemma replace_only_when_annotated_witness :
  has_audit_comment GreekRun.translated_file = false /\
  audit_lines
    (out_file
       (final_state
          (rewrite_pass GreekRun.yaml true GreekRun.english_file [] [] []
             [(Some (lit "a"), lit "b"); (Some (lit "b"), lit "c")]
             GreekRun.translated_file))) = 2 /\
  exists j,
    path_exists (candidate (lit "sv/unicode.yaml") j) (disk GreekRun.the_world)
    = false /\
    dict_find str_eqb (candidate (lit "sv/unicode.yaml") j)
      (disk_after
         (create_new_version GreekRun.yaml GreekRun.the_args GreekRun.the_world
            GreekRun.english_file GreekRun.translated_file
            {| rules_with_untranslated_keys := [];
               rule_missing_after := [(Some (lit "a"), lit "b");
                                      (Some (lit "b"), lit "c")];
               rules_extra_in_translated_file := [];
               rules_with_differences := [] |}))
    = Some GreekRun.translated_file /\
    dict_find str_eqb (lit "sv/unicode.yaml")
      (disk_after
         (create_new_version GreekRun.yaml GreekRun.the_args GreekRun.the_world
            GreekRun.english_file GreekRun.translated_file
            {| rules_with_untranslated_keys := [];
               rule_missing_after := [(Some (lit "a"), lit "b");
                                      (Some (lit "b"), lit "c")];
               rules_extra_in_translated_file := [];
               rules_with_differences := [] |}))
    = Some
        (written_lines
           (final_state
              (rewrite_pass GreekRun.yaml true GreekRun.english_file [] [] []
                 [(Some (lit "a"), lit "b"); (Some (lit "b"), lit "c")]
                 GreekRun.translated_file))) /\
    dict_find str_eqb (lit "sv/unicode.yamlk3j2")
      (disk_after
         (create_new_version GreekRun.yaml GreekRun.the_args GreekRun.the_world
            GreekRun.english_file GreekRun.translated_file
            {| rules_with_untranslated_keys := [];
               rule_missing_after := [(Some (lit "a"), lit "b");
                                      (Some (lit "b"), lit "c")];
               rules_extra_in_translated_file := [];
               rules_with_differences := [] |}))
    = None.
Proof.
  split; [reflexivity|]. split; [vm_compute; reflexivity|].
  refine (proj2 (@replace_only_when_annotated GreekRun.yaml GreekRun.the_args
                   GreekRun.the_world GreekRun.english_file GreekRun.translated_file
                   {| rules_with_untranslated_keys := [];
                      rule_missing_after := [(Some (lit "a"), lit "b");
                                             (Some (lit "b"), lit "c")];
                      rules_extra_in_translated_file := [];
                      rules_with_differences := [] |}
                   (final_state
                      (rewrite_pass GreekRun.yaml true GreekRun.english_file [] [] []
                         [(Some (lit "a"), lit "b"); (Some (lit "b"), lit "c")]
                         GreekRun.translated_file))
                   _ _ _ _ _ _)).
  - apply nodupb_NoDup; reflexivity.
  - reflexivity.
  - reflexivity.
  - discriminate.
  - reflexivity.
  - vm_compute. reflexivity.
Defined.

(** A translated file that only carries an annotation of an earlier run
    is replaced by the file without it; one with nothing to say about is
    left alone and the temporary file is removed. *)
Example stale_annotation_is_removed :
  disk_after
    (create_new_version no_parser
       {| english_rules := lit "en/unicode.yaml";
          translated_rules := lit "sv/unicode.yaml";
          mode := mode_new_version; unicode := unicode_auto |}
       {| disk := [(lit "sv/unicode.yaml",
                    [ln "---"; ln " # [AUDIT] RULE 'a' NEEDS TRANSLATION OF 1 KEYS";
                     ln " - `a`: [T: `alfa`]"])];
          temp_file_name := lit "sv/unicode.yamlk3j2";
          stdout_is_open := true |}
       [ln "---"; ln " - `a`: [t: `alpha`]"]
       [ln "---"; ln " # [AUDIT] RULE 'a' NEEDS TRANSLATION OF 1 KEYS";
        ln " - `a`: [T: `alfa`]"]
       {| rules_with_untranslated_keys := []; rule_missing_after := [];
          rules_extra_in_translated_file := []; rules_with_differences := [] |})
  = [(lit "sv/unicode.yaml.bak",
      [ln "---"; ln " # [AUDIT] RULE 'a' NEEDS TRANSLATION OF 1 KEYS";
       ln " - `a`: [T: `alfa`]"]);
     (lit "sv/unicode.yaml", [ln "---"; ln " - `a`: [T: `alfa`]"])].
Proof. vm_compute. reflexivity. Qed.

(* ================================================================== *)
(** * Every string written is one line *)
(* ================================================================== *)

Section NoNewline.




















End NoNewline.

Section Tidy.

Variable safe_load : str -> result value.
Variable unicode_yaml_file : bool.
Variable english_lines : list str.
Variable untranslated : list (str * nat).
Variable extra : list str.
Variable differences : list str.
Variable translated_lines : list str.

Hypothesis translated_proper : Forall proper_line translated_lines.
Hypothesis english_proper : Forall proper_line english_lines.
(** The keys the parser derives from runs of lines of the translated
    file have no newline in them. *)
Hypothesis parsed_keys :
  forall before span after k,
    kept_of translated_lines = before ++ span ++ after ->
    get_rule_key_from_buffered_lines safe_load span = Ok (Some k) ->
    no_newline k.




























End Tidy.


(* ================================================================== *)
(** * The buffer of the extractor is a run of lines of the file *)
(* ================================================================== *)

Section GrabSegment.

Variable safe_load : str -> result value.
Variable missing_rule_key : str.
Variable is_a_unicode_file : bool.

(** The buffer is the end of the lines read so far, audit comments left
    out; nothing is buffered before the start of the document. *)
Definition buffer_ends (processed : list str) (st : grab_state) : Prop :=
  (exists before, kept_of processed = before ++ g_buffered_lines st) /\
  (g_past_start_of_document st = false -> g_buffered_lines st = []).

Lemma del_upto_suffix (n : option nat) (l : list str) :
  exists front, l = front ++ del_upto n l.
Proof.
  destruct n as [n|]; simpl.
  - exists (firstn n l). now rewrite firstn_skipn.
  - exists l. now rewrite app_nil_r.
Qed.

Lemma kept_of_snoc (processed : list str) (line : str) :
  kept_of (processed ++ [line])
  = kept_of processed
    ++ (if line_is_a_translation_audit_comment line then [] else [line]).
Proof.
  unfold kept_of. rewrite filter_app. cbn [filter].
  now destruct (line_is_a_translation_audit_comment line).
Qed.

Lemma grab_step_ends (processed : list str) (st st' : grab_state) (line : str)
  (stop : bool) :
  grab_step safe_load missing_rule_key is_a_unicode_file st line = Ok (stop, st') ->
  buffer_ends processed st ->
  if stop then buffer_ends processed st'
  else buffer_ends (processed ++ [line]) st'.
Proof.
  intros Hs [(before & Hb) Hstart]. unfold grab_step in Hs.
  assert (H0 : buffer_ends processed (grab_document_start st line)).
  { unfold grab_document_start.
    destruct (negb (g_past_start_of_document st)
              && negb (line_is_a_normal_comment line)
              && negb (line_is_start_of_document line));
      [|split; [now exists before|exact Hstart]].
    split; [now exists before|]. simpl. discriminate. }
  destruct (g_past_start_of_document (grab_document_start st line)) eqn:Ep;
    cbn [andb] in Hs.
  - destruct (line_is_a_translation_audit_comment line) eqn:Ea; cbn [negb] in Hs.
    + inversion Hs; subst. destruct H0 as [(b0 & H01) H02].
      split; [|exact H02]. exists b0. rewrite kept_of_snoc, Ea, app_nil_r. exact H01.
    + destruct (grab_boundary missing_rule_key (grab_document_start st line) line)
        as [stop1 st1] eqn:Eb.
      assert (H1 : (exists front,
                       kept_of processed = front ++ g_buffered_lines st1) /\
                   g_past_start_of_document st1 = true).
      { unfold grab_boundary in Eb.
        destruct (starts_sequence_item line);
          [|inversion Eb; subst; split; [now destruct H0|exact Ep]].
        destruct (option_nat_eqb _ _);
          [|inversion Eb; subst; split; [now destruct H0|exact Ep]].
        destruct (option_str_eqb _ _); inversion Eb; subst; cbn;
          (split; [|exact Ep]); [now destruct H0|].
        destruct H0 as [(b0 & H01) _].
        destruct (del_upto_suffix
                    (g_last_buffered_non_blank_non_comment_line
                       (grab_document_start st line))
                    (g_buffered_lines (grab_document_start st line)))
          as [front Hfront].
        exists (b0 ++ front). rewrite <- app_assoc, <- Hfront. exact H01. }
      destruct stop1.
      * inversion Hs; subst. destruct H1 as [H11 H12].
        split; [exact H11|]. intros Hf. congruence.
      * destruct (grab_detect safe_load is_a_unicode_file (grab_buffer st1 line) line)
          as [st2|e] eqn:Ed; [|discriminate].
        inversion Hs; subst.
        assert (Hbuf : g_buffered_lines st' = g_buffered_lines st1 ++ [line] /\
                       g_past_start_of_document st' = true).
        { unfold grab_detect in Ed.
          destruct (_ && _) in Ed.
          - destruct (_ && _) in Ed.
            + destruct (get_rule_key_from_buffered_lines safe_load _) in Ed;
                [|discriminate].
              inversion Ed; subst. simpl. split; [reflexivity|now destruct H1].
            + inversion Ed; subst. simpl. split; [reflexivity|now destruct H1].
          - inversion Ed; subst. simpl. split; [reflexivity|now destruct H1]. }
        destruct Hbuf as [Hbuf Hpast]. destruct H1 as [(front & Hfront) _].
        split; [|intros Hf; congruence].
        exists front. rewrite kept_of_snoc, Ea, Hbuf, Hfront.
        now rewrite app_assoc.
  - cbn [andb] in Hs. inversion Hs; subst.
    destruct H0 as [(b0 & H01) H02]. specialize (H02 Ep).
    split; [|intros _; exact H02].
    exists (kept_of (processed ++ [line])). rewrite H02. now rewrite app_nil_r.
Qed.

Lemma grab_loop_ends (lines : list str) :
  forall processed st st',
    grab_loop safe_load missing_rule_key is_a_unicode_file lines st = Ok st' ->
    buffer_ends processed st ->
    exists before after,
      kept_of (processed ++ lines) = before ++ g_buffered_lines st' ++ after.
Proof.
  induction lines as [|line rest IH]; intros processed st st' Hl Hinv.
  - simpl in Hl. inversion Hl; subst. destruct Hinv as [(before & Hb) _].
    exists before, []. now rewrite !app_nil_r.
  - simpl in Hl.
    destruct (grab_step safe_load missing_rule_key is_a_unicode_file st line)
      as [[stop st1]|e] eqn:Es; [|discriminate].
    simpl in Hl. pose proof (@grab_step_ends processed st st1 line stop Es Hinv) as H1.
    destruct stop.
    + inversion Hl; subst. destruct H1 as [(before & Hb) _].
      exists before, (kept_of (line :: rest)).
      unfold kept_of in *. now rewrite filter_app, Hb, app_assoc.
    + destruct (IH (processed ++ [line]) st1 st' Hl H1) as (before & after & H).
      exists before, after. rewrite <- H, <- app_assoc. reflexivity.
Qed.

(** What the extractor returns is a run of consecutive lines of the file,
    audit comments left out. *)
Lemma grab_block_segment (file block : list str) :
  grab_missing_rule_lines safe_load missing_rule_key is_a_unicode_file file = Ok block ->
  exists before after, kept_of file = before ++ block ++ after.
Proof.
  unfold grab_missing_rule_lines. intros H.
  destruct (grab_loop safe_load missing_rule_key is_a_unicode_file file grab_init)
    as [st|e] eqn:El; [|discriminate].
  simpl in H. inversion H; subst; clear H.
  destruct (@grab_loop_ends file [] grab_init st El) as (before & after & Hseg).
  { split; [now exists []|reflexivity]. }
  simpl in Hseg. unfold grab_result.
  destruct (_ && _).
  - destruct (g_last_buffered_non_blank_non_comment_line st) as [n|]; simpl.
    + exists before, (skipn n (g_buffered_lines st) ++ after).
      rewrite Hseg. f_equal. now rewrite app_assoc, firstn_skipn.
    + exists (kept_of file), []. now rewrite app_nil_r.
  - exists (kept_of file), []. now rewrite app_nil_r.
Qed.

End GrabSegment.

Module CompositeRun.

Definition the_file : list str :=
  [ln "- name: default";
   ln "  tag: mi";
   ln "  replace: [t: `x`]"].

Definition rule : value :=
  VDict [(lit "name", VStr (lit "default")); (lit "tag", VStr (lit "mi"));
         (lit "replace", VList [VDict [(lit "t", VStr (lit "x"))]])].

(** What YAML makes of the whole file and of the span that ends with the
    tag line. *)
Definition yaml : str -> result value :=
  parser_of [(concat the_file, VList [rule]);
             (concat [ln "- name: default"; ln "  tag: mi"],
              VList [VDict [(lit "name", VStr (lit "default"));
                            (lit "tag", VStr (lit "mi"))]])].

(** Every key this parser derives is [default:mi]. *)
Lemma parsed_key (span : list str) (k : str) :
  get_rule_key_from_buffered_lines yaml span = Ok (Some k) -> k = lit "default:mi".
Proof.
  unfold get_rule_key_from_buffered_lines, yaml, parser_of. cbn [dict_find].
  destruct (str_eqb _ _); [vm_compute; now intros [= <-]|].
  destruct (str_eqb _ _); [vm_compute; now intros [= <-]|].
  discriminate.
Qed.

End CompositeRun.

(** X7: the extractor returns nothing for a key that no line of the file
    carries and that the parser derives from no run of consecutive lines
    of the file (audit comments left out). *)
Theorem nothing_extracted_for_absent_key
  (safe_load : str -> result value) (k : str) (unicode : bool)
  (file block : list str) :
  (forall l, In l file -> get_key_from_line l <> Some k) ->
  (forall before span after,
      kept_of file = before ++ span ++ after ->
      get_rule_key_from_buffered_lines safe_load span <> Ok (Some k)) ->
  grab_missing_rule_lines safe_load k unicode file = Ok block ->
  block = [].
Proof.
  intros Hlines Hspans H.
  destruct block as [|x r]; [reflexivity|]. exfalso.
  pose proof (grab_lines_kept _ _ _ _ H) as Hkept.
  destruct (grab_block_segment _ _ _ _ H) as (before & after & Hseg).
  destruct (grab_block_detected _ _ _ _ H) as (span & rest & Hblock & Hdet);
    [discriminate|].
  destruct Hdet as [(_ & front & l & Hspan & Hkey)|Hkey].
  - apply (Hlines l); [|exact Hkey].
    rewrite Forall_forall in Hkept.
    apply Hkept. rewrite Hblock, Hspan.
    apply in_or_app. left. apply in_or_app. right. now left.
  - apply (Hspans before span (rest ++ after)); [|exact Hkey].
    rewrite Hseg, Hblock. now rewrite <- !app_assoc.
Qed.

Lemma nothing_extracted_for_absent_key_witness :
  grab_missing_rule_lines CompositeRun.yaml (lit "other:mo") false CompositeRun.the_file
  = Ok [] /\ @nil str = [].
Proof.
  split; [vm_compute; reflexivity|].
  apply (@nothing_extracted_for_absent_key CompositeRun.yaml (lit "other:mo") false
           CompositeRun.the_file []).
  - intros l [<-|[<-|[<-|[]]]]; vm_compute; discriminate.
  - intros before span after _ H. apply CompositeRun.parsed_key in H. discriminate.
  - vm_compute. reflexivity.
Defined.


Example composite_run_is_annotated :
  written_lines
    (final_state
       (rewrite_pass CompositeRun.yaml false CompositeRun.the_file
          [(lit "default:mi", 1)] [] [] [] CompositeRun.the_file))
  = [ln "# [AUDIT] RULE 'default:mi' NEEDS TRANSLATION OF 1 KEYS";
     ln "- name: default";
     ln "  tag: mi";
     ln "  replace: [t: `x`]"] /\
  total_new_comments
    (final_state
       (rewrite_pass CompositeRun.yaml false CompositeRun.the_file
          [(lit "default:mi", 1)] [] [] [] CompositeRun.the_file)) = 1.
Proof. split; vm_compute; reflexivity. Qed.

(* ================================================================== *)
(** * Keys that the extractor finds, in single-key files *)
(* ================================================================== *)

Section Present.

Variable safe_load : str -> result value.
Variable k : str.











End Present.


(* ================================================================== *)
(** * The first key in the lines extracted, in single-key files *)
(* ================================================================== *)

Section FirstKey.

Variable safe_load : str -> result value.
Variable k : str.














End FirstKey.
Module FoldedTag.

(** A record whose tag is a plain scalar that goes on on the next line. *)
Definition reference : list str :=
  [ln "- name: x";
   ln "  tag: y";
   ln "    z";
   ln "- name: q";
   ln "  tag: r"].

Definition rule (name tag : String.string) : value :=
  VDict [(lit "name", VStr (lit name)); (lit "tag", VStr (lit tag))].

(** What YAML makes of the file, of the spans that end with a tag line,
    and of the empty text. *)
Definition yaml : str -> result value :=
  parser_of [(concat reference, VList [rule "x" "y z"; rule "q" "r"]);
             (concat [ln "- name: x"; ln "  tag: y"], VList [rule "x" "y"]);
             (concat [ln "- name: q"; ln "  tag: r"], VList [rule "q" "r"]);
             ([], VNone)].

End FoldedTag.




(* ================================================================== *)
(** * The report of duplicate keys *)
(* ================================================================== *)

Section DuplicateReport.

(** The value of a hexadecimal numeral in lower case. *)
Definition hex_digit (c : char) : option N :=
  if ((48 <=? c) && (c <=? 57))%N then Some (c - 48)%N
  else if ((97 <=? c) && (c <=? 102))%N then Some (c - 87)%N
  else None.

Fixpoint hex_value_from (acc : N) (digits : str) : option N :=
  match digits with
  | [] => Some acc
  | c :: r =>
      match hex_digit c with
      | Some d => hex_value_from (16 * acc + d) r
      | None => None
      end
  end.

Definition hex_value (digits : str) : option N :=
  match digits with
  | [] => None
  | _ :: _ => hex_value_from 0 digits
  end.

(** The line that reports a duplicate key, as the specification describes
    it: the key between quotes, followed for a key of one character by
    the code point of the character in hexadecimal, and the file the key
    is from. *)
Definition reports_duplicate (file : String.string) (k line : str) : Prop :=
  match k with
  | [c] =>
      exists digits,
        hex_value digits = Some c /\ 4 <= length digits /\
        line = lit "Warning: Duplicate key '" ++ k ++ lit "' (Unicode char: \u"
               ++ digits ++ lit ") in " ++ lit file ++ lit " file."
  | _ => line = lit "Warning: Duplicate key '" ++ k ++ lit "' in "
                ++ lit file ++ lit " file."
  end.

Lemma hex_value_from_pos (u : Hexadecimal.uint) :
  forall p, hex_value_from (N.pos p) (hex_codes u)
            = Some (N.pos (Pos.of_hex_uint_acc u p)).
Proof.
  induction u; intros p; cbn [hex_codes hex_value_from Pos.of_hex_uint_acc];
    [reflexivity|..];
    match goal with
    | |- context [hex_digit ?c] =>
        let d := eval vm_compute in (hex_digit c) in
        change (hex_digit c) with d; cbv iota
    end;
    rewrite <- IHu; f_equal; lia.
Qed.

Lemma hex_value_from_zero (u : Hexadecimal.uint) :
  hex_value_from 0 (hex_codes u) = Some (Pos.of_hex_uint u).
Proof.
  induction u; cbn [hex_codes hex_value_from Pos.of_hex_uint];
    [reflexivity|..];
    match goal with
    | |- context [hex_digit ?c] =>
        let d := eval vm_compute in (hex_digit c) in
        change (hex_digit c) with d; cbv iota
    end;
    [exact IHu|..]; apply (hex_value_from_pos u).
Qed.

Lemma hex_value_from_padding (m : nat) (digits : str) :
  hex_value_from 0 (repeat 48%N m ++ digits) = hex_value_from 0 digits.
Proof. induction m as [|m IH]; [reflexivity|exact IH]. Qed.

Lemma hex04_length (c : N) : 4 <= length (hex04 c).
Proof.
  unfold hex04. cbv zeta. rewrite length_app, repeat_length.
  unfold str, char. lia.
Qed.

Lemma hex_value_hex04 (c : N) : hex_value (hex04 c) = Some c.
Proof.
  pose proof (hex04_length c) as Hlen. unfold hex_value.
  destruct (hex04 c) as [|x r] eqn:E; [simpl in Hlen; lia|].
  rewrite <- E. unfold hex04. cbv zeta.
  rewrite hex_value_from_padding, hex_value_from_zero.
  f_equal. apply HexadecimalN.Unsigned.of_to.
Qed.

Lemma duplicate_warning_reports (file : String.string) (k : str) :
  reports_duplicate file k (duplicate_warning k file).
Proof.
  unfold reports_duplicate, duplicate_warning, format_rule_key_for_display.
  destruct k as [|c [|c' k]].
  - reflexivity.
  - exists (hex04 c). split; [apply hex_value_hex04|]. split; [apply hex04_length|].
    simpl. repeat (rewrite <- app_assoc; simpl). reflexivity.
  - simpl. repeat (rewrite <- app_assoc; simpl). reflexivity.
Qed.

End DuplicateReport.

(** C5: when two rules of the English file, or two rules of the
    translated file, have the same key, the run prints for every such key
    the line that reports it (the key between quotes, with its code point
    in hexadecimal when it is one character, and the file it is from),
    ends with exit status 1, and leaves the disk as it found it: no
    temporary file, no back-up, the translated file as it was.  This
    holds in both modes. *)
Theorem duplicate_keys_stop_the_run
  (safe_load : str -> result value)
  (a : args) (w : world) (english_lines translated_lines : list str)
  (english_list translated_list : list value) (english_keys translated_keys : list str) :
  load_both safe_load a w
  = Ok ((english_lines, VList english_list), (translated_lines, VList translated_list)) ->
  derived_keys (is_unicode_yaml_file a) english_list = Ok english_keys ->
  derived_keys (is_unicode_yaml_file a) translated_list = Ok translated_keys ->
  ~ NoDup english_keys \/ ~ NoDup translated_keys ->
  exit_code (status (main safe_load a w)) = 1 /\
  disk_after (main safe_load a w) = disk w /\
  (forall k, occurs_twice k english_keys ->
             exists line,
               reports_duplicate "english" k line /\
               In [Txt line] (stdout (main safe_load a w))) /\
  (forall k, occurs_twice k translated_keys ->
             exists line,
               reports_duplicate "translated" k line /\
               In [Txt line] (stdout (main safe_load a w))).
Proof.
  intros Hload He Ht Hdup.
  destruct (audit_stops_on_duplicates _ _ _ He Ht Hdup)
    as (header & tail & Haudit & (e & Hraise & Hstop)).
  unfold main. rewrite Hload, Haudit, Hraise.
  cbn [status disk_after stdout].
  split; [|split; [reflexivity|split]].
  - destruct Hstop as [->|[->| ->]]; reflexivity.
  - intros k Hk. exists (duplicate_warning k "english").
    split; [apply duplicate_warning_reports|].
    apply in_or_app. right. apply in_or_app. left.
    unfold warnings_for. apply in_map_iff. exists k. split; [reflexivity|].
    now apply repeats_twice.
  - intros k Hk. exists (duplicate_warning k "translated").
    split; [apply duplicate_warning_reports|].
    apply in_or_app. right. apply in_or_app. right.
    apply in_or_app. left.
    unfold warnings_for. apply in_map_iff. exists k. split; [reflexivity|].
    now apply repeats_twice.
Qed.

Lemma duplicate_keys_stop_the_run_witness :
  (~ NoDup [lit "default:mi"; lit "default:mi"] \/ ~ NoDup [lit "default:mi"]) /\
  exit_code (status (main DuplicateRun.yaml DuplicateRun.the_args DuplicateRun.the_world))
  = 1 /\
  disk_after (main DuplicateRun.yaml DuplicateRun.the_args DuplicateRun.the_world)
  = disk DuplicateRun.the_world /\
  In [Txt (lit "Warning: Duplicate key 'default:mi' in english file.")]
     (stdout (main DuplicateRun.yaml DuplicateRun.the_args DuplicateRun.the_world)).
Proof.
  assert (Hdup : ~ NoDup [lit "default:mi"; lit "default:mi"]
                 \/ ~ NoDup [lit "default:mi"]).
  { left. intros H. inversion H as [|x l Hnotin _]; subst. apply Hnotin. now left. }
  split; [exact Hdup|].
  destruct (@duplicate_keys_stop_the_run DuplicateRun.yaml DuplicateRun.the_args
              DuplicateRun.the_world DuplicateRun.english_file
              DuplicateRun.translated_file
              [DuplicateRun.rule "x"; DuplicateRun.rule "y"] [DuplicateRun.rule "x"]
              [lit "default:mi"; lit "default:mi"] [lit "default:mi"])
    as (Hexit & Hdisk & Henglish & _).
  - vm_compute. reflexivity.
  - vm_compute. reflexivity.
  - vm_compute. reflexivity.
  - exact Hdup.
  - split; [exact Hexit|]. split; [exact Hdisk|].
    destruct (Henglish (lit "default:mi")) as (line & Hline & Hin).
    + exists [], [], []. reflexivity.
    + cbv [reports_duplicate lit] in Hline. cbn in Hline. subst line. exact Hin.
Defined.

Module DuplicateLetters.

Definition english_file : list str :=
  [ln " - `a`: [t: `alpha`]";
   ln " - `a`: [t: `again`]"].

Definition yaml : str -> result value :=
  parser_of [(concat english_file, VList [letter "a" "alpha"; letter "a" "again"])].

Definition the_world : world :=
  {| disk := [(lit "en/unicode.yaml", english_file);
              (lit "sv/unicode.yaml", english_file)];
     temp_file_name := lit "sv/unicode.yamlk3j2";
     stdout_is_open := true |}.

(** A key of one character is shown with its code point. *)
Example duplicate_letter_run :
  main yaml GreekRun.the_args the_world
  = {| stdout :=
         [[Txt ([10%N] ++ lit "Processing 2 items in Unicode mode." ++ [10%N])];
          [Txt (lit "Warning: Duplicate key 'a' (Unicode char: \u0061) in english file.")];
          [Txt (lit "Warning: Duplicate key 'a' (Unicode char: \u0061) in translated file.")];
          [Txt (lit "Rule 'a' (Unicode char: \u0061) still contains 1 key(s) needing translating.")];
          [Txt ([10%N] ++ lit "Stopping: Duplicate keys in the English or translated file may cause incorrect results.")]];
       status := Raise (SystemExit 1);
       disk_after := disk the_world |}.
Proof. vm_compute. reflexivity. Qed.

End DuplicateLetters.
